(** * Principal component analysis by hand: the pipeline of
      notebooks/Day2_3-Dimensionality-Reduction.ipynb

    The notebook is a straight-line numerical pipeline over NumPy arrays:

      X_std        = StandardScaler().fit_transform(iris.data)
      Σ            = np.cov(X_std.T)
      evals, evecs = np.linalg.eig(Σ)
      total        = evals.sum()
      variance_explained = 100 * np.sort(evals)[::-1] / total
      np.r_[0, variance_explained.cumsum()]
      W            = evecs[:, :2]
      Y            = X_std @ W
      pca          = PCA(n_components=3, whiten=True).fit(iris.data)
      X_pca        = pca.transform(iris.data)

    Arrays are embedded as lists of reals (a 2-D array is the list of its
    rows, in row-major order as NumPy stores it).  Arithmetic is exact real
    arithmetic: rounding of IEEE doubles is not modelled.  The one place
    where the scaler itself tests against the machine epsilon, its detection
    of constant features, is written out with the epsilon as a parameter
    ([fit_eps]); [X_std], and all that is computed from it, is the scaler of
    unbounded precision, for which a feature is constant when its variance
    is zero.  The routines with
    a closed form (standardisation, covariance, sum, sort, cumulative sum,
    slicing, matrix product, the library transform) are written out as
    functions.  The two LAPACK-backed solvers, [np.linalg.eig] and the
    fitting of the library PCA, have no closed form: each is a parameter of
    the pipeline, and what its documentation promises of its result is
    stated as a predicate ([eig_contract], [PCA.fitted]).  Where NumPy
    would divide by zero (one observation only, all eigenvalues zero) the
    statements below carry the hypothesis that excludes it.

    The cells around the pipeline are embedded too: the species labels and
    the data frame [iris_df] with the columns assigned to it, the loop over
    the pairs of features, the names of the variables and the mean point of
    the 3-D plot, the plot of the cumulative explained variance and the
    table behind [df_proj].  There a string is a [string], an array of
    integers a list of [Z], and a library call that can raise returns an
    [option], [None] standing for the exception. *)

From Stdlib Require Import String Ascii.
From Stdlib Require Import Reals List Lra Lia Arith ZArith.
From Stdlib Require Import Sorting.Sorted Sorting.Permutation.
Import ListNotations.
Open Scope R_scope.

(** ** 1-D and 2-D arrays *)

Abbreviation vector := (list R).

(** A 2-D array, row-major: the list of its rows. *)
Abbreviation matrix := (list (list R)).

(** [ndarray.sum()] *)
Definition sum (v : vector) : R := fold_right Rplus 0 v.

(** [ndarray.mean()] *)
Definition mean (v : vector) : R := sum v / INR (length v).

(** [ndarray.var()], the population variance (divide by N). *)
Definition var (v : vector) : R :=
  mean (map (fun x => (x - mean v) * (x - mean v)) v).

(** [u @ v] on two 1-D arrays. *)
Definition dot (u v : vector) : R :=
  sum (map (fun p => fst p * snd p) (combine u v)).

Definition nrows (A : matrix) : nat := length A.
Definition ncols (A : matrix) : nat := length (hd [] A).

(** [A[i, j]] *)
Definition ent (A : matrix) (i j : nat) : R := nth j (nth i A []) 0.

(** [A[:, j]] *)
Definition column (j : nat) (A : matrix) : vector :=
  map (fun row => nth j row 0) A.

(** [A.T] *)
Definition transpose (A : matrix) : matrix :=
  map (fun j => column j A) (seq 0 (ncols A)).

(** [A.shape == (n, m)] *)
Definition shape (n m : nat) (A : matrix) : Prop :=
  length A = n /\ Forall (fun row => length row = m) A.

(** [A @ B] on two 2-D arrays: entry (i, k) is row i of A times column k of B. *)
Definition matmul (A B : matrix) : matrix :=
  map (fun row => map (fun col => dot row col) (transpose B)) A.

(** [A @ v] for a 1-D array v. *)
Definition matvec (A : matrix) (v : vector) : vector :=
  map (fun row => dot row v) A.

(** [c * v] *)
Definition scal (c : R) (v : vector) : vector := map (Rmult c) v.

(** [np.trace(A)] *)
Definition trace (A : matrix) : R :=
  sum (map (fun i => ent A i i) (seq 0 (nrows A))).

(** [np.eye(n)] *)
Definition eye (n : nat) : matrix :=
  map (fun i => map (fun j => if Nat.eq_dec i j then 1 else 0) (seq 0 n))
      (seq 0 n).

(** ** Step 2: [StandardScaler().fit_transform(X)]

    scikit-learn's scaler learns, per feature (column), the mean and the
    population variance; its scale is the square root of the variance, with
    a scale of zero replaced by one ([_handle_zeros_in_scale]) so that a
    constant feature is centred and left unscaled.  [transform] subtracts
    the mean and divides by the scale, feature by feature.  This is the
    scaler in exact arithmetic; the test by which the library takes a
    feature for a constant in floating point follows it ([fit_eps]). *)

Definition handle_zeros_in_scale (s : R) : R :=
  if Req_dec_T s 0 then 1 else s.

Record StandardScaler := mkScaler {
  mean_ : vector;
  var_ : vector;
  scale_ : vector
}.

Definition fit (X : matrix) : StandardScaler :=
  {| mean_ := map mean (transpose X);
     var_ := map var (transpose X);
     scale_ := map (fun v => handle_zeros_in_scale (sqrt v))
                   (map var (transpose X)) |}.

Definition transform (sc : StandardScaler) (X : matrix) : matrix :=
  map (fun row =>
         map (fun j => (nth j row 0 - nth j (mean_ sc) 0) / nth j (scale_ sc) 1)
             (seq 0 (length row)))
      X.

Definition fit_transform (X : matrix) : matrix := transform (fit X) X.

(** What the scaler does to one feature, seen as a 1-D array. *)
Definition standardize (v : vector) : vector :=
  map (fun x => (x - mean v) / handle_zeros_in_scale (sqrt (var v))) v.

(** ** Step 2 at the precision of the machine

    In floating point the scaler does not compare the variance of a feature
    with zero.  A feature counts as constant when its variance lies within
    the error bound of the variance computation,
    [var <= n * eps * var + (n * mean * eps) ** 2] ([_is_constant_feature]),
    where [eps] is the machine epsilon and n the number of observations;
    such a feature is centred and its scale is set to one, every other
    feature is divided by the square root of its variance.  The test is
    written out here with [eps] as a parameter: [float64_eps] is the value
    the library uses, and with [eps = 0], arithmetic of unbounded
    precision, the test is [var = 0] and the scaler is [fit] above.  A table
    without observations or without features is refused ([ValueError],
    [None] here). *)


(** [_is_constant_feature(var, mean, n_samples)] *)
Definition is_constant_feature (eps var mean : R) (n_samples : nat) : bool :=
  if Rle_dec var (INR n_samples * eps * var
                  + (INR n_samples * mean * eps) * (INR n_samples * mean * eps))
  then true else false.

(** The scale learnt for one feature, seen as a 1-D array of n values. *)
Definition scale_eps (eps : R) (n : nat) (v : vector) : R :=
  if is_constant_feature eps (var v) (mean v) n then 1 else sqrt (var v).

(** [StandardScaler().fit(X)] *)
Definition fit_eps (eps : R) (X : matrix) : StandardScaler :=
  {| mean_ := map mean (transpose X);
     var_ := map var (transpose X);
     scale_ := map (scale_eps eps (nrows X)) (transpose X) |}.

(** [StandardScaler().fit_transform(X)] *)
Definition fit_transform_eps (eps : R) (X : matrix) : option matrix :=
  if orb (Nat.eqb (nrows X) 0) (Nat.eqb (ncols X) 0)
  then None
  else Some (transform (fit_eps eps X) X).

(** ** Step 3: [np.cov(M)]

    Each row of M is a variable and each column an observation; the
    estimate is the unbiased one (divide by N - 1, [ddof = 1]). *)

Definition center (v : vector) : vector := map (fun x => x - mean v) v.

Definition covariance (u v : vector) : R :=
  dot (center u) (center v) / (INR (length u) - 1).

Definition cov (M : matrix) : matrix :=
  map (fun u => map (fun v => covariance u v) M) M.

(** ** Step 4: [np.linalg.eig(A)]

    The solver is LAPACK's; the notebook only calls it.  Its NumPy
    documentation promises a pair (w, v) of the eigenvalues, each repeated
    according to its multiplicity and in no particular order, and of the
    normalised (unit length) eigenvectors, such that column [v[:, i]]
    belongs to [w[i]]: [A @ v[:, i] == w[i] * v[:, i]].  For a
    diagonalisable matrix (every covariance matrix is one) the columns form
    a basis, which is stated here by a two-sided inverse. *)

Record eig_contract (A : matrix) (w : vector) (v : matrix) : Prop := {
  eig_size : length w = nrows A;
  eig_shape : shape (nrows A) (nrows A) v;
  eig_pair : forall i, (i < nrows A)%nat ->
      matvec A (column i v) = scal (nth i w 0) (column i v);
  eig_unit : forall i, (i < nrows A)%nat ->
      dot (column i v) (column i v) = 1;
  eig_basis : exists u, shape (nrows A) (nrows A) u /\
      matmul u v = eye (nrows A) /\ matmul v u = eye (nrows A)
}.

(** ** Step 5: [np.sort], [[::-1]], [cumsum], [np.r_]

    [np.sort] returns a sorted copy, in ascending order; on reals every
    sorting algorithm returns the same array, insertion sort is the model
    here. *)

Fixpoint insert (x : R) (l : vector) : vector :=
  match l with
  | [] => [x]
  | y :: l' => if Rle_dec x y then x :: l else y :: insert x l'
  end.

(** [np.sort(v)]: ascending order. *)
Fixpoint sort (v : vector) : vector :=
  match v with
  | [] => []
  | x :: v' => insert x (sort v')
  end.

Fixpoint cumsum_from (acc : R) (v : vector) : vector :=
  match v with
  | [] => []
  | x :: v' => (acc + x) :: cumsum_from (acc + x) v'
  end.

(** [v.cumsum()] *)
Definition cumsum (v : vector) : vector := cumsum_from 0 v.

(** ** Step 8: scikit-learn's [PCA(n_components=3, whiten=True)]

    [fit] centres the data by the feature means (it does not rescale them)
    and finds the principal axes by a singular value decomposition, again a
    LAPACK routine.  What it stores is documented: [mean_], the feature
    means; [components_], one principal axis per row, the rows orthonormal,
    each an eigenvector of the covariance matrix [np.cov(X.T)] of the data
    it was fitted on; [explained_variance_], their eigenvalues, largest
    first.  [transform] subtracts [mean_], projects on the components and,
    with [whiten=True], divides each coordinate by the square root of its
    explained variance. *)

(** [u - v] on two 1-D arrays. *)
Definition vsub (u v : vector) : vector :=
  map (fun p => fst p - snd p) (combine u v).

Module PCA.

Record t := mk {
  n_components : nat;
  whiten : bool;
  mean_ : vector;
  components_ : matrix;
  explained_variance_ : vector
}.

(** Coordinate k of one observation. *)
Definition coordinate (p : t) (row : vector) (k : nat) : R :=
  let proj := dot (vsub row (mean_ p)) (nth k (components_ p) []) in
  if whiten p then proj / sqrt (nth k (explained_variance_ p) 0) else proj.

Definition transform (p : t) (X : matrix) : matrix :=
  map (fun row => map (coordinate p row) (seq 0 (n_components p))) X.

(** What [PCA(n_components=k, whiten=w).fit(X)] promises of its result. *)
Record fitted (k : nat) (w : bool) (X : matrix) (p : t) : Prop := {
  fit_n : n_components p = k;
  fit_whiten : whiten p = w;
  fit_mean : mean_ p = map mean (transpose X);
  fit_shape : shape k (ncols X) (components_ p);
  fit_size : length (explained_variance_ p) = k;
  fit_pair : forall i, (i < k)%nat ->
      matvec (cov (transpose X)) (nth i (components_ p) [])
      = scal (nth i (explained_variance_ p) 0) (nth i (components_ p) []);
  fit_unit : forall i, (i < k)%nat ->
      dot (nth i (components_ p) []) (nth i (components_ p) []) = 1;
  fit_orth : forall i j, (i < k)%nat -> (j < k)%nat -> i <> j ->
      dot (nth i (components_ p) []) (nth j (components_ p) []) = 0;
  fit_sorted : forall i j, (i <= j)%nat -> (j < k)%nat ->
      nth j (explained_variance_ p) 0 <= nth i (explained_variance_ p) 0
}.

End PCA.

(** ** The notebook's cells, in order *)

Section Notebook.

(** The eigen-solver, [np.linalg.eig]. *)
Variable eig : matrix -> vector * matrix.

(** [PCA(n_components=3, whiten=True).fit], the library routine. *)
Variable pca_fit : matrix -> PCA.t.

(** The data, [iris.data]: one row per observation, one column per
    feature. *)
Variable data : matrix.

(** [X_std = StandardScaler().fit_transform(iris.data)] *)
Definition X_std : matrix := fit_transform data.

(** [Σ = np.cov(X_std.T)] *)
Definition Sigma : matrix := cov (transpose X_std).

(** [evals, evecs = np.linalg.eig(Σ)] *)
Definition evals : vector := fst (eig Sigma).
Definition evecs : matrix := snd (eig Sigma).

(** [total = evals.sum()] *)
Definition total : R := sum evals.

(** [variance_explained = 100 * np.sort(evals)[::-1] / total] *)
Definition variance_explained : vector :=
  map (fun x => 100 * x / total) (rev (sort evals)).

(** [np.r_[0, variance_explained.cumsum()]], the curve of the second
    plot. *)
Definition cumulative_explained : vector :=
  0 :: cumsum variance_explained.

(** [W = evecs[:, :2]] *)
Definition W : matrix := map (firstn 2) evecs.

(** [Y = X_std @ W] *)
Definition Y : matrix := matmul X_std W.

(** [pca = PCA(n_components=3, whiten=True).fit(iris.data)]: fitted on the
    raw table, not on [X_std]. *)
Definition pca : PCA.t := pca_fit data.

(** [X_pca = pca.transform(iris.data)] *)
Definition X_pca : matrix := PCA.transform pca data.

End Notebook.

(** Column k of A is column k of B up to a sign and a positive rescaling,
    on the first n rows. *)
Definition agree_up_to_sign_and_scale (n k : nat) (A B : matrix) : Prop :=
  exists sign rho, (sign = 1 \/ sign = -1) /\ 0 < rho /\
    forall i, (i < n)%nat -> ent A i k = sign * rho * ent B i k.

(** ** Orderings of 1-D arrays *)

Definition non_increasing (v : vector) : Prop :=
  forall i j, (i <= j)%nat -> (j < length v)%nat -> nth j v 0 <= nth i v 0.

Definition non_decreasing (v : vector) : Prop :=
  forall i j, (i <= j)%nat -> (j < length v)%nat -> nth i v 0 <= nth j v 0.

(** The K selected columns carry the K largest eigenvalues: no column left
    out has an eigenvalue above that of a selected one. *)
Definition selects_top (K : nat) (w : vector) : Prop :=
  forall i j, (i < K)%nat -> (K <= j)%nat -> (j < length w)%nat ->
    nth j w 0 <= nth i w 0.

(** * The other cells of the notebook *)

(** ** The mean point of the 3-D plot *)

(** [A.mean(0)]: the mean of each column. *)
Definition mean_axis0 (A : matrix) : vector := map mean (transpose A).

(** [x, y, z = v]: unpacking succeeds on exactly three values and raises
    [ValueError] otherwise. *)
Definition unpack3 (v : vector) : option (R * R * R) :=
  match v with
  | [x; y; z] => Some (x, y, z)
  | _ => None
  end.

(** [mean_x, mean_y, mean_z = X_std.mean(0)[:-1]] *)
Definition mean_xyz (data : matrix) : option (R * R * R) :=
  unpack3 (removelast (mean_axis0 (X_std data))).

(** The arrows of the 3-D plot,
    [for v in evecs: Arrow3D([mean_x, v[0]], [mean_y, v[1]], [mean_z, v[2]], ...)]:
    the loop runs over the rows of [evecs]; each arrow goes from the mean
    point to the first three entries of a row. *)
Definition arrows (eig : matrix -> vector * matrix) (data : matrix)
  : option (list ((R * R * R) * (R * R * R))) :=
  match mean_xyz data with
  | Some start =>
      Some (map (fun v => (start, (nth 0 v 0, nth 1 v 0, nth 2 v 0)))
                (evecs eig data))
  | None => None
  end.

(** ** Plots and tables built from the pipeline *)

(** [range(n)], as the abscissae of a plot. *)
Definition range (n : nat) : vector := map INR (seq 0 n).

(** [ax.plot(x, y)]: the points the line goes through.  The two arrays must
    have the same length, matplotlib raises [ValueError] otherwise. *)
Definition plot (x y : vector) : option (list (R * R)) :=
  if Nat.eqb (length x) (length y) then Some (combine x y) else None.

(** [v.reshape(-1, 1)]: a 1-D array as one column. *)
Definition reshape_column (v : vector) : matrix := map (fun x => [x]) v.

(** [np.hstack((A, B))] on two 2-D arrays: the rows are joined pairwise.
    The arrays must have the same number of rows, NumPy raises [ValueError]
    otherwise. *)
Definition hstack (A B : matrix) : option matrix :=
  if Nat.eqb (length A) (length B)
  then Some (map (fun p => fst p ++ snd p) (combine A B))
  else None.

Section Plots.

Variable eig : matrix -> vector * matrix.
Variable data : matrix.

(** [axes[1].plot(range(5), np.r_[0, variance_explained.cumsum()])] *)
Definition cumulative_plot : option (list (R * R)) :=
  plot (range 5) (cumulative_explained eig data).

(** The values of [df_proj]:
    [np.hstack((Y, iris.target.astype(int).reshape(-1, 1)))].  The integer
    labels are converted to floating point by the stacking. *)
Definition df_proj (target : list Z) : option matrix :=
  hstack (Y eig data) (reshape_column (map IZR target)).

End Plots.

(** ** Strings: [str.find] and slicing

    [s.find(sub)] is the lowest index at which [sub] occurs in [s], or -1 if
    it does not occur.  [s[:k]] keeps the characters before position k; a
    negative k counts from the end, and positions are clipped to the
    string. *)

Fixpoint find_from (sub s : String.string) (i : Z) : Z :=
  if String.prefix sub s then i
  else match s with
       | String.EmptyString => (-1)%Z
       | String.String _ s' => find_from sub s' (i + 1)%Z
       end.

(** [s.find(sub)] *)
Definition find (s sub : String.string) : Z := find_from sub s 0%Z.

(** [s[:k]] *)
Definition slice_to (s : String.string) (k : Z) : String.string :=
  let len := Z.of_nat (String.length s) in
  let stop := if (k <? 0)%Z then Z.max 0 (len + k) else Z.min k len in
  String.substring 0 (Z.to_nat stop) s.

(** [name[:name.find(' (')]] *)
Definition variable_name (name : String.string) : String.string :=
  slice_to name (find name " ("%string).

(** [variables = [name[:name.find(' (')] for name in iris.feature_names]] *)
Definition variables (feature_names : list String.string) : list String.string :=
  map variable_name feature_names.

(** ** [itertools.combinations(iterable, r)]

    The r-length subsequences of the input, emitted in lexicographic order
    of the positions of their elements. *)

Fixpoint combinations {A : Type} (l : list A) (r : nat) : list (list A) :=
  match r, l with
  | O, _ => [[]]
  | S _, [] => []
  | S r', x :: t => map (cons x) (combinations t r') ++ combinations t r
  end.

(** [x, y = xy] *)
Definition unpack2 {A : Type} (xy : list A) : option (A * A) :=
  match xy with
  | [x; y] => Some (x, y)
  | _ => None
  end.

(** The pairs of feature names the first loop plots:
    [for xy in combinations(iris.feature_names, 2): x, y = xy; ...]. *)
Definition pairwise_plots {A : Type} (feature_names : list A) : list (option (A * A)) :=
  map unpack2 (combinations feature_names 2).

(** ** Indexing an array by an array of integers, [names[idx]]

    Entry i of the result is [names[idx[i]]]; a negative index counts from
    the end, an index outside [-len, len) raises [IndexError]. *)

Definition getitem {A : Type} (names : list A) (k : Z) : option A :=
  let len := Z.of_nat (length names) in
  if andb (0 <=? k)%Z (k <? len)%Z then nth_error names (Z.to_nat k)
  else if andb (- len <=? k)%Z (k <? 0)%Z then nth_error names (Z.to_nat (len + k))
  else None.

Fixpoint take {A : Type} (names : list A) (idx : list Z) : option (list A) :=
  match idx with
  | [] => Some []
  | k :: idx' =>
      match getitem names k, take names idx' with
      | Some x, Some xs => Some (x :: xs)
      | _, _ => None
      end
  end.

(** [iris.target_names[iris.target]], the species label of each
    observation. *)
Definition species (target_names : list String.string) (target : list Z)
  : option (list String.string) :=
  take target_names target.

(** ** Data frames

    A pandas frame as the notebook uses it: labelled columns of equal
    length, kept in the order in which they were added.  A cell holds a
    number or a string.  Every frame of the notebook has distinct labels
    (with a repeated label pandas selects all the columns that carry it,
    which is not modelled). *)

Inductive value : Type :=
| Num (x : R)
| Str (s : String.string).

Record frame := mk_frame {
  index_len : nat;
  columns : list (String.string * list value)
}.

(** [pd.DataFrame(A, columns=labels)] for a 2-D array with at least one
    row: one column per column of A, [ValueError] unless there is a label
    for each. *)
Definition DataFrame (A : matrix) (labels : list String.string) : option frame :=
  if Nat.eqb (length labels) (ncols A)
  then Some {| index_len := nrows A;
               columns := combine labels (map (map Num) (transpose A)) |}
  else None.

Definition has_label (label : String.string) (c : String.string * list value) : bool :=
  String.eqb (fst c) label.

(** The first column that carries the label, if any. *)
Definition lookup (label : String.string)
    (cols : list (String.string * list value)) : option (list value) :=
  option_map snd (List.find (has_label label) cols).

(** [df[label]]: [KeyError] if no column carries the label. *)
Definition get_column (df : frame) (label : String.string) : option (list value) :=
  lookup label (columns df).

(** [df[label] = vals] (and [df.assign(label=vals)] on a copy): an existing
    column is replaced in place, a new one is appended; [ValueError] if the
    length of the values is not that of the index. *)
Definition set_column (df : frame) (label : String.string) (vals : list value)
  : option frame :=
  if Nat.eqb (length vals) (index_len df)
  then Some {| index_len := index_len df;
               columns :=
                 if existsb (has_label label) (columns df)
                 then map (fun c => if has_label label c then (label, vals) else c)
                          (columns df)
                 else columns df ++ [(label, vals)] |}
  else None.

Definition bind {A B : Type} (x : option A) (f : A -> option B) : option B :=
  match x with
  | Some a => f a
  | None => None
  end.

Section Frames.

Variable pca_fit : matrix -> PCA.t.
Variable data : matrix.
Variable feature_names target_names : list String.string.
Variable target : list Z.

(** [iris_df = (pd.DataFrame(iris.data, columns=iris.feature_names)
                  .assign(species=iris.target_names[iris.target]))] *)
Definition iris_df : option frame :=
  bind (DataFrame data feature_names) (fun df =>
  bind (species target_names target) (fun labels =>
  set_column df "species"%string (map Str labels))).

(** [iris_df['First Component'] = X_pca[:, 0]] and the two assignments that
    follow it. *)
Definition iris_df_with_components : option frame :=
  bind iris_df (fun df =>
  bind (set_column df "First Component"%string
          (map Num (column 0 (X_pca pca_fit data)))) (fun df =>
  bind (set_column df "Second Component"%string
          (map Num (column 1 (X_pca pca_fit data)))) (fun df =>
  set_column df "Third Component"%string
    (map Num (column 2 (X_pca pca_fit data)))))).

End Frames.

(** * Tables and index sums *)

(** ** Concrete tables used to exercise the pipeline

    Each has four features, like the Iris table.

    Four observations; the first feature is constant, the other three are
    uncorrelated.  The covariance matrix of the standardised data is then
    diagonal, diag(0, 4/3, 4/3, 4/3), and on a diagonal matrix LAPACK reads
    the eigenvalues off the diagonal in order and returns the identity as
    eigenvectors (cf. the [np.diag((1, 2, 3))] example in the NumPy
    documentation of [eig]): that is [eig_diag4]. *)

Definition data_const : matrix :=
  [ [5;  1;  1;  1];
    [5;  1; -1; -1];
    [5; -1;  1; -1];
    [5; -1; -1;  1] ].

Definition eig_diag4 (A : matrix) : vector * matrix :=
  ([ent A 0 0; ent A 1 1; ent A 2 2; ent A 3 3], eye 4).


(** Eight observations of four features of variances 34, 41, 136 and 164;
    the first two are correlated, the last two are correlated, and the two
    pairs are uncorrelated with each other.  The covariance matrix of the
    standardised data has the form
    [[a, b, 0, 0], [b, a, 0, 0], [0, 0, a, d], [0, 0, d, a]], with
    eigenvalues a + d, a + b, a - d and a - b on (0, 0, 1, 1)/sqrt 2,
    (1, 1, 0, 0)/sqrt 2, (0, 0, 1, -1)/sqrt 2 and (1, -1, 0, 0)/sqrt 2:
    [eig_blocks4] returns them.  Fitted on the raw table the library finds
    instead the axes (0, 0, 3/5, 4/5), (0, 0, 4/5, -3/5) and
    (3/5, 4/5, 0, 0), of variances 1600/7, 800/7 and 400/7. *)
Definition data8x4 : matrix :=
  [ [ 8;  9;  16;  18];
    [ 8; -1;   4; -18];
    [ 2;  1;  -4;  -2];
    [ 2; -9; -16;   2];
    [-2;  9; -16;   2];
    [-2; -1;  -4;  -2];
    [-8;  1;   4; -18];
    [-8; -9;  16;  18] ].

Definition half_sqrt2 : R := sqrt 2 / 2.

Definition eig_blocks4 (A : matrix) : vector * matrix :=
  ([ent A 2 2 + ent A 2 3; ent A 0 0 + ent A 0 1;
    ent A 2 2 - ent A 2 3; ent A 0 0 - ent A 0 1],
   [ [0;          half_sqrt2; 0;           half_sqrt2];
     [0;          half_sqrt2; 0;          -half_sqrt2];
     [half_sqrt2; 0;          half_sqrt2;  0];
     [half_sqrt2; 0;         -half_sqrt2;  0] ]).

Definition pca_fit8x4 (X : matrix) : PCA.t :=
  {| PCA.n_components := 3;
     PCA.whiten := true;
     PCA.mean_ := map mean (transpose X);
     PCA.components_ :=
       [ [0; 0; 3/5; 4/5]; [0; 0; 4/5; -3/5]; [3/5; 4/5; 0; 0] ];
     PCA.explained_variance_ := [1600/7; 800/7; 400/7] |}.

(** Four observations of four features that all have variance 196.  The
    covariance matrix of the standardised data has the simple eigenvalues
    192/49, 48/49, 64/147 and 0 on the columns of a Hadamard matrix (over
    2); the covariance matrix of the raw table has the same eigenvectors
    and 196 times the eigenvalues. *)
Definition data_equalvar : matrix :=
  [ [ 22;   2; -10; -14];
    [  2;  22; -14; -10];
    [-10; -14;  22;   2];
    [-14; -10;   2;  22] ].

Definition eig_hadamard4 (A : matrix) : vector * matrix :=
  ([192/49; 48/49; 64/147; 0],
   [ [ 1/2;  1/2;  1/2; 1/2];
     [ 1/2; -1/2; -1/2; 1/2];
     [-1/2;  1/2; -1/2; 1/2];
     [-1/2; -1/2;  1/2; 1/2] ]).

Definition pca_fit_equalvar (X : matrix) : PCA.t :=
  {| PCA.n_components := 3;
     PCA.whiten := true;
     PCA.mean_ := map mean (transpose X);
     PCA.components_ :=
       [ [1/2;  1/2; -1/2; -1/2];
         [1/2; -1/2;  1/2; -1/2];
         [1/2; -1/2; -1/2;  1/2] ];
     PCA.explained_variance_ := [768; 192; 256/3] |}.

(** ** Sums over an index range, [sum(f(i) for i in range(n))] *)

Definition bigsum (n : nat) (f : nat -> R) : R := sum (map f (seq 0 n)).

Definition delta (i j : nat) : R := if Nat.eq_dec i j then 1 else 0.

(** * Properties *)

(** ** Lists and their sums *)

Lemma nth_map_in (A B : Type) (f : A -> B) (l : list A) (i : nat) (d : B) (d' : A) :
  (i < length l)%nat -> nth i (map f l) d = f (nth i l d').
Proof.
  intros H. rewrite (nth_indep _ d (f d')) by (now rewrite length_map).
  apply map_nth.
Qed.

Lemma nth_map_seq (B : Type) (f : nat -> B) (n i : nat) (d : B) :
  (i < n)%nat -> nth i (map f (seq 0 n)) d = f i.
Proof.
  intros H. rewrite (nth_map_in _ _ f (seq 0 n) i d 0%nat) by (now rewrite length_seq).
  now rewrite seq_nth.
Qed.

Lemma sum_cons (x : R) (v : vector) : sum (x :: v) = x + sum v.
Proof. reflexivity. Qed.

Lemma sum_app (u v : vector) : sum (u ++ v) = sum u + sum v.
Proof.
  induction u as [|x u IH]; simpl.
  - lra.
  - unfold sum in *; simpl; rewrite IH; lra.
Qed.

Lemma sum_map_ext_in (A : Type) (f g : A -> R) (l : list A) :
  (forall x, In x l -> f x = g x) -> sum (map f l) = sum (map g l).
Proof.
  intros H; f_equal; apply map_ext_in; exact H.
Qed.

Lemma sum_map_add (A : Type) (f g : A -> R) (l : list A) :
  sum (map (fun x => f x + g x) l) = sum (map f l) + sum (map g l).
Proof.
  induction l as [|a l IH]; cbn [map].
  - unfold sum; simpl; lra.
  - rewrite !sum_cons, IH; lra.
Qed.

Lemma sum_map_scal (A : Type) (c : R) (f : A -> R) (l : list A) :
  sum (map (fun x => c * f x) l) = c * sum (map f l).
Proof.
  induction l as [|a l IH]; cbn [map].
  - unfold sum; simpl; lra.
  - rewrite !sum_cons, IH; lra.
Qed.

Lemma sum_map_const (A : Type) (c : R) (l : list A) :
  sum (map (fun _ => c) l) = INR (length l) * c.
Proof.
  induction l as [|a l IH].
  - unfold sum; simpl; lra.
  - cbn [map]; rewrite sum_cons, IH.
    change (length (a :: l)) with (S (length l)); rewrite S_INR; lra.
Qed.

Lemma sum_map_id (v : vector) : sum (map (fun x => x) v) = sum v.
Proof. now rewrite map_id. Qed.

Lemma sum_map_nonneg (A : Type) (f : A -> R) (l : list A) :
  (forall x, In x l -> 0 <= f x) -> 0 <= sum (map f l).
Proof.
  induction l as [|a l IH]; intros H.
  - unfold sum; simpl; lra.
  - cbn [map]; rewrite sum_cons.
    assert (0 <= f a) by (apply H; now left).
    assert (0 <= sum (map f l)) by (apply IH; intros; apply H; now right).
    lra.
Qed.

(** Exchange of two finite sums. *)
Lemma sum_map_swap (A B : Type) (f : A -> B -> R) (la : list A) (lb : list B) :
  sum (map (fun a => sum (map (fun b => f a b) lb)) la) =
  sum (map (fun b => sum (map (fun a => f a b) la)) lb).
Proof.
  induction la as [|a la IH].
  - cbn [map]. rewrite sum_map_const. unfold sum; simpl; lra.
  - cbn [map]. rewrite sum_cons, IH, <- sum_map_add. reflexivity.
Qed.

Lemma sum_perm (u v : vector) : Permutation u v -> sum u = sum v.
Proof.
  induction 1 as [|x u v _ IH|x y u|u v w _ IH1 _ IH2].
  - reflexivity.
  - now rewrite !sum_cons, IH.
  - rewrite !sum_cons. lra.
  - now rewrite IH1.
Qed.

(** ** Sums over an index range *)

Lemma bigsum_ext (n : nat) (f g : nat -> R) :
  (forall i, (i < n)%nat -> f i = g i) -> bigsum n f = bigsum n g.
Proof.
  intros H. unfold bigsum. apply sum_map_ext_in.
  intros i Hi. apply in_seq in Hi. apply H. lia.
Qed.

Lemma bigsum_S_first (n : nat) (f : nat -> R) :
  bigsum (S n) f = f 0%nat + bigsum n (fun i => f (S i)).
Proof.
  unfold bigsum. cbn [seq map]. rewrite sum_cons.
  now rewrite <- seq_shift, map_map.
Qed.

Lemma bigsum_add (n : nat) (f g : nat -> R) :
  bigsum n (fun i => f i + g i) = bigsum n f + bigsum n g.
Proof. apply sum_map_add. Qed.

Lemma bigsum_scal (n : nat) (c : R) (f : nat -> R) :
  bigsum n (fun i => c * f i) = c * bigsum n f.
Proof. apply sum_map_scal. Qed.

Lemma bigsum_scal_r (n : nat) (c : R) (f : nat -> R) :
  bigsum n (fun i => f i * c) = bigsum n f * c.
Proof.
  rewrite (bigsum_ext n _ (fun i => c * f i)) by (intros; lra).
  rewrite bigsum_scal; lra.
Qed.

Lemma bigsum_swap (n m : nat) (f : nat -> nat -> R) :
  bigsum n (fun i => bigsum m (fun j => f i j)) =
  bigsum m (fun j => bigsum n (fun i => f i j)).
Proof. apply sum_map_swap. Qed.

Lemma bigsum_0 (n : nat) : bigsum n (fun _ => 0) = 0.
Proof. unfold bigsum. rewrite sum_map_const. lra. Qed.


Lemma bigsum_nonneg (n : nat) (f : nat -> R) :
  (forall i, (i < n)%nat -> 0 <= f i) -> 0 <= bigsum n f.
Proof.
  intros H. apply sum_map_nonneg. intros i Hi.
  apply in_seq in Hi. apply H. lia.
Qed.

Lemma bigsum_delta_l (n k : nat) (f : nat -> R) :
  (k < n)%nat -> bigsum n (fun i => delta k i * f i) = f k.
Proof.
  revert k f. induction n as [|n IH]; intros k f Hk; [lia|].
  rewrite bigsum_S_first. destruct k as [|k].
  - rewrite (bigsum_ext n _ (fun _ => 0)).
    + rewrite bigsum_0. unfold delta; simpl. lra.
    + intros i _. unfold delta. destruct (Nat.eq_dec 0 (S i)); [lia|lra].
  - rewrite (bigsum_ext n _ (fun i => delta k i * f (S i))).
    + rewrite (IH k (fun i => f (S i))) by lia.
      unfold delta. destruct (Nat.eq_dec (S k) 0); [lia|lra].
    + intros i _. unfold delta.
      destruct (Nat.eq_dec (S k) (S i)), (Nat.eq_dec k i); try lia; lra.
Qed.

Lemma delta_sym (i j : nat) : delta i j = delta j i.
Proof. unfold delta. destruct (Nat.eq_dec i j), (Nat.eq_dec j i); try lia; lra. Qed.

Lemma bigsum_ge_term (n k : nat) (f : nat -> R) :
  (forall i, (i < n)%nat -> 0 <= f i) -> (k < n)%nat -> f k <= bigsum n f.
Proof.
  intros Hf Hk.
  rewrite (bigsum_ext n f (fun i => delta k i * f i + (1 - delta k i) * f i))
    by (intros; lra).
  rewrite bigsum_add, bigsum_delta_l by exact Hk.
  assert (0 <= bigsum n (fun i => (1 - delta k i) * f i)); [|lra].
  apply bigsum_nonneg. intros i Hi. apply Rmult_le_pos; [|now apply Hf].
  unfold delta. destruct (Nat.eq_dec k i); lra.
Qed.

Lemma sum_nth (v : vector) : sum v = bigsum (length v) (fun i => nth i v 0).
Proof.
  induction v as [|x v IH].
  - reflexivity.
  - cbn [length]. rewrite bigsum_S_first, sum_cons, IH. reflexivity.
Qed.

Lemma sum_map_nth (A : Type) (f : A -> R) (l : list A) (d : A) :
  sum (map f l) = bigsum (length l) (fun i => f (nth i l d)).
Proof.
  rewrite sum_nth, length_map. apply bigsum_ext. intros i Hi.
  now apply nth_map_in.
Qed.

(** The quadratic form of a Gram matrix is a sum of squares. *)
Lemma gram_quadratic_form (n m : nat) (C : nat -> nat -> R) (V : nat -> R) :
  bigsum m (fun j => V j * bigsum m (fun l =>
      bigsum n (fun i => C i j * C i l) * V l))
  = bigsum n (fun i => bigsum m (fun j => C i j * V j)
                       * bigsum m (fun j => C i j * V j)).
Proof.
  transitivity (bigsum m (fun j => bigsum n (fun i =>
      (C i j * V j) * bigsum m (fun l => C i l * V l)))).
  - apply bigsum_ext. intros j _.
    rewrite <- bigsum_scal.
    rewrite (bigsum_ext m _ (fun l => bigsum n (fun i => V j * (C i j * C i l * V l)))).
    + rewrite bigsum_swap. apply bigsum_ext. intros i _.
      rewrite <- bigsum_scal. apply bigsum_ext. intros l _. lra.
    + intros l _. rewrite <- bigsum_scal_r, <- bigsum_scal.
      apply bigsum_ext. intros i _. lra.
  - rewrite bigsum_swap. apply bigsum_ext. intros i _.
    now rewrite <- bigsum_scal_r.
Qed.

(** ** Dot products *)

Lemma dot_cons (x y : R) (u v : vector) :
  dot (x :: u) (y :: v) = x * y + dot u v.
Proof. reflexivity. Qed.

Lemma dot_nth (u v : vector) :
  length u = length v ->
  dot u v = bigsum (length u) (fun i => nth i u 0 * nth i v 0).
Proof.
  revert v. induction u as [|x u IH]; intros [|y v] H; simpl in H; try lia.
  - reflexivity.
  - cbn [length]. rewrite bigsum_S_first, dot_cons, IH by lia. reflexivity.
Qed.

Lemma dot_self (v : vector) : dot v v = sum (map (fun x => x * x) v).
Proof.
  induction v as [|x v IH]; [reflexivity|].
  rewrite dot_cons, IH. reflexivity.
Qed.

Lemma dot_comm (u v : vector) : dot u v = dot v u.
Proof.
  revert v. induction u as [|x u IH]; intros [|y v]; try reflexivity.
  rewrite !dot_cons, IH. lra.
Qed.

Lemma dot_map_div (a b : R) (u v : vector) :
  a <> 0 -> b <> 0 ->
  dot (map (fun x => x / a) u) (map (fun y => y / b) v) = dot u v / (a * b).
Proof.
  intros Ha Hb. revert v. induction u as [|x u IH]; intros [|y v].
  - unfold dot, sum; simpl. field. now split.
  - unfold dot, sum; simpl. field. now split.
  - unfold dot, sum; simpl. field. now split.
  - cbn [map]. rewrite !dot_cons, IH. field. now split.
Qed.

Lemma length_vsub (u v : vector) :
  length u = length v -> length (vsub u v) = length u.
Proof.
  intros E. unfold vsub. rewrite length_map, length_combine. lia.
Qed.

Lemma nth_vsub (u v : vector) (j : nat) :
  length u = length v -> (j < length u)%nat ->
  nth j (vsub u v) 0 = nth j u 0 - nth j v 0.
Proof.
  intros E Hj. unfold vsub.
  rewrite (nth_map_in _ _ (fun p => fst p - snd p) (combine u v) j 0 (0, 0))
    by (rewrite length_combine; lia).
  now rewrite combine_nth.
Qed.

(** ** Indexing into 2-D arrays; entries of products *)

Lemma shape_In (n m : nat) (A : matrix) (r : vector) :
  shape n m A -> In r A -> length r = m.
Proof.
  intros [_ H] Hin. rewrite Forall_forall in H. now apply H.
Qed.

Lemma shape_row (n m : nat) (A : matrix) (i : nat) :
  shape n m A -> (i < n)%nat -> length (nth i A []) = m.
Proof.
  intros H Hi. apply (shape_In n m A _ H). apply nth_In. destruct H; lia.
Qed.

Lemma shape_ncols (n m : nat) (A : matrix) :
  shape n m A -> (0 < n)%nat -> ncols A = m.
Proof.
  intros H Hn. unfold ncols.
  destruct A as [|r A]; [destruct H; simpl in *; lia|].
  simpl. apply (shape_In n m _ _ H). now left.
Qed.

Lemma length_column (j : nat) (A : matrix) : length (column j A) = length A.
Proof. unfold column; now rewrite length_map. Qed.

Lemma nth_column (i j : nat) (A : matrix) : nth i (column j A) 0 = ent A i j.
Proof.
  unfold column, ent.
  destruct (Nat.lt_ge_cases i (length A)) as [H|H].
  - now rewrite (nth_map_in _ _ (fun row => nth j row 0) A i 0 []).
  - rewrite (nth_overflow (map _ A)) by (now rewrite length_map).
    rewrite (nth_overflow A) by exact H.
    now destruct j.
Qed.

Lemma nth_transpose (j : nat) (A : matrix) :
  (j < ncols A)%nat -> nth j (transpose A) [] = column j A.
Proof. intros H. unfold transpose. now rewrite nth_map_seq. Qed.

Lemma length_transpose (A : matrix) : length (transpose A) = ncols A.
Proof. unfold transpose. now rewrite length_map, length_seq. Qed.

Lemma shape_transpose (n m : nat) (A : matrix) :
  shape n m A -> (0 < n)%nat -> shape m n (transpose A).
Proof.
  intros H Hn. split.
  - rewrite length_transpose. now apply (shape_ncols n m A H).
  - unfold transpose. apply Forall_forall. intros r Hr.
    apply in_map_iff in Hr. destruct Hr as [j [<- _]].
    rewrite length_column. now destruct H.
Qed.

Lemma ent_transpose (n m : nat) (A : matrix) (i j : nat) :
  shape n m A -> (i < n)%nat -> (j < m)%nat ->
  ent (transpose A) j i = ent A i j.
Proof.
  intros H Hi Hj. unfold ent at 1.
  rewrite nth_transpose by (rewrite (shape_ncols n m A H); lia).
  apply nth_column.
Qed.

Lemma matrix_ext (n m : nat) (A B : matrix) :
  shape n m A -> shape n m B ->
  (forall i j, (i < n)%nat -> (j < m)%nat -> ent A i j = ent B i j) ->
  A = B.
Proof.
  intros HA HB He.
  apply (nth_ext A B [] []).
  - destruct HA, HB; lia.
  - intros i Hi. assert (Hi' : (i < n)%nat) by (destruct HA; lia).
    apply (nth_ext _ _ 0 0).
    + now rewrite (shape_row n m A i HA), (shape_row n m B i HB).
    + intros j Hj. rewrite (shape_row n m A i HA Hi') in Hj.
      now apply He.
Qed.

Lemma nth_matvec (A : matrix) (v : vector) (i : nat) :
  (i < length A)%nat -> nth i (matvec A v) 0 = dot (nth i A []) v.
Proof.
  intros H. unfold matvec.
  now rewrite (nth_map_in _ _ (fun row => dot row v) A i 0 []).
Qed.

Lemma nth_scal (c : R) (v : vector) (i : nat) :
  nth i (scal c v) 0 = c * nth i v 0.
Proof.
  unfold scal. rewrite <- (map_nth (Rmult c)). f_equal. lra.
Qed.

Lemma ent_matmul (A B : matrix) (i k : nat) :
  (i < length A)%nat -> (k < ncols B)%nat ->
  ent (matmul A B) i k = dot (nth i A []) (column k B).
Proof.
  intros Hi Hk. unfold ent, matmul.
  rewrite (nth_map_in vector vector
             (fun row => map (fun col => dot row col) (transpose B)) A i [] [])
    by exact Hi.
  rewrite (nth_map_in vector R (fun col => dot (nth i A []) col)
             (transpose B) k 0 [])
    by (now rewrite length_transpose).
  now rewrite nth_transpose.
Qed.

Lemma ent_eye (n i j : nat) :
  (i < n)%nat -> (j < n)%nat -> ent (eye n) i j = delta i j.
Proof.
  intros Hi Hj. unfold ent, eye.
  rewrite nth_map_seq by exact Hi. now rewrite nth_map_seq.
Qed.

Lemma ent_matmul_sum (n m p : nat) (A B : matrix) (i k : nat) :
  shape n m A -> shape m p B -> (i < n)%nat -> (k < p)%nat ->
  ent (matmul A B) i k = bigsum m (fun j => ent A i j * ent B j k).
Proof.
  intros HA HB Hi Hk.
  assert (Hrow : length (nth i A []) = m) by (now apply (shape_row n m A i)).
  destruct (Nat.eq_dec m 0) as [->|Hm].
  - unfold ent at 1, matmul.
    rewrite (nth_map_in vector vector
               (fun row => map (fun col => dot row col) (transpose B)) A i [] [])
      by (destruct HA; lia).
    apply length_zero_iff_nil in Hrow. rewrite Hrow.
    destruct HB as [HB _]. apply length_zero_iff_nil in HB. subst B.
    simpl. now destruct k.
  - rewrite ent_matmul.
    + rewrite dot_nth by (rewrite length_column; destruct HB; lia).
      rewrite Hrow. apply bigsum_ext. intros j _.
      now rewrite nth_column.
    + destruct HA; lia.
    + rewrite (shape_ncols m p B HB); lia.
Qed.

Lemma shape_matmul (n m p : nat) (A B : matrix) :
  shape n m A -> shape m p B -> (0 < m)%nat -> shape n p (matmul A B).
Proof.
  intros [HA _] HB Hm. unfold matmul. split.
  - now rewrite length_map.
  - apply Forall_map, Forall_forall. intros row _.
    rewrite length_map, length_transpose. now apply (shape_ncols m p).
Qed.

Lemma matmul_eye_ent (n : nat) (a b : matrix) (i k : nat) :
  shape n n a -> shape n n b -> matmul a b = eye n ->
  (i < n)%nat -> (k < n)%nat ->
  bigsum n (fun j => ent a i j * ent b j k) = delta i k.
Proof.
  intros Ha Hb E Hi Hk.
  rewrite <- (ent_matmul_sum n n n a b i k Ha Hb Hi Hk), E.
  now apply ent_eye.
Qed.

Lemma trace_bigsum (n : nat) (A : matrix) :
  shape n n A -> trace A = bigsum n (fun i => ent A i i).
Proof. intros [<- _]. reflexivity. Qed.

(** ** Step 2: the scaler *)

Lemma mean_nil : mean [] = 0.
Proof. unfold mean, sum, Rdiv; simpl; apply Rmult_0_l. Qed.

Lemma var_nonneg (v : vector) : 0 <= var v.
Proof.
  unfold var, mean at 1. rewrite length_map.
  destruct v as [|x v].
  - unfold sum, Rdiv; simpl; rewrite Rmult_0_l; lra.
  - apply Rmult_le_pos.
    + apply sum_map_nonneg; intros y _; apply Rle_0_sqr.
    + left; apply Rinv_0_lt_compat, lt_0_INR; simpl; lia.
Qed.

Lemma var_neq_0_length (v : vector) : var v <> 0 -> (0 < length v)%nat.
Proof.
  destruct v; [|simpl; lia].
  intros H; exfalso; apply H. unfold var; simpl; apply mean_nil.
Qed.

Lemma handle_zeros_neq_0 (s : R) : handle_zeros_in_scale s <> 0.
Proof.
  unfold handle_zeros_in_scale. destruct (Req_dec_T s 0); [lra|assumption].
Qed.

Lemma handle_zeros_sqrt_0 : handle_zeros_in_scale (sqrt 0) = 1.
Proof.
  rewrite sqrt_0. unfold handle_zeros_in_scale.
  destruct (Req_dec_T 0 0); [reflexivity|lra].
Qed.

Lemma handle_zeros_sqrt_1 : handle_zeros_in_scale (sqrt 1) = 1.
Proof.
  rewrite sqrt_1. unfold handle_zeros_in_scale.
  destruct (Req_dec_T 1 0); [lra|reflexivity].
Qed.

Lemma handle_zeros_sqrt_pos (x : R) :
  0 < x -> handle_zeros_in_scale (sqrt x) = sqrt x.
Proof.
  intros Hx. assert (0 < sqrt x) by (now apply sqrt_lt_R0).
  unfold handle_zeros_in_scale. destruct (Req_dec_T (sqrt x) 0); [lra|reflexivity].
Qed.

Lemma handle_zeros_sqrt_sq (x : R) :
  0 < x -> handle_zeros_in_scale (sqrt x) * handle_zeros_in_scale (sqrt x) = x.
Proof.
  intros Hx. assert (0 < sqrt x) by (now apply sqrt_lt_R0).
  unfold handle_zeros_in_scale.
  destruct (Req_dec_T (sqrt x) 0); [lra|apply sqrt_sqrt; lra].
Qed.

Lemma handle_zeros_pos (s : R) : 0 < s -> handle_zeros_in_scale (sqrt (s * s)) = s.
Proof.
  intros Hs. rewrite sqrt_square by lra.
  unfold handle_zeros_in_scale. destruct (Req_dec_T s 0); [lra|reflexivity].
Qed.

Lemma scale_of_var (v : vector) :
  var v <> 0 ->
  0 < handle_zeros_in_scale (sqrt (var v)) /\
  handle_zeros_in_scale (sqrt (var v)) * handle_zeros_in_scale (sqrt (var v))
    = var v.
Proof.
  intros Hv. pose proof (var_nonneg v) as Hn.
  assert (Hpos : 0 < sqrt (var v)) by (apply sqrt_lt_R0; lra).
  unfold handle_zeros_in_scale.
  destruct (Req_dec_T (sqrt (var v)) 0) as [E|_]; [lra|].
  split; [exact Hpos | apply sqrt_sqrt; lra].
Qed.

Lemma sum_center (v : vector) :
  (0 < length v)%nat -> sum (map (fun x => x - mean v) v) = 0.
Proof.
  intros Hl.
  replace (map (fun x => x - mean v) v)
    with (map (fun x => (fun y => y) x + (fun _ => - mean v) x) v)
    by (apply map_ext; intros; lra).
  rewrite sum_map_add, sum_map_id, sum_map_const.
  unfold mean. field. apply not_0_INR; lia.
Qed.

Lemma length_standardize (v : vector) : length (standardize v) = length v.
Proof. unfold standardize; now rewrite length_map. Qed.

Lemma mean_standardize (v : vector) : mean (standardize v) = 0.
Proof.
  destruct (Nat.eq_dec (length v) 0) as [E|E].
  - apply length_zero_iff_nil in E; subst; apply mean_nil.
  - unfold mean at 1. rewrite length_standardize. unfold standardize.
    replace (map (fun x => (x - mean v) / handle_zeros_in_scale (sqrt (var v))) v)
      with (map (fun x => / handle_zeros_in_scale (sqrt (var v)) * (x - mean v)) v)
      by (apply map_ext; intros; unfold Rdiv; lra).
    rewrite sum_map_scal, sum_center by lia. lra.
Qed.

Lemma sum_sq_standardize (v : vector) :
  var v <> 0 ->
  sum (map (fun z => z * z) (standardize v)) = INR (length v).
Proof.
  intros Hv.
  destruct (scale_of_var v Hv) as [Hs Hss].
  pose proof (var_neq_0_length v Hv) as Hl.
  set (s := handle_zeros_in_scale (sqrt (var v))) in *.
  unfold standardize. fold s. rewrite map_map.
  replace (map (fun x => (x - mean v) / s * ((x - mean v) / s)) v)
    with (map (fun x => / (s * s) * ((x - mean v) * (x - mean v))) v)
    by (apply map_ext; intros; field; lra).
  rewrite sum_map_scal, Hss.
  unfold var at 1, mean at 1. rewrite length_map.
  unfold var, mean at 1 in Hv. rewrite length_map in Hv.
  assert (Hn : INR (length v) <> 0) by (apply not_0_INR; lia).
  set (q := sum (map (fun x => (x - mean v) * (x - mean v)) v)) in *.
  assert (q <> 0) by (intros E; apply Hv; rewrite E; unfold Rdiv; lra).
  field; split; assumption.
Qed.

Lemma var_standardize (v : vector) : var v <> 0 -> var (standardize v) = 1.
Proof.
  intros Hv. pose proof (var_neq_0_length v Hv) as Hl.
  unfold var. rewrite mean_standardize.
  replace (map (fun x => (x - 0) * (x - 0)) (standardize v))
    with (map (fun z => z * z) (standardize v))
    by (apply map_ext; intros; lra).
  unfold mean. rewrite length_map, length_standardize, sum_sq_standardize by exact Hv.
  field. apply not_0_INR; lia.
Qed.

Lemma standardize_center (v : vector) :
  standardize v
  = map (fun x => x / handle_zeros_in_scale (sqrt (var v))) (center v).
Proof. unfold standardize, center. now rewrite map_map. Qed.

Lemma shape_fit_transform (n m : nat) (X : matrix) :
  shape n m X -> shape n m (fit_transform X).
Proof.
  intros [Hn Hm]. unfold fit_transform, transform. split.
  - now rewrite length_map.
  - apply Forall_forall. intros r Hr.
    apply in_map_iff in Hr. destruct Hr as [row [<- Hrow]].
    rewrite length_map, length_seq.
    rewrite Forall_forall in Hm. now apply Hm.
Qed.

Lemma column_fit_transform (n m : nat) (X : matrix) (j : nat) :
  shape n m X -> (j < m)%nat ->
  column j (fit_transform X) = standardize (column j X).
Proof.
  intros H Hj. unfold fit_transform, transform, standardize, column.
  rewrite !map_map. apply map_ext_in. intros row Hrow.
  assert (Hlen : length row = m) by (apply (shape_In n m X row H Hrow)).
  assert (Hn : (0 < n)%nat).
  { destruct H as [<- _]. destruct X; [contradiction|simpl; lia]. }
  assert (Hc : ncols X = m) by (apply (shape_ncols n m X H Hn)).
  rewrite nth_map_seq by lia.
  cbn [mean_ scale_ fit].
  rewrite (nth_map_in _ _ mean (transpose X) j 0 [])
    by (rewrite length_transpose; lia).
  rewrite map_map.
  rewrite (nth_map_in _ _ (fun x => handle_zeros_in_scale (sqrt (var x)))
             (transpose X) j 1 [])
    by (rewrite length_transpose; lia).
  rewrite nth_transpose by lia.
  reflexivity.
Qed.

Lemma shape_X_std (n m : nat) (data : matrix) :
  shape n m data -> shape n m (X_std data).
Proof. apply shape_fit_transform. Qed.

Lemma ent_X_std (n m : nat) (data : matrix) (i j : nat) :
  shape n m data -> (i < n)%nat -> (j < m)%nat ->
  ent (X_std data) i j
  = (ent data i j - mean (column j data))
    / handle_zeros_in_scale (sqrt (var (column j data))).
Proof.
  intros H Hi Hj.
  rewrite <- nth_column. unfold X_std.
  rewrite (column_fit_transform n m data j H Hj). unfold standardize.
  rewrite (nth_map_in _ _
             (fun x => (x - mean (column j data))
                       / handle_zeros_in_scale (sqrt (var (column j data))))
             (column j data) i 0 0)
    by (rewrite length_column; destruct H; lia).
  now rewrite nth_column.
Qed.

(** In exact arithmetic every feature column whose variance in the input is
    not zero has mean zero and population variance one in [X_std]. *)
Lemma standardized_feature_mean_0_var_1 (n m : nat) (data : matrix) (j : nat) :
  shape n m data -> (j < m)%nat -> var (column j data) <> 0 ->
  mean (column j (X_std data)) = 0 /\ var (column j (X_std data)) = 1.
Proof.
  intros H Hj Hv. unfold X_std.
  rewrite (column_fit_transform n m data j H Hj). split.
  - apply mean_standardize.
  - now apply var_standardize.
Qed.

(** ** Step 2 at the precision of the machine *)







Lemma fit_transform_eps_Some (eps : R) (n m : nat) (X : matrix) :
  shape n m X -> (0 < n)%nat -> (0 < m)%nat ->
  fit_transform_eps eps X = Some (transform (fit_eps eps X) X).
Proof.
  intros H Hn Hm. unfold fit_transform_eps.
  rewrite (shape_ncols n m X H Hn). unfold nrows. destruct H as [-> _].
  destruct (Nat.eqb_spec n 0); [lia|]. destruct (Nat.eqb_spec m 0); [lia|].
  reflexivity.
Qed.

Lemma fit_transform_eps_empty (eps : R) (n m : nat) (X : matrix) :
  shape n m X -> (n = 0 \/ m = 0)%nat -> fit_transform_eps eps X = None.
Proof.
  intros H E. unfold fit_transform_eps.
  destruct (Nat.eqb_spec (nrows X) 0) as [_|Hr]; [reflexivity|].
  assert (Hn : (0 < n)%nat) by (destruct H as [<- _]; unfold nrows in Hr; lia).
  rewrite (shape_ncols n m X H Hn).
  destruct (Nat.eqb_spec m 0); [reflexivity|lia].
Qed.



(** With [eps = 0] the scaler is the scaler of exact arithmetic. *)
Lemma fit_eps_exact (X : matrix) : fit_eps 0 X = fit X.
Proof.
  unfold fit_eps, fit. f_equal. rewrite map_map. apply map_ext. intros v.
  unfold scale_eps, is_constant_feature, handle_zeros_in_scale.
  pose proof (var_nonneg v) as Hv.
  destruct (Rle_dec (var v)
              (INR (nrows X) * 0 * var v
               + INR (nrows X) * mean v * 0 * (INR (nrows X) * mean v * 0)))
    as [L|L]; destruct (Req_dec_T (sqrt (var v)) 0) as [E|E]; try reflexivity.
  - exfalso. apply E. replace (var v) with 0 by lra. apply sqrt_0.
  - exfalso. apply L. apply sqrt_eq_0 in E; [lra|exact Hv].
Qed.


Lemma fit_transform_eps_exact (n m : nat) (X : matrix) :
  shape n m X -> (0 < n)%nat -> (0 < m)%nat ->
  fit_transform_eps 0 X = Some (X_std X).
Proof.
  intros H Hn Hm. rewrite (fit_transform_eps_Some 0 n m X H Hn Hm).
  now rewrite fit_eps_exact.
Qed.

(** ** Step 3: the covariance matrix *)

Lemma length_center (v : vector) : length (center v) = length v.
Proof. unfold center. now rewrite length_map. Qed.

Lemma center_mean_0 (v : vector) : mean v = 0 -> center v = v.
Proof.
  intros E. unfold center. rewrite E.
  rewrite <- (map_id v) at 2. apply map_ext. intros; lra.
Qed.

Lemma shape_cov (M : matrix) : shape (length M) (length M) (cov M).
Proof.
  unfold cov. split.
  - now rewrite length_map.
  - apply Forall_forall. intros r Hr.
    apply in_map_iff in Hr. destruct Hr as [u [<- _]].
    now rewrite length_map.
Qed.

Lemma ent_cov (M : matrix) (j k : nat) :
  (j < length M)%nat -> (k < length M)%nat ->
  ent (cov M) j k = covariance (nth j M []) (nth k M []).
Proof.
  intros Hj Hk. unfold ent, cov.
  rewrite (nth_map_in _ _ (fun u => map (fun v => covariance u v) M) M j [] [])
    by exact Hj.
  now rewrite (nth_map_in _ _ (fun v => covariance (nth j M []) v) M k 0 []).
Qed.

Lemma trace_cov (M : matrix) :
  trace (cov M) = sum (map (fun u => covariance u u) M).
Proof.
  rewrite (trace_bigsum (length M) (cov M) (shape_cov M)).
  rewrite (sum_map_nth _ (fun u => covariance u u) M []).
  apply bigsum_ext. intros i Hi. now apply ent_cov.
Qed.

Lemma covariance_comm (u v : vector) :
  length u = length v -> covariance u v = covariance v u.
Proof.
  intros E. unfold covariance. now rewrite dot_comm, E.
Qed.

Lemma covariance_self_nonneg (v : vector) :
  (2 <= length v)%nat -> 0 <= covariance v v.
Proof.
  intros Hl. unfold covariance. rewrite dot_self.
  apply Rmult_le_pos.
  - apply sum_map_nonneg. intros x _. apply Rle_0_sqr.
  - left. apply Rinv_0_lt_compat.
    apply le_INR in Hl. simpl in Hl. lra.
Qed.

Lemma covariance_standardize (u v : vector) :
  covariance (standardize u) (standardize v)
  = covariance u v
    / (handle_zeros_in_scale (sqrt (var u))
       * handle_zeros_in_scale (sqrt (var v))).
Proof.
  unfold covariance.
  rewrite !(center_mean_0 _ (mean_standardize _)).
  rewrite !standardize_center, length_map, length_center.
  rewrite dot_map_div by apply handle_zeros_neq_0.
  unfold Rdiv. ring.
Qed.

Lemma covariance_standardize_self (v : vector) :
  var v <> 0 ->
  covariance (standardize v) (standardize v)
    = INR (length v) / (INR (length v) - 1).
Proof.
  intros Hv. unfold covariance.
  rewrite (center_mean_0 _ (mean_standardize v)).
  now rewrite dot_self, sum_sq_standardize, length_standardize.
Qed.

Lemma shape_Sigma (n m : nat) (data : matrix) :
  shape n m data -> (0 < n)%nat -> shape m m (Sigma data).
Proof.
  intros H Hn. unfold Sigma.
  pose proof (shape_transpose n m _ (shape_X_std n m data H) Hn) as [Hl _].
  rewrite <- Hl at 1 2. apply shape_cov.
Qed.

Lemma nrows_Sigma (n m : nat) (data : matrix) :
  shape n m data -> (0 < n)%nat -> nrows (Sigma data) = m.
Proof. intros H Hn. now destruct (shape_Sigma n m data H Hn). Qed.

Lemma ent_Sigma (n m : nat) (data : matrix) (j k : nat) :
  shape n m data -> (0 < n)%nat -> (j < m)%nat -> (k < m)%nat ->
  ent (Sigma data) j k =
  covariance (standardize (column j data)) (standardize (column k data)).
Proof.
  intros H Hn Hj Hk. unfold Sigma.
  pose proof (shape_X_std n m data H) as HX.
  pose proof (shape_transpose n m _ HX Hn) as [Hl _].
  rewrite ent_cov by lia.
  rewrite !nth_transpose by (rewrite (shape_ncols n m _ HX Hn); lia).
  unfold X_std. now rewrite !(column_fit_transform n m data _ H) by lia.
Qed.

(** The covariance matrix is symmetric. *)
Lemma Sigma_symmetric (n m : nat) (data : matrix) (j k : nat) :
  shape n m data -> (0 < n)%nat -> (j < m)%nat -> (k < m)%nat ->
  ent (Sigma data) j k = ent (Sigma data) k j.
Proof.
  intros H Hn Hj Hk.
  rewrite !(ent_Sigma n m data) by assumption.
  apply covariance_comm.
  now rewrite !length_standardize, !length_column.
Qed.

Lemma diag_Sigma (n m : nat) (data : matrix) (j : nat) :
  shape n m data -> (0 < n)%nat -> (j < m)%nat ->
  var (column j data) <> 0 ->
  ent (Sigma data) j j = INR n / (INR n - 1).
Proof.
  intros H Hn Hj Hv.
  rewrite (ent_Sigma n m data) by assumption.
  rewrite covariance_standardize_self by exact Hv.
  rewrite length_column. now destruct H as [-> _].
Qed.

Lemma diag_Sigma_nonneg (n m : nat) (data : matrix) (j : nat) :
  shape n m data -> (2 <= n)%nat -> (j < m)%nat ->
  0 <= ent (Sigma data) j j.
Proof.
  intros H Hn Hj.
  rewrite (ent_Sigma n m data) by (assumption || lia).
  apply covariance_self_nonneg.
  rewrite length_standardize, length_column. destruct H; lia.
Qed.


Lemma shape_cov_raw (n m : nat) (data : matrix) :
  shape n m data -> (0 < n)%nat -> shape m m (cov (transpose data)).
Proof.
  intros H Hn. pose proof (shape_transpose n m data H Hn) as [Hl _].
  rewrite <- Hl at 1 2. apply shape_cov.
Qed.

Lemma ent_cov_raw (n m : nat) (data : matrix) (j l : nat) :
  shape n m data -> (0 < n)%nat -> (j < m)%nat -> (l < m)%nat ->
  ent (cov (transpose data)) j l
  = covariance (column j data) (column l data).
Proof.
  intros H Hn Hj Hl.
  pose proof (shape_transpose n m data H Hn) as [Hlen _].
  rewrite ent_cov by lia.
  now rewrite !nth_transpose by (rewrite (shape_ncols n m data H Hn); lia).
Qed.

(** With one common variance the standardised covariance matrix is the raw
    one divided by that variance. *)
Lemma ent_Sigma_equal_var (n m : nat) (data : matrix) (s : R) (j l : nat) :
  shape n m data -> (0 < n)%nat -> 0 < s ->
  (forall j, (j < m)%nat -> var (column j data) = s * s) ->
  (j < m)%nat -> (l < m)%nat ->
  ent (Sigma data) j l = ent (cov (transpose data)) j l / (s * s).
Proof.
  intros H Hn Hs Hv Hj Hl.
  rewrite (ent_Sigma n m data j l H Hn Hj Hl), covariance_standardize.
  rewrite (Hv j Hj), (Hv l Hl), (handle_zeros_pos s Hs).
  now rewrite (ent_cov_raw n m data j l H Hn Hj Hl).
Qed.

(** ** Step 4: consequences of the eigen-solver's contract *)

Section EigContract.

Variable n : nat.
Variable A : matrix.
Variable w : vector.
Variable v : matrix.
Hypothesis HA : shape n n A.
Hypothesis HE : eig_contract A w v.

Lemma nrows_A : nrows A = n.
Proof. now destruct HA. Qed.

(** Entry by entry: [A v_k = w_k v_k]. *)
Lemma eig_pair_ent (i k : nat) :
  (i < n)%nat -> (k < n)%nat ->
  bigsum n (fun j => ent A i j * ent v j k) = nth k w 0 * ent v i k.
Proof.
  intros Hi Hk. destruct HE as [_ Hv Hp _ _].
  rewrite nrows_A in Hv, Hp.
  specialize (Hp k Hk).
  apply (f_equal (fun x => nth i x 0)) in Hp.
  rewrite nth_matvec, nth_scal, nth_column in Hp by (destruct HA; lia).
  rewrite <- Hp.
  rewrite dot_nth
    by (rewrite length_column, (shape_row n n A i HA Hi); now destruct Hv).
  rewrite (shape_row n n A i HA Hi).
  apply bigsum_ext. intros j _. now rewrite nth_column.
Qed.

(** Column [k] has unit length. *)
Lemma eig_unit_ent (k : nat) :
  (k < n)%nat ->
  bigsum n (fun j => ent v j k * ent v j k) = 1.
Proof.
  intros Hk. destruct HE as [_ [Hlv _] _ Hu _].
  rewrite nrows_A in Hlv, Hu.
  rewrite <- (Hu k Hk), dot_nth by reflexivity.
  rewrite length_column, Hlv. apply bigsum_ext. intros j _.
  now rewrite nth_column.
Qed.

(** The trace is invariant under the change of basis: the eigenvalues add
    up to the trace. *)
Lemma sum_eigenvalues_trace : sum w = trace A.
Proof.
  destruct HE as [Hw Hv _ _ [u [Hu [Euv Evu]]]].
  rewrite nrows_A in Hw, Hv, Hu, Euv, Evu.
  rewrite (trace_bigsum n A HA), sum_nth, Hw.
  transitivity
    (bigsum n (fun i => bigsum n (fun k =>
       bigsum n (fun j => ent A i j * ent v j k) * ent u k i))).
  - (* sum_k w_k = sum_i sum_k w_k v_ik u_ki *)
    rewrite bigsum_swap. apply bigsum_ext. intros k Hk.
    rewrite (bigsum_ext n _ (fun i => nth k w 0 * (ent u k i * ent v i k))).
    + rewrite bigsum_scal, (matmul_eye_ent n u v k k Hu Hv Euv Hk Hk).
      unfold delta. destruct (Nat.eq_dec k k); [lra|lia].
    + intros i Hi. rewrite (eig_pair_ent i k Hi Hk). lra.
  - (* sum_k (sum_j A_ij v_jk) u_ki = sum_j A_ij (sum_k v_jk u_ki) = A_ii *)
    apply bigsum_ext. intros i Hi.
    rewrite (bigsum_ext n _ (fun k => bigsum n (fun j =>
               ent A i j * (ent v j k * ent u k i)))).
    + rewrite bigsum_swap.
      rewrite (bigsum_ext n _ (fun j => delta i j * ent A i j)).
      * now apply bigsum_delta_l.
      * intros j Hj. rewrite bigsum_scal.
        rewrite (matmul_eye_ent n v u j i Hv Hu Evu Hj Hi), delta_sym. lra.
    + intros k Hk. rewrite <- bigsum_scal_r.
      apply bigsum_ext. intros j _. lra.
Qed.

(** A simple eigenvalue has one unit eigenvector, up to sign. *)
Lemma eigvec_unique_up_to_sign (c : nat -> R) (k : nat) :
  (k < n)%nat ->
  (forall j, (j < n)%nat ->
     bigsum n (fun l => ent A j l * c l) = nth k w 0 * c j) ->
  bigsum n (fun j => c j * c j) = 1 ->
  (forall j, (j < n)%nat -> j <> k -> nth j w 0 <> nth k w 0) ->
  exists sign, (sign = 1 \/ sign = -1) /\
    forall j, (j < n)%nat -> c j = sign * ent v j k.
Proof.
  intros Hk Hc Hnorm Hsimple.
  destruct HE as [_ Hv _ _ [u [Hu [Euv Evu]]]].
  rewrite nrows_A in Hv, Hu, Euv, Evu.
  set (a := fun j => bigsum n (fun l => ent u j l * c l)).
  (* c in the basis of the eigenvectors *)
  assert (Hexp : forall i, (i < n)%nat ->
            c i = bigsum n (fun j => ent v i j * a j)).
  { intros i Hi. unfold a.
    rewrite (bigsum_ext n _ (fun j => bigsum n (fun l =>
               ent v i j * ent u j l * c l))).
    - rewrite bigsum_swap.
      rewrite (bigsum_ext n _ (fun l => delta i l * c l)).
      + now rewrite bigsum_delta_l.
      + intros l Hl. rewrite bigsum_scal_r.
        now rewrite (matmul_eye_ent n v u i l Hv Hu Evu Hi Hl).
    - intros j _. rewrite <- bigsum_scal. apply bigsum_ext. intros l _. ring. }
  (* each coordinate is scaled by its own eigenvalue *)
  assert (Hco : forall j, (j < n)%nat -> nth j w 0 * a j = nth k w 0 * a j).
  { intros j Hj. symmetry. unfold a at 1. rewrite <- bigsum_scal.
    rewrite (bigsum_ext n _ (fun l => bigsum n (fun p =>
               ent u j l * ent v l p * (nth p w 0 * a p)))).
    - rewrite bigsum_swap.
      rewrite (bigsum_ext n _ (fun p => delta j p * (nth p w 0 * a p))).
      + now rewrite bigsum_delta_l.
      + intros p Hp. rewrite bigsum_scal_r.
        now rewrite (matmul_eye_ent n u v j p Hu Hv Euv Hj Hp).
    - intros l Hl.
      replace (nth k w 0 * (ent u j l * c l))
        with (ent u j l * (nth k w 0 * c l)) by ring.
      rewrite <- (Hc l Hl), <- bigsum_scal. 
      rewrite (bigsum_ext n _ (fun i => bigsum n (fun p =>
                 ent u j l * (ent A l i * ent v i p * a p)))).
      + rewrite bigsum_swap. apply bigsum_ext. intros p Hp.
        replace (ent u j l * ent v l p * (nth p w 0 * a p))
          with (ent u j l * ((nth p w 0 * ent v l p) * a p)) by ring.
        rewrite <- (eig_pair_ent l p Hl Hp).
        rewrite <- bigsum_scal_r, <- bigsum_scal. reflexivity.
      + intros i Hi. rewrite (Hexp i Hi), <- !bigsum_scal.
        apply bigsum_ext. intros p _. ring. }
  assert (Hzero : forall j, (j < n)%nat -> j <> k -> a j = 0).
  { intros j Hj Hne. specialize (Hco j Hj).
    assert (E : (nth j w 0 - nth k w 0) * a j = 0) by (rewrite Rmult_minus_distr_r, Hco; ring).
    apply Rmult_integral in E. destruct E as [E|E]; [|exact E].
    exfalso. apply (Hsimple j Hj Hne). lra. }
  assert (Hck : forall i, (i < n)%nat -> c i = a k * ent v i k).
  { intros i Hi. rewrite (Hexp i Hi).
    rewrite (bigsum_ext n _ (fun j => delta k j * (ent v i j * a j))).
    - rewrite bigsum_delta_l by exact Hk. ring.
    - intros j Hj. unfold delta. destruct (Nat.eq_dec k j) as [->|Hne]; [ring|].
      rewrite (Hzero j Hj) by lia. ring. }
  assert (Hsq : a k * a k = 1).
  { rewrite <- Hnorm.
    rewrite (bigsum_ext n _ (fun j => (a k * a k) * (ent v j k * ent v j k))).
    - rewrite bigsum_scal, (eig_unit_ent k Hk). ring.
    - intros j Hj. rewrite (Hck j Hj). ring. }
  exists (a k). split; [|exact Hck].
  assert (E : (a k - 1) * (a k + 1) = 0) by (ring_simplify; lra).
  apply Rmult_integral in E. destruct E; [left|right]; lra.
Qed.

End EigContract.

(** ** Step 4 on the covariance matrix *)

(** A covariance matrix is positive semi-definite: the eigenvalues the
    solver returns for it are not negative. *)
Lemma eigenvalue_nonneg (n m : nat) (data : matrix) (w : vector) (v : matrix)
    (k : nat) :
  shape n m data -> (2 <= n)%nat -> eig_contract (Sigma data) w v ->
  (k < m)%nat -> 0 <= nth k w 0.
Proof.
  intros H Hn HE Hk.
  assert (HS : shape m m (Sigma data)) by (apply (shape_Sigma n m); [exact H|lia]).
  pose proof HE as [_ Hv _ Hu _].
  rewrite (nrows_Sigma n m data H) in Hv, Hu by lia.
  specialize (Hu k Hk).
  rewrite dot_nth in Hu by reflexivity.
  rewrite length_column in Hu. destruct Hv as [Hlv Hv]. rewrite Hlv in Hu.
  set (V := fun j => ent v j k).
  set (C := fun i j => nth i (center (standardize (column j data))) 0).
  assert (Hunit : bigsum m (fun j => V j * V j) = 1).
  { rewrite <- Hu. apply bigsum_ext. intros j _. now rewrite nth_column. }
  assert (Hent : forall j l, (j < m)%nat -> (l < m)%nat ->
            ent (Sigma data) j l = bigsum n (fun i => C i j * C i l) / (INR n - 1)).
  { intros j l Hj Hl. rewrite (ent_Sigma n m data) by (assumption || lia).
    unfold covariance.
    rewrite dot_nth
      by (now rewrite !length_center, !length_standardize, !length_column).
    rewrite length_center, !length_standardize, !length_column.
    destruct H as [-> _]. reflexivity. }
  assert (Hquad : nth k w 0
            = bigsum n (fun i => bigsum m (fun j => C i j * V j)
                                 * bigsum m (fun j => C i j * V j))
              / (INR n - 1)).
  { rewrite <- gram_quadratic_form.
    transitivity (nth k w 0 * bigsum m (fun j => V j * V j)); [rewrite Hunit; lra|].
    rewrite <- bigsum_scal. unfold Rdiv. rewrite <- bigsum_scal_r.
    apply bigsum_ext. intros j Hj.
    rewrite <- (Rmult_assoc (nth k w 0)), (Rmult_comm (nth k w 0)), Rmult_assoc.
    unfold V at 2.
    rewrite <- (eig_pair_ent m (Sigma data) w v HS HE j k Hj Hk).
    rewrite Rmult_assoc. f_equal. rewrite <- bigsum_scal_r.
    apply bigsum_ext. intros l Hl. rewrite (Hent j l Hj Hl).
    unfold V, Rdiv. lra. }
  rewrite Hquad. apply Rmult_le_pos.
  - apply bigsum_nonneg. intros i _. apply Rle_0_sqr.
  - left. apply Rinv_0_lt_compat. apply le_INR in Hn. simpl in Hn. lra.
Qed.

Lemma evals_nonneg (eig : matrix -> vector * matrix) (n m : nat) (data : matrix) :
  shape n m data -> (2 <= n)%nat ->
  eig_contract (Sigma data) (evals eig data) (evecs eig data) ->
  Forall (fun x => 0 <= x) (evals eig data).
Proof.
  intros H Hn HE. apply Forall_nth. intros i d Hi.
  rewrite (nth_indep _ d 0) by exact Hi.
  apply (eigenvalue_nonneg n m data _ (evecs eig data)); try assumption.
  destruct HE as [Hw _ _ _ _].
  rewrite Hw, (nrows_Sigma n m data H) in Hi by lia. exact Hi.
Qed.

Lemma total_positive (eig : matrix -> vector * matrix) (n m : nat) (data : matrix) :
  shape n m data -> (2 <= n)%nat ->
  (exists j, (j < m)%nat /\ var (column j data) <> 0) ->
  eig_contract (Sigma data) (evals eig data) (evecs eig data) ->
  0 < total eig data.
Proof.
  intros H Hn [j [Hj Hv]] HE.
  assert (HS : shape m m (Sigma data)) by (apply (shape_Sigma n m); [exact H|lia]).
  unfold total.
  rewrite (sum_eigenvalues_trace m (Sigma data) _ (evecs eig data) HS HE).
  rewrite (trace_bigsum m (Sigma data) HS).
  apply Rlt_le_trans with (ent (Sigma data) j j).
  - rewrite (diag_Sigma n m data j) by (assumption || lia).
    apply le_INR in Hn. simpl in Hn.
    apply Rmult_lt_0_compat; [lra|]. apply Rinv_0_lt_compat. lra.
  - apply (bigsum_ge_term m j (fun i => ent (Sigma data) i i)); [|exact Hj].
    intros i Hi. now apply (diag_Sigma_nonneg n m).
Qed.

(** The covariance matrix is symmetric, so eigenvectors of different
    eigenvalues are orthogonal. *)
Lemma eigvecs_orthogonal (n m : nat) (data : matrix) (w : vector) (v : matrix)
    (i k : nat) :
  shape n m data -> (0 < n)%nat -> eig_contract (Sigma data) w v ->
  (i < m)%nat -> (k < m)%nat -> nth i w 0 <> nth k w 0 ->
  dot (column i v) (column k v) = 0.
Proof.
  intros H Hn HE Hi Hk Hne.
  assert (HS : shape m m (Sigma data)) by (now apply (shape_Sigma n m)).
  pose proof HE as [_ [Hlv _] _ _ _].
  rewrite (nrows_Sigma n m data H Hn) in Hlv.
  rewrite dot_nth by (now rewrite !length_column).
  rewrite length_column, Hlv.
  set (d := bigsum m (fun j => nth j (column i v) 0 * nth j (column k v) 0)).
  assert (E1 : nth i w 0 * d
     = bigsum m (fun j => bigsum m (fun l =>
         ent (Sigma data) j l * ent v l i * ent v j k))).
  { unfold d. rewrite <- bigsum_scal. apply bigsum_ext. intros j Hj.
    rewrite !nth_column, <- Rmult_assoc.
    rewrite <- (eig_pair_ent m (Sigma data) w v HS HE j i Hj Hi).
    now rewrite <- bigsum_scal_r. }
  assert (E2 : nth k w 0 * d
     = bigsum m (fun j => bigsum m (fun l =>
         ent (Sigma data) j l * ent v l i * ent v j k))).
  { unfold d. rewrite bigsum_swap. rewrite <- bigsum_scal.
    apply bigsum_ext. intros l Hl.
    rewrite !nth_column.
    replace (nth k w 0 * (ent v l i * ent v l k))
      with (ent v l i * (nth k w 0 * ent v l k)) by ring.
    rewrite <- (eig_pair_ent m (Sigma data) w v HS HE l k Hl Hk).
    rewrite <- bigsum_scal. apply bigsum_ext. intros j Hj.
    rewrite (Sigma_symmetric n m data j l H Hn Hj Hl). ring. }
  assert (E : (nth i w 0 - nth k w 0) * d = 0) by (rewrite Rmult_minus_distr_r, E1, E2; ring).
  apply Rmult_integral in E. destruct E as [E|E]; [lra|exact E].
Qed.

(** C6. The eigenvalues returned for the covariance matrix of the
    standardised data add up to its trace, which is the sum over the
    features of the variance [np.cov] computes for each. *)
Theorem eigenvalues_sum_to_total_variance
    (eig : matrix -> vector * matrix) (n m : nat) (data : matrix) :
  shape n m data -> (2 <= n)%nat ->
  eig_contract (Sigma data) (evals eig data) (evecs eig data) ->
  total eig data = trace (Sigma data) /\
  trace (Sigma data)
    = sum (map (fun feature => covariance feature feature)
               (transpose (X_std data))).
Proof.
  intros H Hn HE. split.
  - unfold total.
    apply (sum_eigenvalues_trace m (Sigma data) _ (evecs eig data));
      [apply (shape_Sigma n m); [exact H|lia] | exact HE].
  - unfold Sigma. apply trace_cov.
Qed.


(** ** Step 5: sorting, reversal, cumulative sums *)

Lemma insert_perm (x : R) (l : vector) : Permutation (insert x l) (x :: l).
Proof.
  induction l as [|y l IH]; simpl.
  - apply Permutation_refl.
  - destruct (Rle_dec x y).
    + apply Permutation_refl.
    + eapply perm_trans; [apply perm_skip, IH | apply perm_swap].
Qed.

Lemma sort_perm (v : vector) : Permutation (sort v) v.
Proof.
  induction v as [|x v IH]; simpl.
  - apply perm_nil.
  - eapply perm_trans; [apply insert_perm | now apply perm_skip].
Qed.

Lemma insert_sorted (x : R) (l : vector) :
  StronglySorted Rle l -> StronglySorted Rle (insert x l).
Proof.
  induction 1 as [|y l Hs IH Hall]; simpl.
  - repeat constructor.
  - destruct (Rle_dec x y) as [Hxy|Hxy].
    + constructor; [now constructor|].
      constructor; [exact Hxy|].
      eapply Forall_impl; [|exact Hall]. intros z Hz. simpl in Hz. lra.
    + constructor; [exact IH|].
      apply (Permutation_Forall (Permutation_sym (insert_perm x l))).
      constructor; [lra|exact Hall].
Qed.

Lemma sort_sorted (v : vector) : StronglySorted Rle (sort v).
Proof.
  induction v as [|x v IH]; simpl.
  - constructor.
  - now apply insert_sorted.
Qed.

Lemma StronglySorted_app (A : Type) (P : A -> A -> Prop) (l1 l2 : list A) :
  StronglySorted P l1 -> StronglySorted P l2 ->
  (forall a b, In a l1 -> In b l2 -> P a b) ->
  StronglySorted P (l1 ++ l2).
Proof.
  induction 1 as [|a l1 Hs IH Hall]; intros H2 Hc; simpl.
  - exact H2.
  - constructor.
    + apply IH; [exact H2|]. intros; apply Hc; [now right|assumption].
    + apply Forall_app. split; [exact Hall|].
      apply Forall_forall. intros b Hb. apply Hc; [now left|exact Hb].
Qed.

Lemma StronglySorted_rev (v : vector) :
  StronglySorted Rle v -> StronglySorted Rge (rev v).
Proof.
  induction 1 as [|a l Hs IH Hall]; simpl.
  - constructor.
  - apply StronglySorted_app.
    + exact IH.
    + repeat constructor.
    + intros x y Hx [<-|[]]. apply in_rev in Hx.
      rewrite Forall_forall in Hall. apply Rle_ge. now apply Hall.
Qed.

Lemma StronglySorted_map (P Q : R -> R -> Prop) (f : R -> R) (v : vector) :
  (forall a b, P a b -> Q (f a) (f b)) ->
  StronglySorted P v -> StronglySorted Q (map f v).
Proof.
  intros Hf. induction 1 as [|a l Hs IH Hall]; simpl.
  - constructor.
  - constructor; [exact IH|].
    apply Forall_map. eapply Forall_impl; [|exact Hall].
    intros b Hb. now apply Hf.
Qed.

Lemma StronglySorted_nth (P : R -> R -> Prop) (v : vector) (i j : nat) :
  StronglySorted P v -> (i < j)%nat -> (j < length v)%nat ->
  P (nth i v 0) (nth j v 0).
Proof.
  intros H. revert i j. induction H as [|a l Hs IH Hall]; intros i j Hij Hj.
  - simpl in Hj; lia.
  - destruct j as [|j]; [lia|]. simpl in Hj.
    destruct i as [|i]; simpl.
    + rewrite Forall_forall in Hall. apply Hall, nth_In. lia.
    + apply IH; lia.
Qed.

Lemma Rge_sorted_non_increasing (v : vector) :
  StronglySorted Rge v -> non_increasing v.
Proof.
  intros H i j Hij Hj.
  destruct (Nat.eq_dec i j) as [->|Hne]; [lra|].
  apply Rge_le. apply StronglySorted_nth; [exact H|lia|exact Hj].
Qed.

Lemma Rle_sorted_non_decreasing (v : vector) :
  StronglySorted Rle v -> non_decreasing v.
Proof.
  intros H i j Hij Hj.
  destruct (Nat.eq_dec i j) as [->|Hne]; [lra|].
  apply StronglySorted_nth; [exact H|lia|exact Hj].
Qed.

Lemma rev_sort_perm (v : vector) : Permutation (rev (sort v)) v.
Proof.
  eapply perm_trans; [apply Permutation_sym, Permutation_rev | apply sort_perm].
Qed.

Lemma cumsum_from_bounds (acc : R) (v : vector) :
  Forall (fun x => 0 <= x) v ->
  Forall (fun y => acc <= y) (cumsum_from acc v).
Proof.
  intros H. revert acc. induction H as [|x v Hx _ IH]; intros acc; simpl.
  - constructor.
  - constructor; [lra|].
    eapply Forall_impl; [|apply IH]. intros y Hy. simpl in Hy. lra.
Qed.

Lemma cumsum_from_sorted (acc : R) (v : vector) :
  Forall (fun x => 0 <= x) v -> StronglySorted Rle (cumsum_from acc v).
Proof.
  intros H. revert acc. induction H as [|x v Hx Hv IH]; intros acc; simpl.
  - constructor.
  - constructor; [apply IH|]. now apply cumsum_from_bounds.
Qed.

Lemma last_cumsum_from (acc : R) (v : vector) :
  last (acc :: cumsum_from acc v) 0 = acc + sum v.
Proof.
  revert acc. induction v as [|x v IH]; intros acc.
  - unfold sum; simpl; lra.
  - change (cumsum_from acc (x :: v))
      with ((acc + x) :: cumsum_from (acc + x) v).
    change (last (acc :: (acc + x) :: cumsum_from (acc + x) v) 0)
      with (last ((acc + x) :: cumsum_from (acc + x) v) 0).
    rewrite IH, sum_cons. lra.
Qed.

Lemma variance_explained_of_nonneg (w : vector) :
  Forall (fun x => 0 <= x) w -> 0 < sum w ->
  let ve := map (fun x => 100 * x / sum w) (rev (sort w)) in
  non_increasing ve /\ Forall (fun x => 0 <= x) ve /\ sum ve = 100 /\
  non_decreasing (0 :: cumsum ve) /\ last (0 :: cumsum ve) 0 = 100.
Proof.
  intros Hw Ht ve.
  assert (Hinv : 0 < / sum w) by (now apply Rinv_0_lt_compat).
  assert (Hpos : Forall (fun x => 0 <= x) ve).
  { unfold ve. apply Forall_map.
    apply (Permutation_Forall (Permutation_sym (rev_sort_perm w))).
    eapply Forall_impl; [|exact Hw]. intros x Hx. simpl in Hx.
    unfold Rdiv. apply Rmult_le_pos; [lra|lra]. }
  assert (Hsum : sum ve = 100).
  { unfold ve.
    rewrite (sum_map_ext_in _ _ (fun x => (100 / sum w) * (fun y => y) x))
      by (intros; unfold Rdiv; lra).
    rewrite sum_map_scal, sum_map_id, (sum_perm _ _ (rev_sort_perm w)).
    field. lra. }
  split; [|split; [exact Hpos|split; [exact Hsum|split]]].
  - apply Rge_sorted_non_increasing. unfold ve.
    apply (StronglySorted_map Rge Rge).
    + intros a b Hab. unfold Rdiv. apply Rle_ge.
      apply Rmult_le_compat_r; [lra|]. lra.
    + apply StronglySorted_rev, sort_sorted.
  - apply Rle_sorted_non_decreasing. unfold cumsum. constructor.
    + now apply cumsum_from_sorted.
    + now apply cumsum_from_bounds.
  - unfold cumsum. rewrite last_cumsum_from. lra.
Qed.

(** C4. The fractions of variance explained are the eigenvalues in
    descending order, each divided by their sum, as percentages; the
    sequence does not increase, has no negative entry and adds up to 100;
    the cumulative curve starts at 0, does not decrease and ends at 100. *)
Theorem variance_explained_properties
    (eig : matrix -> vector * matrix) (n m : nat) (data : matrix) :
  shape n m data -> (2 <= n)%nat ->
  (exists j, (j < m)%nat /\ var (column j data) <> 0) ->
  eig_contract (Sigma data) (evals eig data) (evecs eig data) ->
  (exists d, Permutation d (evals eig data) /\ non_increasing d /\
     variance_explained eig data
       = map (fun x => 100 * x / sum (evals eig data)) d) /\
  non_increasing (variance_explained eig data) /\
  Forall (fun x => 0 <= x) (variance_explained eig data) /\
  sum (variance_explained eig data) = 100 /\
  hd 1 (cumulative_explained eig data) = 0 /\
  non_decreasing (cumulative_explained eig data) /\
  last (cumulative_explained eig data) 0 = 100.
Proof.
  intros H Hn Hj HE.
  pose proof (evals_nonneg eig n m data H Hn HE) as Hw.
  pose proof (total_positive eig n m data H Hn Hj HE) as Ht.
  destruct (variance_explained_of_nonneg (evals eig data) Hw Ht)
    as [H1 [H2 [H3 [H4 H5]]]].
  split.
  - exists (rev (sort (evals eig data))). split; [apply rev_sort_perm|].
    split; [|reflexivity].
    apply Rge_sorted_non_increasing, StronglySorted_rev, sort_sorted.
  - unfold cumulative_explained, variance_explained, total. cbn [hd].
    repeat split; assumption.
Qed.

(** ** Steps 6 and 7: selection and projection *)

(** When the eigenvalues come back in descending order the first K
    columns are the top K. *)
Lemma non_increasing_selects_top (K : nat) (w : vector) :
  non_increasing w -> selects_top K w.
Proof.
  intros H i j Hi Hj Hl. apply H; lia.
Qed.

Lemma column_W (eig : matrix -> vector * matrix) (data : matrix) (k : nat) :
  (k < 2)%nat -> column k (W eig data) = column k (evecs eig data).
Proof.
  intros Hk. unfold W, column. rewrite map_map. apply map_ext. intros row.
  rewrite nth_firstn. destruct (Nat.ltb_spec k 2); [reflexivity|lia].
Qed.

Lemma shape_W (eig : matrix -> vector * matrix) (m : nat) (data : matrix) :
  (2 <= m)%nat -> shape m m (evecs eig data) -> shape m 2 (W eig data).
Proof.
  intros Hm [Hl Hr]. unfold W. split.
  - now rewrite length_map.
  - apply Forall_map. eapply Forall_impl; [|exact Hr].
    intros row Hrow. simpl in Hrow. rewrite length_firstn. lia.
Qed.

Lemma ent_Y (eig : matrix -> vector * matrix) (n m : nat) (data : matrix)
    (i k : nat) :
  shape n m data -> (2 <= m)%nat -> shape m m (evecs eig data) ->
  (i < n)%nat -> (k < 2)%nat ->
  ent (Y eig data) i k
  = bigsum m (fun j => ent (X_std data) i j * ent (evecs eig data) j k).
Proof.
  intros H Hm HV Hi Hk. unfold Y.
  rewrite (ent_matmul_sum n m 2 _ _ i k (shape_X_std n m data H)
             (shape_W eig m data Hm HV) Hi Hk).
  apply bigsum_ext. intros j _. f_equal.
  now rewrite <- !nth_column, column_W.
Qed.

(** C7. [Y = X_std @ W] is the product of the N x D standardised data with
    the D x 2 matrix of the selected eigenvectors: an N x 2 array whose
    entry (i, k) is the dot product of observation i with the k-th selected
    eigenvector, the k-th column of [evecs]. *)
Theorem projection_is_matrix_product
    (eig : matrix -> vector * matrix) (n m : nat) (data : matrix) :
  shape n m data -> (2 <= m)%nat -> shape m m (evecs eig data) ->
  shape n m (X_std data) /\ shape m 2 (W eig data) /\
  shape n 2 (Y eig data) /\
  forall i k, (i < n)%nat -> (k < 2)%nat ->
    column k (W eig data) = column k (evecs eig data) /\
    ent (Y eig data) i k
      = dot (nth i (X_std data) []) (column k (W eig data)) /\
    ent (Y eig data) i k
      = bigsum m (fun j => ent (X_std data) i j * ent (evecs eig data) j k).
Proof.
  intros H Hm HV.
  pose proof (shape_X_std n m data H) as HX.
  pose proof (shape_W eig m data Hm HV) as HW.
  split; [exact HX|]. split; [exact HW|].
  split; [apply (shape_matmul n m 2); [exact HX|exact HW|lia]|].
  intros i k Hi Hk. split; [now apply column_W|]. split.
  - unfold Y. apply ent_matmul.
    + destruct HX; lia.
    + rewrite (shape_ncols m 2 _ HW); lia.
  - unfold Y. rewrite (ent_matmul_sum n m 2 _ _ i k HX HW Hi Hk).
    apply bigsum_ext. intros j _. f_equal.
    now rewrite <- !nth_column, column_W.
Qed.

(** ** Step 8: hand-rolled against library PCA *)

Lemma ent_transform (p : PCA.t) (X : matrix) (i k : nat) :
  PCA.whiten p = true -> (i < length X)%nat -> (k < PCA.n_components p)%nat ->
  ent (PCA.transform p X) i k
  = dot (vsub (nth i X []) (PCA.mean_ p)) (nth k (PCA.components_ p) [])
    / sqrt (nth k (PCA.explained_variance_ p) 0).
Proof.
  intros Hw Hi Hk. unfold ent, PCA.transform.
  rewrite (nth_map_in _ _
             (fun row => map (PCA.coordinate p row) (seq 0 (PCA.n_components p)))
             X i [] []) by exact Hi.
  rewrite nth_map_seq by exact Hk. unfold PCA.coordinate. now rewrite Hw.
Qed.

(** The library's k-th axis, an eigenvector of the raw covariance matrix. *)
Lemma pca_pair_ent (p : PCA.t) (n m : nat) (data : matrix) (k j : nat) :
  shape n m data -> (0 < n)%nat -> PCA.fitted 3 true data p ->
  (k < 3)%nat -> (j < m)%nat ->
  bigsum m (fun l => ent (cov (transpose data)) j l
                     * nth l (nth k (PCA.components_ p) []) 0)
  = nth k (PCA.explained_variance_ p) 0 * nth j (nth k (PCA.components_ p) []) 0.
Proof.
  intros H Hn HP Hk Hj.
  pose proof (shape_cov_raw n m data H Hn) as HS.
  pose proof HP as [_ _ _ Hsh _ Hp _ _ _].
  rewrite (shape_ncols n m data H Hn) in Hsh.
  specialize (Hp k Hk).
  apply (f_equal (fun x => nth j x 0)) in Hp.
  rewrite nth_matvec, nth_scal in Hp by (destruct HS; lia).
  rewrite <- Hp.
  rewrite dot_nth
    by (now rewrite (shape_row m m _ j HS Hj), (shape_row 3 m _ k Hsh Hk)).
  rewrite (shape_row m m _ j HS Hj). reflexivity.
Qed.

Lemma pca_unit_ent (p : PCA.t) (n m : nat) (data : matrix) (k : nat) :
  shape n m data -> (0 < n)%nat -> PCA.fitted 3 true data p -> (k < 3)%nat ->
  bigsum m (fun j => nth j (nth k (PCA.components_ p) []) 0
                     * nth j (nth k (PCA.components_ p) []) 0) = 1.
Proof.
  intros H Hn HP Hk.
  pose proof HP as [_ _ _ Hsh _ _ Hu _ _].
  rewrite (shape_ncols n m data H Hn) in Hsh.
  rewrite <- (Hu k Hk), dot_nth by reflexivity.
  now rewrite (shape_row 3 m _ k Hsh Hk).
Qed.

Lemma ent_X_pca (pca_fit : matrix -> PCA.t) (n m : nat) (data : matrix)
    (i k : nat) :
  shape n m data -> PCA.fitted 3 true data (pca pca_fit data) ->
  (i < n)%nat -> (k < 3)%nat ->
  ent (X_pca pca_fit data) i k
  = bigsum m (fun j => (ent data i j - mean (column j data))
                       * nth j (nth k (PCA.components_ (pca pca_fit data)) []) 0)
    / sqrt (nth k (PCA.explained_variance_ (pca pca_fit data)) 0).
Proof.
  intros H HP Hi Hk.
  assert (Hn : (0 < n)%nat) by lia.
  pose proof HP as [Hnc Hw Hmean Hsh _ _ _ _ _].
  rewrite (shape_ncols n m data H Hn) in Hsh.
  unfold X_pca.
  rewrite ent_transform; [|exact Hw|destruct H; lia|rewrite Hnc; exact Hk].
  f_equal.
  assert (Hlm : length (PCA.mean_ (pca pca_fit data)) = m).
  { rewrite Hmean, length_map, length_transpose.
    apply (shape_ncols n m data H Hn). }
  assert (Hlr : length (nth i data []) = m) by (apply (shape_row n m data i H Hi)).
  rewrite dot_nth
    by (rewrite length_vsub by lia; now rewrite (shape_row 3 m _ k Hsh Hk)).
  rewrite length_vsub, Hlr by lia.
  apply bigsum_ext. intros j Hj. f_equal.
  rewrite nth_vsub by lia. unfold ent. f_equal.
  rewrite Hmean.
  rewrite (nth_map_in _ _ mean (transpose data) j 0 [])
    by (rewrite length_transpose, (shape_ncols n m data H Hn); exact Hj).
  now rewrite nth_transpose by (rewrite (shape_ncols n m data H Hn); exact Hj).
Qed.

(** With one common variance s * s, a library axis whose eigenvalue is
    s * s times a simple eigenvalue returned by [eig] is the eigenvector
    returned by [eig], up to sign, and so is the coordinate, up to the
    factor s / sqrt(explained_variance_[k]). *)
Lemma library_coordinate_for_equal_variances
    (eig : matrix -> vector * matrix) (pca_fit : matrix -> PCA.t)
    (n m : nat) (data : matrix) (s : R) (k : nat) :
  shape n m data -> (2 <= n)%nat -> (3 <= m)%nat -> 0 < s ->
  (forall j, (j < m)%nat -> var (column j data) = s * s) ->
  eig_contract (Sigma data) (evals eig data) (evecs eig data) ->
  PCA.fitted 3 true data (pca pca_fit data) ->
  (k < 2)%nat ->
  nth k (PCA.explained_variance_ (pca pca_fit data)) 0
    = s * s * nth k (evals eig data) 0 ->
  (forall j, (j < m)%nat -> j <> k ->
     nth j (evals eig data) 0 <> nth k (evals eig data) 0) ->
  exists sign, (sign = 1 \/ sign = -1) /\
    forall i, (i < n)%nat ->
      ent (X_pca pca_fit data) i k
      = sign * (s / sqrt (nth k (PCA.explained_variance_ (pca pca_fit data)) 0))
        * ent (Y eig data) i k.
Proof.
  intros H Hn Hm Hs Hv HE HP Hk Hmatch Hsimple.
  assert (Hn0 : (0 < n)%nat) by lia.
  assert (HS : shape m m (Sigma data)) by (now apply (shape_Sigma n m)).
  set (p := pca pca_fit data) in *.
  set (c := fun j => nth j (nth k (PCA.components_ p) []) 0).
  destruct (eigvec_unique_up_to_sign m (Sigma data) (evals eig data)
              (evecs eig data) HS HE c k) as [sign [Hsign Hc]].
  - lia.
  - intros j Hj.
    rewrite (bigsum_ext m _ (fun l =>
               / (s * s) * (ent (cov (transpose data)) j l * c l))).
    + rewrite bigsum_scal. unfold c.
      rewrite (pca_pair_ent p n m data k j H Hn0 HP) by lia.
      fold p in Hmatch. rewrite Hmatch. field. lra.
    + intros l Hl.
      rewrite (ent_Sigma_equal_var n m data s j l H Hn0 Hs Hv Hj Hl).
      unfold Rdiv. ring.
  - unfold c. apply (pca_unit_ent p n m data k H Hn0 HP). lia.
  - exact Hsimple.
  - exists sign. split; [exact Hsign|]. intros i Hi.
    rewrite (ent_X_pca pca_fit n m data i k H HP Hi) by lia.
    assert (HV : shape m m (evecs eig data)).
    { destruct HE as [_ Hsh _ _ _].
      now rewrite (nrows_Sigma n m data H Hn0) in Hsh. }
    rewrite (ent_Y eig n m data i k H) by (assumption || lia).
    fold p. unfold Rdiv.
    rewrite (bigsum_ext m _ (fun j =>
               (sign * s) * (ent (X_std data) i j * ent (evecs eig data) j k))).
    + rewrite bigsum_scal. ring.
    + intros j Hj. fold (c j). rewrite (Hc j Hj).
      rewrite (ent_X_std n m data i j H Hi Hj), (Hv j Hj), (handle_zeros_pos s Hs).
      field. lra.
Qed.

(** C9, as amended. When every feature has the same non-zero variance
    s * s, and the k-th library eigenvalue (k = 0, 1) is positive and is
    s * s times the k-th eigenvalue returned by [eig], a simple one, the
    k-th whitened library coordinate of every observation is the
    hand-rolled one up to a sign and a positive rescaling, the factor
    s / sqrt(explained_variance_[k]). *)
Theorem library_pca_agrees_for_equal_variances
    (eig : matrix -> vector * matrix) (pca_fit : matrix -> PCA.t)
    (n m : nat) (data : matrix) (s : R) (k : nat) :
  shape n m data -> (2 <= n)%nat -> (3 <= m)%nat -> 0 < s ->
  (forall j, (j < m)%nat -> var (column j data) = s * s) ->
  eig_contract (Sigma data) (evals eig data) (evecs eig data) ->
  PCA.fitted 3 true data (pca pca_fit data) ->
  (k < 2)%nat ->
  0 < nth k (PCA.explained_variance_ (pca pca_fit data)) 0 ->
  nth k (PCA.explained_variance_ (pca pca_fit data)) 0
    = s * s * nth k (evals eig data) 0 ->
  (forall j, (j < m)%nat -> j <> k ->
     nth j (evals eig data) 0 <> nth k (evals eig data) 0) ->
  agree_up_to_sign_and_scale n k (X_pca pca_fit data) (Y eig data) /\
  exists sign, (sign = 1 \/ sign = -1) /\
    forall i, (i < n)%nat ->
      ent (X_pca pca_fit data) i k
      = sign * (s / sqrt (nth k (PCA.explained_variance_ (pca pca_fit data)) 0))
        * ent (Y eig data) i k.
Proof.
  intros H Hn Hm Hs Hv HE HP Hk Hpos Hmatch Hsimple.
  destruct (library_coordinate_for_equal_variances eig pca_fit n m data s k
              H Hn Hm Hs Hv HE HP Hk Hmatch Hsimple) as [sign [Hsign Hall]].
  split.
  - exists sign, (s / sqrt (nth k (PCA.explained_variance_ (pca pca_fit data)) 0)).
    split; [exact Hsign|]. split; [|exact Hall].
    apply Rdiv_lt_0_compat; [exact Hs|now apply sqrt_lt_R0].
  - exists sign. split; [exact Hsign|exact Hall].
Qed.

(** Two correlated features of different variances A1 and A2: if a
    library axis (c0, c1) with eigenvalue [lam] of the raw covariance block
    is, feature by feature, the hand-rolled eigenvector (w0, w1) with
    eigenvalue [mu] of the standardised block divided by the standard
    deviations, then both vanish on these features. *)
Lemma block_forces_zero (f A1 A2 B s1 s2 mu lam t r c0 c1 w0 w1 : R) :
  0 < s1 -> 0 < s2 -> s1 * s1 = A1 -> s2 * s2 = A2 ->
  A1 <> A2 -> B <> 0 -> f <> 0 -> B * B <> A1 * A2 -> t <> 0 ->
  f * w0 + f * B / (s1 * s2) * w1 = mu * w0 ->
  f * B / (s1 * s2) * w0 + f * w1 = mu * w1 ->
  f * A1 * c0 + f * B * c1 = lam * c0 ->
  f * B * c0 + f * A2 * c1 = lam * c1 ->
  r * c0 = t * (w0 / s1) -> r * c1 = t * (w1 / s2) ->
  w0 = 0 /\ w1 = 0.
Proof.
  intros P1 P2 H1 H2 HA HB Hf Hdet Ht S0 S1 L0 L1 Z0 Z1.
  assert (Q0 : f * A1 * (w0 / s1) + f * B * (w1 / s2) = lam * (w0 / s1)).
  { apply (Rmult_eq_reg_l t); [|exact Ht].
    transitivity (f * A1 * (r * c0) + f * B * (r * c1)); [rewrite Z0, Z1; ring|].
    transitivity (r * (f * A1 * c0 + f * B * c1)); [ring|].
    rewrite L0. transitivity (lam * (r * c0)); [ring | rewrite Z0; ring]. }
  assert (Q1 : f * B * (w0 / s1) + f * A2 * (w1 / s2) = lam * (w1 / s2)).
  { apply (Rmult_eq_reg_l t); [|exact Ht].
    transitivity (f * B * (r * c0) + f * A2 * (r * c1)); [rewrite Z0, Z1; ring|].
    transitivity (r * (f * B * c0 + f * A2 * c1)); [ring|].
    rewrite L1. transitivity (lam * (r * c1)); [ring | rewrite Z1; ring]. }
  assert (T0 : f * B * w1 = s1 * s2 * ((mu - f) * w0)).
  { assert (E : f * B / (s1 * s2) * w1 = (mu - f) * w0) by lra.
    rewrite <- E. field. split; lra. }
  assert (T1 : f * B * w0 = s1 * s2 * ((mu - f) * w1)).
  { assert (E : f * B / (s1 * s2) * w0 = (mu - f) * w1) by lra.
    rewrite <- E. field. split; lra. }
  assert (R0 : A1 * mu * w0 = lam * w0).
  { assert (E : f * A1 * w0 + s1 * (f * B * w1) / s2 = lam * w0).
    { transitivity (s1 * (f * A1 * (w0 / s1) + f * B * (w1 / s2))); [field; lra|].
      rewrite Q0. field. lra. }
    rewrite T0 in E.
    replace (s1 * (s1 * s2 * ((mu - f) * w0)) / s2)
      with ((s1 * s1) * ((mu - f) * w0)) in E by (field; lra).
    rewrite H1 in E. lra. }
  assert (R1 : A2 * mu * w1 = lam * w1).
  { assert (E : s2 * (f * B * w0) / s1 + f * A2 * w1 = lam * w1).
    { transitivity (s2 * (f * B * (w0 / s1) + f * A2 * (w1 / s2))); [field; lra|].
      rewrite Q1. field. lra. }
    rewrite T1 in E.
    replace (s2 * (s1 * s2 * ((mu - f) * w1)) / s1)
      with ((s2 * s2) * ((mu - f) * w1)) in E by (field; lra).
    rewrite H2 in E. lra. }
  assert (HfB : f * B <> 0) by (apply Rmult_integral_contrapositive; now split).
  destruct (Req_dec_T w0 0) as [E0 | N0].
  - split; [exact E0|]. rewrite E0 in T0.
    assert (E : f * B * w1 = 0) by (rewrite T0; ring).
    apply Rmult_integral in E. destruct E; [contradiction|assumption].
  - exfalso.
    assert (N1 : w1 <> 0).
    { intros E1. rewrite E1 in T1.
      assert (E : f * B * w0 = 0) by (rewrite T1; ring).
      apply Rmult_integral in E. destruct E; contradiction. }
    assert (E1 : lam = A1 * mu).
    { apply (Rmult_eq_reg_r w0); [lra|exact N0]. }
    assert (E2 : lam = A2 * mu).
    { apply (Rmult_eq_reg_r w1); [lra|exact N1]. }
    assert (M : mu = 0).
    { assert (E : (A1 - A2) * mu = 0) by lra.
      apply Rmult_integral in E. destruct E; [lra|assumption]. }
    rewrite M in T0, T1.
    assert (F : (f * f) * ((B * B) - A1 * A2) * w0 = 0).
    { transitivity (f * B * (f * B * w0) - (f * f) * (A1 * A2) * w0); [ring|].
      rewrite T1.
      transitivity (s1 * s2 * (0 - f) * (f * B * w1) - f * f * (A1 * A2) * w0);
        [ring|].
      rewrite T0, <- H1, <- H2. ring. }
    apply Rmult_integral in F. destruct F as [F|F]; [|contradiction].
    apply Rmult_integral in F. destruct F as [F|F].
    + apply Rmult_integral in F. destruct F; contradiction.
    + apply Hdet. lra.
Qed.

(** * The pipeline on explicit tables *)

(** Equality of explicit arrays, entry by entry. *)
Ltac list_eq :=
  repeat (match goal with
          | |- (_ :: _) = (_ :: _) => apply f_equal2
          end);
  try reflexivity.

Lemma mean_4 (a b c d : R) : mean [a; b; c; d] = (a + b + c + d) / 4.
Proof. unfold mean, sum. simpl. field. Qed.

Lemma mean_8 (a b c d e f g h : R) :
  mean [a; b; c; d; e; f; g; h] = (a + b + c + d + e + f + g + h) / 8.
Proof. unfold mean, sum. simpl. field. Qed.

(** ** The table with a constant feature *)

Lemma shape_data_const : shape 4 4 data_const.
Proof. split; [reflexivity|repeat constructor]. Qed.

Lemma var_column1_data_const : var (column 1 data_const) = 1.
Proof.
  cbn [column data_const map nth]. unfold var. rewrite !mean_4.
  cbn [map]. rewrite mean_4. field.
Qed.

Lemma X_std_data_const :
  X_std data_const =
  [ [0; 1; 1; 1]; [0; 1; -1; -1]; [0; -1; 1; -1]; [0; -1; -1; 1] ].
Proof.
  unfold X_std, fit_transform, transform, fit, data_const.
  cbn [transpose ncols hd length seq map column nth mean_ scale_].
  assert (V0 : var [5; 5; 5; 5] = 0)
    by (unfold var; rewrite !mean_4; cbn [map]; rewrite mean_4; field).
  assert (V1 : var [1; 1; -1; -1] = 1)
    by (unfold var; rewrite !mean_4; cbn [map]; rewrite mean_4; field).
  assert (V2 : var [1; -1; 1; -1] = 1)
    by (unfold var; rewrite !mean_4; cbn [map]; rewrite mean_4; field).
  assert (V3 : var [1; -1; -1; 1] = 1)
    by (unfold var; rewrite !mean_4; cbn [map]; rewrite mean_4; field).
  rewrite V0, V1, V2, V3, handle_zeros_sqrt_0, handle_zeros_sqrt_1, !mean_4.
  list_eq; field.
Qed.

Lemma Sigma_data_const :
  Sigma data_const =
  [ [0; 0; 0; 0]; [0; 4/3; 0; 0]; [0; 0; 4/3; 0]; [0; 0; 0; 4/3] ].
Proof.
  unfold Sigma. rewrite X_std_data_const.
  cbn [transpose ncols hd length seq map column nth cov].
  unfold covariance, center. rewrite !mean_4.
  cbn [map length]. unfold dot, sum. cbn [combine map fold_right fst snd INR].
  list_eq; field.
Qed.

Lemma evals_data_const : evals eig_diag4 data_const = [0; 4/3; 4/3; 4/3].
Proof. unfold evals, eig_diag4. rewrite Sigma_data_const. reflexivity. Qed.

Lemma evecs_data_const :
  evecs eig_diag4 data_const
  = [ [1; 0; 0; 0]; [0; 1; 0; 0]; [0; 0; 1; 0]; [0; 0; 0; 1] ].
Proof. reflexivity. Qed.

Lemma eig_contract_data_const :
  eig_contract (Sigma data_const) (evals eig_diag4 data_const)
    (evecs eig_diag4 data_const).
Proof.
  rewrite evals_data_const, evecs_data_const, Sigma_data_const.
  constructor.
  - reflexivity.
  - split; [reflexivity|]. repeat constructor.
  - intros i Hi. cbn [nrows length] in Hi.
    destruct i as [|[|[|[|i]]]]; try lia;
      unfold matvec, scal, dot, sum;
      cbn [column map nth combine fold_right fst snd];
      list_eq; field.
  - intros i Hi. cbn [nrows length] in Hi.
    destruct i as [|[|[|[|i]]]]; try lia;
      unfold dot, sum;
      cbn [column map nth combine fold_right fst snd]; field.
  - exists [ [1; 0; 0; 0]; [0; 1; 0; 0]; [0; 0; 1; 0]; [0; 0; 0; 1] ].
    split; [split; [reflexivity|repeat constructor]|].
    split; unfold matmul, dot, sum, eye;
      cbn [transpose ncols hd length seq map column nth combine fold_right
           fst snd nrows Nat.eq_dec nat_rec nat_rect];
      list_eq; try field.
Qed.

(** C1. On the table with a constant feature the solver returns the
    eigenvalues 0, 4/3, 4/3, 4/3 in the order of the diagonal;
    [W = evecs[:, :2]] keeps the columns of the eigenvalues 0 and 4/3 and
    leaves out two columns of eigenvalue 4/3, which is larger than 0: the
    selected columns are not the top two. *)
Theorem first_two_columns_not_top_two :
  eig_contract (Sigma data_const) (evals eig_diag4 data_const)
    (evecs eig_diag4 data_const) /\
  evals eig_diag4 data_const = [0; 4/3; 4/3; 4/3] /\
  W eig_diag4 data_const = [ [1; 0]; [0; 1]; [0; 0]; [0; 0] ] /\
  ~ selects_top 2 (evals eig_diag4 data_const).
Proof.
  split; [exact eig_contract_data_const|].
  split; [exact evals_data_const|].
  split; [reflexivity|].
  rewrite evals_data_const. intros H.
  specialize (H 0%nat 2%nat). cbn [nth length] in H.
  assert (4 / 3 <= 0) by (apply H; lia). lra.
Qed.

(** Witness of C4: the fractions of variance explained on the table with
    a constant feature. *)
Lemma variance_explained_witness :
  (exists d, Permutation d (evals eig_diag4 data_const) /\ non_increasing d /\
     variance_explained eig_diag4 data_const
       = map (fun x => 100 * x / sum (evals eig_diag4 data_const)) d) /\
  non_increasing (variance_explained eig_diag4 data_const) /\
  Forall (fun x => 0 <= x) (variance_explained eig_diag4 data_const) /\
  sum (variance_explained eig_diag4 data_const) = 100 /\
  hd 1 (cumulative_explained eig_diag4 data_const) = 0 /\
  non_decreasing (cumulative_explained eig_diag4 data_const) /\
  last (cumulative_explained eig_diag4 data_const) 0 = 100.
Proof.
  apply (variance_explained_properties eig_diag4 4 4 data_const).
  - exact shape_data_const.
  - lia.
  - exists 1%nat. split; [lia|]. rewrite var_column1_data_const. lra.
  - exact eig_contract_data_const.
Defined.

(** Witness of C6: the eigenvalues of the table with a constant feature
    add up to the trace. *)
Lemma eigenvalues_sum_witness :
  total eig_diag4 data_const = trace (Sigma data_const) /\
  trace (Sigma data_const)
    = sum (map (fun feature => covariance feature feature)
               (transpose (X_std data_const))).
Proof.
  apply (eigenvalues_sum_to_total_variance eig_diag4 4 4 data_const).
  - exact shape_data_const.
  - lia.
  - exact eig_contract_data_const.
Defined.

(** Witness of C7: the projection of the table with a constant feature. *)
Lemma projection_witness :
  shape 4 4 (X_std data_const) /\ shape 4 2 (W eig_diag4 data_const) /\
  shape 4 2 (Y eig_diag4 data_const) /\
  forall i k, (i < 4)%nat -> (k < 2)%nat ->
    column k (W eig_diag4 data_const) = column k (evecs eig_diag4 data_const) /\
    ent (Y eig_diag4 data_const) i k
      = dot (nth i (X_std data_const) []) (column k (W eig_diag4 data_const)) /\
    ent (Y eig_diag4 data_const) i k
      = bigsum 4 (fun j => ent (X_std data_const) i j
                           * ent (evecs eig_diag4 data_const) j k).
Proof.
  apply (projection_is_matrix_product eig_diag4 4 4 data_const).
  - exact shape_data_const.
  - lia.
  - split; [reflexivity|repeat constructor].
Defined.


(** ** The table with a near-constant feature *)











(** ** The table of equal variances *)

Lemma shape_data_equalvar : shape 4 4 data_equalvar.
Proof. split; [reflexivity|repeat constructor]. Qed.

Lemma var_columns_data_equalvar (j : nat) :
  (j < 4)%nat -> var (column j data_equalvar) = 14 * 14.
Proof.
  intros Hj. destruct j as [|[|[|[|j]]]]; try lia;
    cbn [column data_equalvar map nth]; unfold var; rewrite !mean_4;
    cbn [map]; rewrite mean_4; field.
Qed.

Lemma cov_raw_data_equalvar :
  cov (transpose data_equalvar) =
  [ [ 784/3;  368/3; -496/3; -656/3];
    [ 368/3;  784/3; -656/3; -496/3];
    [-496/3; -656/3;  784/3;  368/3];
    [-656/3; -496/3;  368/3;  784/3] ].
Proof.
  unfold data_equalvar.
  cbn [transpose ncols hd length seq map column nth cov].
  unfold covariance, center. rewrite !mean_4.
  cbn [map length]. unfold dot, sum. cbn [combine map fold_right fst snd INR].
  list_eq; field.
Qed.

Lemma Sigma_data_equalvar :
  Sigma data_equalvar =
  [ [   4/3;   92/147; -124/147; -164/147];
    [  92/147;    4/3; -164/147; -124/147];
    [-124/147; -164/147;    4/3;   92/147];
    [-164/147; -124/147;  92/147;     4/3] ].
Proof.
  apply (matrix_ext 4 4).
  - apply (shape_Sigma 4 4); [exact shape_data_equalvar|lia].
  - split; [reflexivity|repeat constructor].
  - intros i j Hi Hj.
    rewrite (ent_Sigma_equal_var 4 4 data_equalvar 14 i j shape_data_equalvar);
      try lia; try lra; [|exact var_columns_data_equalvar].
    rewrite cov_raw_data_equalvar.
    destruct i as [|[|[|[|i]]]]; try lia;
      destruct j as [|[|[|[|j]]]]; try lia;
      cbn [ent nth]; field.
Qed.

Lemma eig_contract_data_equalvar :
  eig_contract (Sigma data_equalvar) (evals eig_hadamard4 data_equalvar)
    (evecs eig_hadamard4 data_equalvar).
Proof.
  unfold evals, evecs, eig_hadamard4. rewrite Sigma_data_equalvar. cbn [fst snd].
  constructor.
  - reflexivity.
  - split; [reflexivity|repeat constructor].
  - intros i Hi. cbn [nrows length] in Hi.
    destruct i as [|[|[|[|i]]]]; try lia;
      unfold matvec, scal, dot, sum;
      cbn [column map nth combine fold_right fst snd];
      list_eq; field.
  - intros i Hi. cbn [nrows length] in Hi.
    destruct i as [|[|[|[|i]]]]; try lia;
      unfold dot, sum;
      cbn [column map nth combine fold_right fst snd]; field.
  - exists [ [1/2;  1/2; -1/2; -1/2];
             [1/2; -1/2;  1/2; -1/2];
             [1/2; -1/2; -1/2;  1/2];
             [1/2;  1/2;  1/2;  1/2] ].
    split; [split; [reflexivity|repeat constructor]|].
    split; unfold matmul, dot, sum, eye;
      cbn [transpose ncols hd length seq map column nth combine fold_right
           fst snd nrows Nat.eq_dec nat_rec nat_rect];
      list_eq; try field.
Qed.

Lemma pca_fitted_data_equalvar :
  PCA.fitted 3 true data_equalvar (pca pca_fit_equalvar data_equalvar).
Proof.
  unfold pca, pca_fit_equalvar. constructor; cbn [PCA.n_components PCA.whiten
    PCA.mean_ PCA.components_ PCA.explained_variance_].
  - reflexivity.
  - reflexivity.
  - reflexivity.
  - split; [reflexivity|repeat constructor].
  - reflexivity.
  - intros i Hi. rewrite cov_raw_data_equalvar.
    destruct i as [|[|[|i]]]; try lia;
      unfold matvec, scal, dot, sum;
      cbn [map nth combine fold_right fst snd];
      list_eq; field.
  - intros i Hi.
    destruct i as [|[|[|i]]]; try lia;
      unfold dot, sum; cbn [map nth combine fold_right fst snd]; field.
  - intros i j Hi Hj Hne.
    destruct i as [|[|[|i]]]; try lia;
      destruct j as [|[|[|j]]]; try lia;
      unfold dot, sum; cbn [map nth combine fold_right fst snd]; field.
  - intros i j Hij Hj.
    destruct j as [|[|[|j]]]; try lia;
      destruct i as [|[|[|i]]]; try lia;
      cbn [nth]; lra.
Qed.


(** Witness of C9 as amended: the first library coordinate on the table
    of equal variances. *)
Lemma library_pca_agrees_witness :
  agree_up_to_sign_and_scale 4 0
    (X_pca pca_fit_equalvar data_equalvar) (Y eig_hadamard4 data_equalvar) /\
  exists sign, (sign = 1 \/ sign = -1) /\
    forall i, (i < 4)%nat ->
      ent (X_pca pca_fit_equalvar data_equalvar) i 0
      = sign * (14 / sqrt (nth 0 (PCA.explained_variance_
                                    (pca pca_fit_equalvar data_equalvar)) 0))
        * ent (Y eig_hadamard4 data_equalvar) i 0.
Proof.
  apply (library_pca_agrees_for_equal_variances eig_hadamard4 pca_fit_equalvar
           4 4 data_equalvar 14 0).
  - exact shape_data_equalvar.
  - lia.
  - lia.
  - lra.
  - exact var_columns_data_equalvar.
  - exact eig_contract_data_equalvar.
  - exact pca_fitted_data_equalvar.
  - lia.
  - cbn. lra.
  - cbn. field.
  - intros j Hj Hne.
    destruct j as [|[|[|[|j]]]]; try lia; cbn; lra.
Defined.

(** ** The table of unequal variances *)

Lemma shape_data8x4 : shape 8 4 data8x4.
Proof. split; [reflexivity|repeat constructor]. Qed.

Lemma mean_data8x4 (j : nat) : (j < 4)%nat -> mean (column j data8x4) = 0.
Proof.
  intros Hj. destruct j as [|[|[|[|j]]]]; try lia;
    cbn [column data8x4 map nth]; rewrite mean_8; field.
Qed.

Lemma var_data8x4 :
  var (column 0 data8x4) = 34 /\ var (column 1 data8x4) = 41 /\
  var (column 2 data8x4) = 136 /\ var (column 3 data8x4) = 164.
Proof.
  repeat split; cbn [column data8x4 map nth]; unfold var; rewrite !mean_8;
    cbn [map]; rewrite mean_8; field.
Qed.

Lemma cov_raw_data8x4 :
  cov (transpose data8x4) =
  [ [272/7;  96/7;      0;      0];
    [ 96/7; 328/7;      0;      0];
    [    0;     0; 1088/7;  384/7];
    [    0;     0;  384/7; 1312/7] ].
Proof.
  unfold data8x4.
  cbn [transpose ncols hd length seq map column nth cov].
  unfold covariance, center. rewrite !mean_8.
  cbn [map length]. unfold dot, sum. cbn [combine map fold_right fst snd INR].
  list_eq; field.
Qed.

Lemma Sigma_data8x4 :
  Sigma data8x4 =
  [ [8/7; 96/7 / (sqrt 34 * sqrt 41); 0; 0];
    [96/7 / (sqrt 34 * sqrt 41); 8/7; 0; 0];
    [0; 0; 8/7; 384/7 / (sqrt 136 * sqrt 164)];
    [0; 0; 384/7 / (sqrt 136 * sqrt 164); 8/7] ].
Proof.
  destruct var_data8x4 as [V0 [V1 [V2 V3]]].
  assert (H0 : sqrt 34 * sqrt 34 = 34) by (apply sqrt_sqrt; lra).
  assert (H1 : sqrt 41 * sqrt 41 = 41) by (apply sqrt_sqrt; lra).
  assert (H2 : sqrt 136 * sqrt 136 = 136) by (apply sqrt_sqrt; lra).
  assert (H3 : sqrt 164 * sqrt 164 = 164) by (apply sqrt_sqrt; lra).
  apply (matrix_ext 4 4).
  - apply (shape_Sigma 8 4); [exact shape_data8x4|lia].
  - split; [reflexivity|repeat constructor].
  - intros i j Hi Hj.
    rewrite (ent_Sigma 8 4 data8x4 i j shape_data8x4) by lia.
    rewrite covariance_standardize.
    rewrite <- (ent_cov_raw 8 4 data8x4 i j shape_data8x4) by lia.
    rewrite cov_raw_data8x4.
    destruct i as [|[|[|[|i]]]]; try lia;
      destruct j as [|[|[|[|j]]]]; try lia;
      rewrite ?V0, ?V1, ?V2, ?V3, ?handle_zeros_sqrt_pos by lra;
      cbn [ent nth].
    all: try (unfold Rdiv; rewrite Rmult_0_l; reflexivity).
    all: try reflexivity.
    + rewrite H0. field.
    + rewrite (Rmult_comm (sqrt 41)). reflexivity.
    + rewrite H1. field.
    + rewrite H2. field.
    + rewrite (Rmult_comm (sqrt 164)). reflexivity.
    + rewrite H3. field.
Qed.

Lemma half_sqrt2_sq : half_sqrt2 * half_sqrt2 = 1 / 2.
Proof.
  unfold half_sqrt2.
  assert (H2 : sqrt 2 * sqrt 2 = 2) by (apply sqrt_sqrt; lra).
  replace (sqrt 2 / 2 * (sqrt 2 / 2)) with (sqrt 2 * sqrt 2 / 4) by field.
  rewrite H2. field.
Qed.

Lemma eig_contract_blocks4 (a b d : R) :
  eig_contract [ [a; b; 0; 0]; [b; a; 0; 0]; [0; 0; a; d]; [0; 0; d; a] ]
    (fst (eig_blocks4 [ [a; b; 0; 0]; [b; a; 0; 0]; [0; 0; a; d]; [0; 0; d; a] ]))
    (snd (eig_blocks4 [ [a; b; 0; 0]; [b; a; 0; 0]; [0; 0; a; d]; [0; 0; d; a] ])).
Proof.
  unfold eig_blocks4. cbn [fst snd ent nth].
  pose proof half_sqrt2_sq as Hh. set (h := half_sqrt2) in *.
  constructor.
  - reflexivity.
  - split; [reflexivity|repeat constructor].
  - intros i Hi. cbn [nrows length] in Hi.
    destruct i as [|[|[|[|i]]]]; try lia;
      unfold matvec, scal, dot, sum;
      cbn [column map nth combine fold_right fst snd];
      list_eq; ring.
  - intros i Hi. cbn [nrows length] in Hi.
    destruct i as [|[|[|[|i]]]]; try lia;
      unfold dot, sum;
      cbn [column map nth combine fold_right fst snd]; nra.
  - exists [ [0; 0; h; h]; [h; h; 0; 0]; [0; 0; h; -h]; [h; -h; 0; 0] ].
    split; [split; [reflexivity|repeat constructor]|].
    split; unfold matmul, dot, sum, eye;
      cbn [transpose ncols hd length seq map column nth combine fold_right
           fst snd nrows Nat.eq_dec nat_rec nat_rect];
      list_eq; nra.
Qed.

Lemma eig_contract_data8x4 :
  eig_contract (Sigma data8x4) (evals eig_blocks4 data8x4)
    (evecs eig_blocks4 data8x4).
Proof.
  unfold evals, evecs. rewrite Sigma_data8x4. apply eig_contract_blocks4.
Qed.

Lemma pca_fitted_data8x4 :
  PCA.fitted 3 true data8x4 (pca pca_fit8x4 data8x4).
Proof.
  unfold pca, pca_fit8x4. constructor; cbn [PCA.n_components PCA.whiten
    PCA.mean_ PCA.components_ PCA.explained_variance_].
  - reflexivity.
  - reflexivity.
  - reflexivity.
  - split; [reflexivity|repeat constructor].
  - reflexivity.
  - intros i Hi. rewrite cov_raw_data8x4.
    destruct i as [|[|[|i]]]; try lia;
      unfold matvec, scal, dot, sum;
      cbn [map nth combine fold_right fst snd];
      list_eq; field.
  - intros i Hi.
    destruct i as [|[|[|i]]]; try lia;
      unfold dot, sum; cbn [map nth combine fold_right fst snd]; field.
  - intros i j Hi Hj Hne.
    destruct i as [|[|[|i]]]; try lia;
      destruct j as [|[|[|j]]]; try lia;
      unfold dot, sum; cbn [map nth combine fold_right fst snd]; field.
  - intros i j Hij Hj.
    destruct j as [|[|[|j]]]; try lia;
      destruct i as [|[|[|i]]]; try lia;
      cbn [nth]; lra.
Qed.

Lemma X_pca_data8x4 (pca_fit : matrix -> PCA.t) (i k : nat) :
  PCA.fitted 3 true data8x4 (pca pca_fit data8x4) ->
  (i < 8)%nat -> (k < 3)%nat ->
  ent (X_pca pca_fit data8x4) i k
  = (ent data8x4 i 0 * nth 0 (nth k (PCA.components_ (pca pca_fit data8x4)) []) 0
     + ent data8x4 i 1 * nth 1 (nth k (PCA.components_ (pca pca_fit data8x4)) []) 0
     + ent data8x4 i 2 * nth 2 (nth k (PCA.components_ (pca pca_fit data8x4)) []) 0
     + ent data8x4 i 3 * nth 3 (nth k (PCA.components_ (pca pca_fit data8x4)) []) 0)
    / sqrt (nth k (PCA.explained_variance_ (pca pca_fit data8x4)) 0).
Proof.
  intros HP Hi Hk.
  rewrite (ent_X_pca pca_fit 8 4 data8x4 i k shape_data8x4 HP Hi Hk).
  unfold bigsum, sum. cbn [seq map fold_right].
  rewrite !mean_data8x4 by lia.
  unfold Rdiv. ring.
Qed.

Lemma Y_data8x4 (eig : matrix -> vector * matrix) (i k : nat) :
  shape 4 4 (evecs eig data8x4) -> (i < 8)%nat -> (k < 2)%nat ->
  ent (Y eig data8x4) i k
  = ent data8x4 i 0 / sqrt 34 * ent (evecs eig data8x4) 0 k
    + ent data8x4 i 1 / sqrt 41 * ent (evecs eig data8x4) 1 k
    + ent data8x4 i 2 / sqrt 136 * ent (evecs eig data8x4) 2 k
    + ent data8x4 i 3 / sqrt 164 * ent (evecs eig data8x4) 3 k.
Proof.
  intros HV Hi Hk.
  destruct var_data8x4 as [V0 [V1 [V2 V3]]].
  rewrite (ent_Y eig 8 4 data8x4 i k shape_data8x4) by (assumption || lia).
  unfold bigsum, sum. cbn [seq map fold_right].
  rewrite !(ent_X_std 8 4 data8x4 i _ shape_data8x4 Hi) by lia.
  rewrite !mean_data8x4 by lia.
  rewrite V0, V1, V2, V3, !handle_zeros_sqrt_pos by lra.
  unfold Rdiv. ring.
Qed.

(** C9 fails on the table of unequal variances: both solvers answer
    within their contracts, and the first library coordinate is not the
    first hand-rolled coordinate up to a sign and a rescaling. *)
Lemma library_pca_differs_from_hand_rolled :
  eig_contract (Sigma data8x4) (evals eig_blocks4 data8x4)
    (evecs eig_blocks4 data8x4) /\
  PCA.fitted 3 true data8x4 (pca pca_fit8x4 data8x4) /\
  ~ agree_up_to_sign_and_scale 8 0
      (X_pca pca_fit8x4 data8x4) (Y eig_blocks4 data8x4).
Proof.
  split; [exact eig_contract_data8x4|]. split; [exact pca_fitted_data8x4|].
  intros [sign [rho [_ [_ Hall]]]].
  assert (HV : shape 4 4 (evecs eig_blocks4 data8x4))
    by (split; [reflexivity|repeat constructor]).
  pose proof (Hall 0%nat ltac:(lia)) as H0.
  pose proof (Hall 1%nat ltac:(lia)) as H1.
  rewrite (X_pca_data8x4 pca_fit8x4 0 0 pca_fitted_data8x4) in H0 by lia.
  rewrite (X_pca_data8x4 pca_fit8x4 1 0 pca_fitted_data8x4) in H1 by lia.
  rewrite (Y_data8x4 eig_blocks4 0 0 HV) in H0 by lia.
  rewrite (Y_data8x4 eig_blocks4 1 0 HV) in H1 by lia.
  unfold pca, pca_fit8x4, evecs, eig_blocks4 in H0, H1.
  cbn [PCA.components_ PCA.explained_variance_ snd ent nth data8x4] in H0, H1.
  assert (Ha : sqrt 136 * sqrt 136 = 136) by (apply sqrt_sqrt; lra).
  assert (Hb : sqrt 164 * sqrt 164 = 164) by (apply sqrt_sqrt; lra).
  assert (Pa : 0 < sqrt 136) by (apply sqrt_lt_R0; lra).
  assert (Pb : 0 < sqrt 164) by (apply sqrt_lt_R0; lra).
  assert (Pq : 0 < sqrt (1600 / 7)) by (apply sqrt_lt_R0; lra).
  assert (P34 : 0 < sqrt 34) by (apply sqrt_lt_R0; lra).
  assert (P41 : 0 < sqrt 41) by (apply sqrt_lt_R0; lra).
  set (a := sqrt 136) in *. set (b := sqrt 164) in *.
  set (q := sqrt (1600 / 7)) in *.
  set (K := sign * rho * half_sqrt2 * q).
  assert (E0 : 24 = 16 * (K / a) + 18 * (K / b)).
  { replace 24 with ((8 * 0 + 9 * 0 + 16 * (3 / 5) + 18 * (4 / 5)) / q * q)
      by (field; lra).
    rewrite H0. unfold K. field. repeat split; lra. }
  assert (E1 : -12 = 4 * (K / a) - 18 * (K / b)).
  { replace (-12) with ((8 * 0 + -1 * 0 + 4 * (3 / 5) + -18 * (4 / 5)) / q * q)
      by (field; lra).
    rewrite H1. unfold K. field. repeat split; lra. }
  assert (U : K / a = 3 / 5) by lra.
  assert (V : K / b = 4 / 5) by lra.
  assert (E : 3 * a = 4 * b).
  { assert (Ka : K = 3 / 5 * a) by (rewrite <- U; field; lra).
    assert (Kb : K = 4 / 5 * b) by (rewrite <- V; field; lra).
    lra. }
  assert (S : 9 * (a * a) = 16 * (b * b)).
  { transitivity ((3 * a) * (3 * a)); [ring|]. rewrite E. ring. }
  rewrite Ha, Hb in S. lra.
Qed.

(** On the table of unequal variances no answers of the two solvers within
    their contracts make a library coordinate agree with the hand-rolled
    one. *)
Lemma library_pca_never_agrees
    (eig : matrix -> vector * matrix) (pca_fit : matrix -> PCA.t) (k : nat) :
  eig_contract (Sigma data8x4) (evals eig data8x4) (evecs eig data8x4) ->
  PCA.fitted 3 true data8x4 (pca pca_fit data8x4) ->
  (k < 2)%nat ->
  ~ agree_up_to_sign_and_scale 8 k (X_pca pca_fit data8x4) (Y eig data8x4).
Proof.
  intros HE HP Hk [sign [rho [Hsign [Hrho Hall]]]].
  pose proof shape_data8x4 as H.
  assert (HS : shape 4 4 (Sigma data8x4)) by (apply (shape_Sigma 8 4); [exact H|lia]).
  assert (HV : shape 4 4 (evecs eig data8x4)).
  { destruct HE as [_ Hsh _ _ _].
    now rewrite (nrows_Sigma 8 4 data8x4 H) in Hsh by lia. }
  assert (Ha0 : sqrt 34 * sqrt 34 = 34) by (apply sqrt_sqrt; lra).
  assert (Ha1 : sqrt 41 * sqrt 41 = 41) by (apply sqrt_sqrt; lra).
  assert (Ha2 : sqrt 136 * sqrt 136 = 136) by (apply sqrt_sqrt; lra).
  assert (Ha3 : sqrt 164 * sqrt 164 = 164) by (apply sqrt_sqrt; lra).
  assert (P0 : 0 < sqrt 34) by (apply sqrt_lt_R0; lra).
  assert (P1 : 0 < sqrt 41) by (apply sqrt_lt_R0; lra).
  assert (P2 : 0 < sqrt 136) by (apply sqrt_lt_R0; lra).
  assert (P3 : 0 < sqrt 164) by (apply sqrt_lt_R0; lra).
  (* the eigen-equations of the hand-rolled eigenvector *)
  pose proof (eig_pair_ent 4 _ _ _ HS HE 0 k ltac:(lia) ltac:(lia)) as S0.
  pose proof (eig_pair_ent 4 _ _ _ HS HE 1 k ltac:(lia) ltac:(lia)) as S1.
  pose proof (eig_pair_ent 4 _ _ _ HS HE 2 k ltac:(lia) ltac:(lia)) as S2.
  pose proof (eig_pair_ent 4 _ _ _ HS HE 3 k ltac:(lia) ltac:(lia)) as S3.
  pose proof (eig_unit_ent 4 _ _ _ HS HE k ltac:(lia)) as U.
  rewrite Sigma_data8x4 in S0, S1, S2, S3.
  unfold bigsum, sum in S0, S1, S2, S3, U.
  cbn [seq map fold_right ent nth] in S0, S1, S2, S3, U.
  (* the eigen-equations of the library axis *)
  pose proof (pca_pair_ent _ 8 4 data8x4 k 0 H ltac:(lia) HP ltac:(lia) ltac:(lia)) as L0.
  pose proof (pca_pair_ent _ 8 4 data8x4 k 1 H ltac:(lia) HP ltac:(lia) ltac:(lia)) as L1.
  pose proof (pca_pair_ent _ 8 4 data8x4 k 2 H ltac:(lia) HP ltac:(lia) ltac:(lia)) as L2.
  pose proof (pca_pair_ent _ 8 4 data8x4 k 3 H ltac:(lia) HP ltac:(lia) ltac:(lia)) as L3.
  rewrite cov_raw_data8x4 in L0, L1, L2, L3.
  unfold bigsum, sum in L0, L1, L2, L3.
  cbn [seq map fold_right ent nth] in L0, L1, L2, L3.
  (* agreement, observation by observation *)
  assert (Hobs : forall i, (i < 8)%nat ->
    (ent data8x4 i 0 * nth 0 (nth k (PCA.components_ (pca pca_fit data8x4)) []) 0
     + ent data8x4 i 1 * nth 1 (nth k (PCA.components_ (pca pca_fit data8x4)) []) 0
     + ent data8x4 i 2 * nth 2 (nth k (PCA.components_ (pca pca_fit data8x4)) []) 0
     + ent data8x4 i 3 * nth 3 (nth k (PCA.components_ (pca pca_fit data8x4)) []) 0)
    / sqrt (nth k (PCA.explained_variance_ (pca pca_fit data8x4)) 0)
    = sign * rho *
      (ent data8x4 i 0 / sqrt 34 * ent (evecs eig data8x4) 0 k
       + ent data8x4 i 1 / sqrt 41 * ent (evecs eig data8x4) 1 k
       + ent data8x4 i 2 / sqrt 136 * ent (evecs eig data8x4) 2 k
       + ent data8x4 i 3 / sqrt 164 * ent (evecs eig data8x4) 3 k)).
  { intros i Hi.
    rewrite <- (X_pca_data8x4 pca_fit i k HP Hi) by lia.
    rewrite <- (Y_data8x4 eig i k HV Hi Hk). now apply Hall. }
  pose proof (Hobs 0%nat ltac:(lia)) as O0.
  pose proof (Hobs 1%nat ltac:(lia)) as O1.
  pose proof (Hobs 2%nat ltac:(lia)) as O2.
  pose proof (Hobs 3%nat ltac:(lia)) as O3.
  cbn [ent nth data8x4] in O0, O1, O2, O3.
  clear Hobs Hall.
  set (c0 := nth 0 (nth k (PCA.components_ (pca pca_fit data8x4)) []) 0) in *.
  set (c1 := nth 1 (nth k (PCA.components_ (pca pca_fit data8x4)) []) 0) in *.
  set (c2 := nth 2 (nth k (PCA.components_ (pca pca_fit data8x4)) []) 0) in *.
  set (c3 := nth 3 (nth k (PCA.components_ (pca pca_fit data8x4)) []) 0) in *.
  set (lam := nth k (PCA.explained_variance_ (pca pca_fit data8x4)) 0) in *.
  set (mu := nth k (evals eig data8x4) 0) in *.
  set (w0 := ent (evecs eig data8x4) 0 k) in *.
  set (w1 := ent (evecs eig data8x4) 1 k) in *.
  set (w2 := ent (evecs eig data8x4) 2 k) in *.
  set (w3 := ent (evecs eig data8x4) 3 k) in *.
  set (s0 := sqrt 34) in *. set (s1 := sqrt 41) in *.
  set (s2 := sqrt 136) in *. set (s3 := sqrt 164) in *.
  set (r := / sqrt lam) in *.
  set (t := sign * rho).
  assert (Ht : t <> 0) by (unfold t; destruct Hsign as [-> | ->]; nra).
  (* the table has full column rank *)
  assert (Z : r * c0 = t * (w0 / s0) /\ r * c1 = t * (w1 / s1) /\
              r * c2 = t * (w2 / s2) /\ r * c3 = t * (w3 / s3)).
  { assert (G : forall d0 d1 d2 d3,
        (d0 * c0 + d1 * c1 + d2 * c2 + d3 * c3) / sqrt lam
        = sign * rho * (d0 / s0 * w0 + d1 / s1 * w1 + d2 / s2 * w2 + d3 / s3 * w3) ->
        d0 * (r * c0 - t * (w0 / s0)) + d1 * (r * c1 - t * (w1 / s1))
        + d2 * (r * c2 - t * (w2 / s2)) + d3 * (r * c3 - t * (w3 / s3)) = 0).
    { intros d0 d1 d2 d3 E. unfold Rdiv in E. fold r in E. unfold t.
      transitivity ((d0 * c0 + d1 * c1 + d2 * c2 + d3 * c3) * r
                    - sign * rho * (d0 * / s0 * w0 + d1 * / s1 * w1
                                    + d2 * / s2 * w2 + d3 * / s3 * w3));
        [unfold Rdiv; ring | rewrite E; ring]. }
    apply G in O0. apply G in O1. apply G in O2. apply G in O3.
    repeat split; lra. }
  destruct Z as [Z0 [Z1 [Z2 Z3]]].
  destruct (block_forces_zero (8/7) 34 41 12 s0 s1 mu lam t r c0 c1 w0 w1)
    as [E0 E1]; try assumption; try lra.
  destruct (block_forces_zero (8/7) 136 164 48 s2 s3 mu lam t r c2 c3 w2 w3)
    as [E2 E3]; try assumption; try lra.
  rewrite E0, E1, E2, E3 in U. lra.
Qed.

(** * Further properties of the notebook's cells *)

(** ** Standardisation: constant features *)

Lemma sum_map_zero_terms (A : Type) (f : A -> R) (l : list A) :
  (forall x, In x l -> 0 <= f x) -> sum (map f l) = 0 ->
  forall x, In x l -> f x = 0.
Proof.
  induction l as [|a l IH]; intros Hpos Hsum x Hx; [destruct Hx|].
  cbn [map] in Hsum. rewrite sum_cons in Hsum.
  assert (Ha : 0 <= f a) by (apply Hpos; now left).
  assert (Hl : 0 <= sum (map f l))
    by (apply sum_map_nonneg; intros y Hy; apply Hpos; now right).
  destruct Hx as [<-|Hx]; [lra|].
  apply IH; [intros y Hy; apply Hpos; now right|lra|exact Hx].
Qed.

Lemma INR_length_pos (A : Type) (l : list A) : (0 < length l)%nat -> 0 < INR (length l).
Proof. intros H. apply lt_0_INR. exact H. Qed.

(** A feature of variance zero is constant. *)
Lemma var_0_constant (v : vector) :
  (0 < length v)%nat -> var v = 0 -> forall x, In x v -> x = mean v.
Proof.
  intros Hlen Hvar x Hx. unfold var in Hvar. unfold mean at 1 in Hvar.
  rewrite length_map in Hvar.
  pose proof (INR_length_pos _ v Hlen) as Hn.
  assert (Hs : sum (map (fun x => (x - mean v) * (x - mean v)) v) = 0).
  { apply (Rmult_eq_reg_r (/ INR (length v))).
    - unfold Rdiv in Hvar. rewrite Hvar. ring.
    - apply Rinv_neq_0_compat. lra. }
  pose proof (sum_map_zero_terms _ (fun x => (x - mean v) * (x - mean v)) v
                (fun y _ => Rle_0_sqr (y - mean v)) Hs x Hx) as E.
  cbv beta in E. apply Rmult_integral in E. lra.
Qed.

Lemma standardize_var_0 (v : vector) :
  (0 < length v)%nat -> var v = 0 -> standardize v = map (fun _ => 0) v.
Proof.
  intros Hlen Hvar. unfold standardize. apply map_ext_in. intros x Hx.
  rewrite (var_0_constant v Hlen Hvar x Hx). unfold Rdiv. ring.
Qed.

Lemma map_const_repeat (A : Type) (c : R) (l : list A) :
  map (fun _ => c) l = repeat c (length l).
Proof. induction l; simpl; congruence. Qed.

Lemma mean_repeat_0 (n : nat) : mean (repeat 0 n) = 0.
Proof.
  assert (E : sum (repeat 0 n) = 0).
  { induction n; [reflexivity|]. cbn [repeat]. rewrite sum_cons, IHn. ring. }
  unfold mean. rewrite E. unfold Rdiv. ring.
Qed.

Lemma var_repeat_0 (n : nat) : var (repeat 0 n) = 0.
Proof.
  unfold var. rewrite mean_repeat_0.
  rewrite (map_ext_in _ (fun _ => 0)) by (intros x Hx; apply repeat_spec in Hx; subst; ring).
  rewrite map_const_repeat, repeat_length. apply mean_repeat_0.
Qed.

Lemma nth_scale_fit (n m : nat) (X : matrix) (j : nat) :
  shape n m X -> (0 < n)%nat -> (j < m)%nat ->
  nth j (scale_ (fit X)) 1 = handle_zeros_in_scale (sqrt (var (column j X))).
Proof.
  intros H Hn Hj. unfold fit; cbn [scale_].
  rewrite map_map.
  rewrite (nth_map_in _ _ (fun v => handle_zeros_in_scale (sqrt (var v))) (transpose X) j 1 [])
    by (rewrite length_transpose, (shape_ncols n m X H Hn); exact Hj).
  rewrite nth_transpose by (rewrite (shape_ncols n m X H Hn); exact Hj).
  reflexivity.
Qed.

(** X1. A feature that is constant in the input (variance zero) gets the
    scale 1 from the scaler, is mapped to a column of zeros, and so has
    variance zero, not one, after standardisation. *)
Theorem constant_feature_standardizes_to_zero (n m : nat) (data : matrix) (j : nat) :
  shape n m data -> (0 < n)%nat -> (j < m)%nat -> var (column j data) = 0 ->
  nth j (scale_ (fit data)) 1 = 1 /\
  column j (X_std data) = repeat 0 n /\
  var (column j (X_std data)) = 0.
Proof.
  intros H Hn Hj Hvar.
  assert (Hlen : length (column j data) = n)
    by (rewrite length_column; now destruct H).
  assert (Ecol : column j (X_std data) = repeat 0 n).
  { unfold X_std. rewrite (column_fit_transform n m data j H Hj).
    rewrite standardize_var_0 by (rewrite ?Hlen; assumption).
    now rewrite map_const_repeat, Hlen. }
  split; [|split].
  - rewrite (nth_scale_fit n m data j H Hn Hj), Hvar. apply handle_zeros_sqrt_0.
  - exact Ecol.
  - rewrite Ecol. apply var_repeat_0.
Qed.

Lemma var_column0_data_const : var (column 0 data_const) = 0.
Proof.
  unfold var, data_const, column; cbn [map nth]. rewrite !mean_4. lra.
Qed.

(** Witness of X1: the first feature of the table with a constant
    feature. *)
Lemma constant_feature_witness :
  nth 0 (scale_ (fit data_const)) 1 = 1 /\
  column 0 (X_std data_const) = repeat 0 4 /\
  var (column 0 (X_std data_const)) = 0.
Proof.
  apply (constant_feature_standardizes_to_zero 4 4 data_const 0).
  - exact shape_data_const.
  - lia.
  - lia.
  - exact var_column0_data_const.
Defined.

(** Every column of the standardised table has mean zero, constant features
    included. *)
Lemma mean_axis0_X_std (n m : nat) (data : matrix) :
  shape n m data -> (0 < n)%nat -> mean_axis0 (X_std data) = repeat 0 m.
Proof.
  intros H Hn. unfold mean_axis0.
  pose proof (shape_X_std n m data H) as HX.
  apply (nth_ext _ _ 0 0).
  - now rewrite length_map, length_transpose, (shape_ncols n m _ HX Hn), repeat_length.
  - intros j Hj.
    rewrite length_map, length_transpose, (shape_ncols n m _ HX Hn) in Hj.
    rewrite (nth_map_in _ _ mean (transpose (X_std data)) j 0 [])
      by (now rewrite length_transpose, (shape_ncols n m _ HX Hn)).
    rewrite nth_transpose by (now rewrite (shape_ncols n m _ HX Hn)).
    unfold X_std. rewrite (column_fit_transform n m data j H Hj), mean_standardize.
    symmetry. apply nth_repeat_lt. exact Hj.
Qed.

(** X2. [X_std.mean(0)] is zero in every feature, constant ones included.
    The unpacking [mean_x, mean_y, mean_z = X_std.mean(0)[:-1]] therefore
    yields the origin when the table has four features, and fails for any
    other number of features. *)
Theorem mean_point_is_origin (n m : nat) (data : matrix) :
  shape n m data -> (0 < n)%nat ->
  mean_axis0 (X_std data) = repeat 0 m /\
  (m = 4%nat -> mean_xyz data = Some (0, 0, 0)) /\
  (m <> 4%nat -> mean_xyz data = None).
Proof.
  intros H Hn. pose proof (mean_axis0_X_std n m data H Hn) as E.
  split; [exact E|]. unfold mean_xyz. rewrite E. split.
  - intros ->. reflexivity.
  - intros Hm.
    destruct m as [|[|[|[|[|m]]]]]; try reflexivity. lia.
Qed.

(** Witness of X2: the table with a constant feature. *)
Lemma mean_point_witness :
  mean_axis0 (X_std data_const) = repeat 0 4 /\
  mean_xyz data_const = Some (0, 0, 0).
Proof.
  destruct (mean_point_is_origin 4 4 data_const shape_data_const
              (Nat.lt_0_succ 3)) as [E [F _]].
  split; [exact E|exact (F eq_refl)].
Defined.

(** ** Standardisation: idempotence, change of units *)



Lemma mean_affine (a b : R) (v : vector) :
  (0 < length v)%nat -> mean (map (fun x => a * x + b) v) = a * mean v + b.
Proof.
  intros Hlen. unfold mean. rewrite length_map.
  rewrite (sum_map_add _ (fun x => a * x) (fun _ => b)).
  rewrite (sum_map_scal _ a (fun x => x)), sum_map_id, sum_map_const.
  pose proof (INR_length_pos _ v Hlen). field. lra.
Qed.

Lemma mean_map_scal (A : Type) (c : R) (f : A -> R) (l : list A) :
  mean (map (fun x => c * f x) l) = c * mean (map f l).
Proof. unfold mean. rewrite !length_map, sum_map_scal. unfold Rdiv. ring. Qed.

Lemma var_affine (a b : R) (v : vector) :
  (0 < length v)%nat -> var (map (fun x => a * x + b) v) = a * a * var v.
Proof.
  intros Hlen. unfold var. rewrite (mean_affine a b v Hlen), map_map.
  rewrite <- mean_map_scal. f_equal. apply map_ext. intros x. ring.
Qed.

(** Measuring a feature in other units leaves its standardised values
    unchanged. *)
Lemma standardize_affine (a b : R) (v : vector) :
  0 < a -> standardize (map (fun x => a * x + b) v) = standardize v.
Proof.
  intros Ha. destruct (Nat.eq_dec (length v) 0) as [L|L].
  { apply length_zero_iff_nil in L. now subst v. }
  assert (Hlen : (0 < length v)%nat) by lia.
  unfold standardize. rewrite map_map.
  rewrite (mean_affine a b v Hlen), (var_affine a b v Hlen).
  rewrite sqrt_mult by (try apply Rle_0_sqr; apply var_nonneg).
  rewrite sqrt_square by lra.
  apply map_ext_in. intros x Hx.
  unfold handle_zeros_in_scale.
  destruct (Req_dec_T (sqrt (var v)) 0) as [E|E].
  - rewrite E, Rmult_0_r. destruct (Req_dec_T 0 0) as [_|N]; [|lra].
    assert (Hv : var v = 0) by (apply sqrt_eq_0; [apply var_nonneg|exact E]).
    rewrite (var_0_constant v Hlen Hv x Hx). unfold Rdiv. ring.
  - destruct (Req_dec_T (a * sqrt (var v)) 0) as [N|_].
    + apply Rmult_integral in N. lra.
    + field. split; lra.
Qed.

(** X4. Standardisation does not depend on the units of the features: if
    each feature j of a second table is [a j * x + b j] of the first, with
    [a j > 0], the two tables have the same standardised table. *)
Theorem standardization_ignores_units
    (n m : nat) (data data' : matrix) (a b : nat -> R) :
  shape n m data -> shape n m data' ->
  (forall j, (j < m)%nat -> 0 < a j) ->
  (forall i j, (i < n)%nat -> (j < m)%nat ->
     ent data' i j = a j * ent data i j + b j) ->
  X_std data' = X_std data.
Proof.
  intros H H' Ha Hent.
  apply (matrix_ext n m); try (now apply shape_X_std).
  intros i j Hi Hj. rewrite <- !nth_column. unfold X_std.
  rewrite (column_fit_transform n m data' j H' Hj).
  rewrite (column_fit_transform n m data j H Hj).
  replace (column j data') with (map (fun x => a j * x + b j) (column j data)).
  - now rewrite (standardize_affine (a j) (b j) _ (Ha j Hj)).
  - assert (Ln : length data = n) by (now destruct H).
    assert (Ln' : length data' = n) by (now destruct H').
    apply (nth_ext _ _ 0 0).
    + now rewrite length_map, !length_column, Ln, Ln'.
    + intros k Hk. rewrite length_map, length_column, Ln in Hk.
      rewrite (nth_map_in _ _ (fun x => a j * x + b j) (column j data) k 0 0)
        by (now rewrite length_column, Ln).
      rewrite !nth_column. symmetry. now apply Hent.
Qed.

(** Witness of X4: the table with a constant feature, every entry x
    replaced by 2 x + 1. *)
Lemma standardization_units_witness :
  X_std [ [11; 3; 3; 3]; [11; 3; -1; -1]; [11; -1; 3; -1]; [11; -1; -1; 3] ]
  = X_std data_const.
Proof.
  apply (standardization_ignores_units 4 4 data_const _
           (fun _ => 2) (fun _ => 1)).
  - exact shape_data_const.
  - split; [reflexivity|repeat constructor].
  - intros j _. lra.
  - intros i j Hi Hj.
    destruct i as [|[|[|[|i]]]]; try lia;
      destruct j as [|[|[|[|j]]]]; try lia;
      unfold ent, data_const; cbn [nth]; lra.
Defined.

(** ** The covariance matrix as a Gram matrix *)

Lemma nth_standardize_column (n m : nat) (data : matrix) (i j : nat) :
  shape n m data -> (j < m)%nat ->
  nth i (standardize (column j data)) 0 = ent (X_std data) i j.
Proof.
  intros H Hj. unfold X_std.
  now rewrite <- (column_fit_transform n m data j H Hj), nth_column.
Qed.

(** The columns of the standardised table are centred, so their covariance
    is their dot product over N - 1. *)
Lemma ent_Sigma_gram (n m : nat) (data : matrix) (j l : nat) :
  shape n m data -> (0 < n)%nat -> (j < m)%nat -> (l < m)%nat ->
  ent (Sigma data) j l
  = bigsum n (fun i => ent (X_std data) i j * ent (X_std data) i l)
    / (INR n - 1).
Proof.
  intros H Hn Hj Hl.
  assert (Ln : length data = n) by (now destruct H).
  rewrite (ent_Sigma n m data j l H Hn Hj Hl). unfold covariance.
  rewrite !center_mean_0 by apply mean_standardize.
  rewrite dot_nth by (now rewrite !length_standardize, !length_column).
  rewrite length_standardize, length_column, Ln. f_equal.
  apply bigsum_ext. intros i _.
  now rewrite !(nth_standardize_column n m data i _ H).
Qed.

Lemma shape_map_map (n m : nat) (f : R -> R) (A : matrix) :
  shape n m A -> shape n m (map (map f) A).
Proof.
  intros [Hn Hm]. split; [now rewrite length_map|].
  apply Forall_forall. intros r Hr. apply in_map_iff in Hr.
  destruct Hr as [r' [<- Hr']]. rewrite length_map.
  rewrite Forall_forall in Hm. now apply Hm.
Qed.

Lemma ent_map_map (n m : nat) (f : R -> R) (A : matrix) (i j : nat) :
  shape n m A -> (i < n)%nat -> (j < m)%nat ->
  ent (map (map f) A) i j = f (ent A i j).
Proof.
  intros H Hi Hj. unfold ent.
  rewrite (nth_map_in _ _ (map f) A i [] []) by (destruct H; lia).
  now rewrite (nth_map_in _ _ f (nth i A []) j 0 0)
    by (rewrite (shape_row n m A i H Hi); exact Hj).
Qed.

(** X5. The columns of [X_std] being centred, [np.cov(X_std.T)] is
    [X_std.T @ X_std / (N - 1)]. *)
Theorem covariance_matrix_is_gram_matrix (n m : nat) (data : matrix) :
  shape n m data -> (2 <= n)%nat ->
  Sigma data
  = map (map (fun x => x / (INR n - 1)))
        (matmul (transpose (X_std data)) (X_std data)).
Proof.
  intros H Hn. assert (Hn0 : (0 < n)%nat) by lia.
  pose proof (shape_X_std n m data H) as HX.
  pose proof (shape_transpose n m _ HX Hn0) as HT.
  pose proof (shape_matmul m n m _ _ HT HX Hn0) as HM.
  apply (matrix_ext m m).
  - now apply (shape_Sigma n m).
  - now apply shape_map_map.
  - intros j l Hj Hl.
    rewrite (ent_map_map m m _ _ j l HM Hj Hl).
    rewrite (ent_matmul_sum m n m _ _ j l HT HX Hj Hl).
    rewrite (ent_Sigma_gram n m data j l H Hn0 Hj Hl). f_equal.
    apply bigsum_ext. intros i Hi.
    now rewrite (ent_transpose n m _ i j HX Hi Hj).
Qed.

(** Witness of X5: the table with a constant feature. *)
Lemma covariance_matrix_gram_witness :
  Sigma data_const
  = map (map (fun x => x / (INR 4 - 1)))
        (matmul (transpose (X_std data_const)) (X_std data_const)).
Proof.
  apply (covariance_matrix_is_gram_matrix 4 4 data_const).
  - exact shape_data_const.
  - lia.
Defined.

(** The quadratic form of the covariance matrix is a sum of squares. *)
Lemma Sigma_quadratic_form (n m : nat) (data : matrix) (x : vector) :
  shape n m data -> (0 < n)%nat -> length x = m ->
  dot x (matvec (Sigma data) x)
  = bigsum n (fun i =>
      bigsum m (fun j => ent (X_std data) i j * nth j x 0)
      * bigsum m (fun j => ent (X_std data) i j * nth j x 0))
    / (INR n - 1).
Proof.
  intros H Hn Hx.
  pose proof (shape_Sigma n m data H Hn) as HS.
  assert (Ls : length (Sigma data) = m) by (now destruct HS).
  rewrite dot_nth by (unfold matvec; now rewrite length_map, Ls).
  rewrite Hx, <- gram_quadratic_form.
  unfold Rdiv. rewrite <- bigsum_scal_r.
  apply bigsum_ext. intros j Hj.
  rewrite nth_matvec by (rewrite Ls; exact Hj).
  rewrite dot_nth by (rewrite (shape_row m m _ j HS Hj); now rewrite Hx).
  rewrite (shape_row m m _ j HS Hj).
  rewrite Rmult_assoc. f_equal. rewrite <- bigsum_scal_r.
  apply bigsum_ext. intros l Hl.
  fold (ent (Sigma data) j l).
  rewrite (ent_Sigma_gram n m data j l H Hn Hj Hl). unfold Rdiv. ring.
Qed.

(** X6. The covariance matrix of the standardised data is symmetric and
    positive semi-definite: [x @ (Σ @ x) >= 0] for every vector x with one
    entry per feature. *)
Theorem covariance_matrix_symmetric_positive_semidefinite
    (n m : nat) (data : matrix) :
  shape n m data -> (2 <= n)%nat ->
  (forall j l, (j < m)%nat -> (l < m)%nat ->
     ent (Sigma data) j l = ent (Sigma data) l j) /\
  (forall x, length x = m -> 0 <= dot x (matvec (Sigma data) x)).
Proof.
  intros H Hn. assert (Hn0 : (0 < n)%nat) by lia. split.
  - intros j l Hj Hl. now apply (Sigma_symmetric n m).
  - intros x Hx. rewrite (Sigma_quadratic_form n m data x H Hn0 Hx).
    apply Rmult_le_pos.
    + apply bigsum_nonneg. intros i _. apply Rle_0_sqr.
    + left. apply Rinv_0_lt_compat. apply le_INR in Hn. simpl in Hn. lra.
Qed.

(** Witness of X6: the table with a constant feature. *)
Lemma covariance_matrix_psd_witness :
  (forall j l, (j < 4)%nat -> (l < 4)%nat ->
     ent (Sigma data_const) j l = ent (Sigma data_const) l j) /\
  (forall x, length x = 4%nat -> 0 <= dot x (matvec (Sigma data_const) x)).
Proof.
  apply (covariance_matrix_symmetric_positive_semidefinite 4 4 data_const).
  - exact shape_data_const.
  - lia.
Defined.

Lemma bigsum_le (n : nat) (f g : nat -> R) :
  (forall i, (i < n)%nat -> f i <= g i) -> bigsum n f <= bigsum n g.
Proof.
  intros Hle.
  assert (E : bigsum n g = bigsum n f + bigsum n (fun i => g i - f i)).
  { rewrite <- bigsum_add. apply bigsum_ext. intros i _. ring. }
  rewrite E.
  assert (0 <= bigsum n (fun i => g i - f i))
    by (apply bigsum_nonneg; intros i Hi; specialize (Hle i Hi); lra).
  lra.
Qed.

(** A standardised feature has squared length N, or 0 if it is constant. *)
Lemma sum_sq_X_std_le (n m : nat) (data : matrix) (j : nat) :
  shape n m data -> (0 < n)%nat -> (j < m)%nat ->
  bigsum n (fun i => ent (X_std data) i j * ent (X_std data) i j) <= INR n.
Proof.
  intros H Hn Hj.
  assert (Ln : length (column j data) = n)
    by (rewrite length_column; now destruct H).
  assert (E : bigsum n (fun i => ent (X_std data) i j * ent (X_std data) i j)
              = sum (map (fun z => z * z) (standardize (column j data)))).
  { rewrite (sum_map_nth _ (fun z => z * z) _ 0), length_standardize, Ln.
    apply bigsum_ext. intros i _.
    now rewrite (nth_standardize_column n m data i j H Hj). }
  rewrite E. destruct (Req_dec_T (var (column j data)) 0) as [V|V].
  - rewrite standardize_var_0 by (rewrite ?Ln; assumption).
    rewrite map_map, sum_map_const. rewrite Rmult_0_l, Rmult_0_r.
    apply pos_INR.
  - rewrite (sum_sq_standardize _ V), Ln. lra.
Qed.

(** X7. Every entry of the covariance matrix of the standardised data lies
    between -N/(N-1) and N/(N-1). *)
Theorem covariance_matrix_entries_bounded (n m : nat) (data : matrix) (j l : nat) :
  shape n m data -> (2 <= n)%nat -> (j < m)%nat -> (l < m)%nat ->
  - (INR n / (INR n - 1)) <= ent (Sigma data) j l <= INR n / (INR n - 1).
Proof.
  intros H Hn Hj Hl. assert (Hn0 : (0 < n)%nat) by lia.
  rewrite (ent_Sigma_gram n m data j l H Hn0 Hj Hl).
  pose proof (sum_sq_X_std_le n m data j H Hn0 Hj) as Bj.
  pose proof (sum_sq_X_std_le n m data l H Hn0 Hl) as Bl.
  set (X := X_std data) in *.
  set (Saa := bigsum n (fun i => ent X i j * ent X i j)) in *.
  set (Sbb := bigsum n (fun i => ent X i l * ent X i l)) in *.
  set (Sab := bigsum n (fun i => ent X i j * ent X i l)) in *.
  pose (a := fun i => ent X i j). pose (b := fun i => ent X i l).
  assert (Hup : 2 * bigsum n (fun i => a i * b i)
                <= bigsum n (fun i => a i * a i) + bigsum n (fun i => b i * b i)).
  { rewrite <- bigsum_scal, <- bigsum_add. apply bigsum_le. intros i _.
    pose proof (Rle_0_sqr (a i - b i)) as S. unfold Rsqr in S. lra. }
  assert (Hlo : - (bigsum n (fun i => a i * a i) + bigsum n (fun i => b i * b i))
                <= 2 * bigsum n (fun i => a i * b i)).
  { rewrite <- bigsum_scal, <- bigsum_add.
    replace (- bigsum n (fun i => a i * a i + b i * b i))
      with (bigsum n (fun i => -1 * (a i * a i + b i * b i)))
      by (rewrite bigsum_scal; ring).
    apply bigsum_le. intros i _.
    pose proof (Rle_0_sqr (a i + b i)) as S. unfold Rsqr in S. lra. }
  change (bigsum n (fun i => a i * a i)) with Saa in Hup, Hlo.
  change (bigsum n (fun i => b i * b i)) with Sbb in Hup, Hlo.
  change (bigsum n (fun i => a i * b i)) with Sab in Hup, Hlo.
  assert (Hd : 0 < / (INR n - 1)).
  { apply Rinv_0_lt_compat. apply le_INR in Hn. simpl in Hn. lra. }
  unfold Rdiv. split.
  - replace (- (INR n * / (INR n - 1))) with (- INR n * / (INR n - 1)) by ring.
    apply Rmult_le_compat_r; lra.
  - apply Rmult_le_compat_r; lra.
Qed.

(** Witness of X7: an off-diagonal entry on the table with a constant
    feature. *)
Lemma covariance_matrix_entries_witness :
  - (INR 4 / (INR 4 - 1)) <= ent (Sigma data_const) 1 2 <= INR 4 / (INR 4 - 1).
Proof.
  apply (covariance_matrix_entries_bounded 4 4 data_const 1 2).
  - exact shape_data_const.
  - lia.
  - lia.
  - lia.
Defined.

(** ** Variances of the projected coordinates *)

Lemma gram_bilinear_form (n m : nat) (C : nat -> nat -> R) (a b : nat -> R) :
  bigsum m (fun j => a j * bigsum m (fun l =>
      bigsum n (fun i => C i j * C i l) * b l))
  = bigsum n (fun i => bigsum m (fun j => C i j * a j)
                       * bigsum m (fun l => C i l * b l)).
Proof.
  transitivity (bigsum m (fun j => bigsum n (fun i =>
      (C i j * a j) * bigsum m (fun l => C i l * b l)))).
  - apply bigsum_ext. intros j _.
    rewrite <- bigsum_scal.
    rewrite (bigsum_ext m _ (fun l => bigsum n (fun i => a j * (C i j * C i l * b l)))).
    + rewrite bigsum_swap. apply bigsum_ext. intros i _.
      rewrite <- bigsum_scal. apply bigsum_ext. intros l _. lra.
    + intros l _. rewrite <- bigsum_scal_r, <- bigsum_scal.
      apply bigsum_ext. intros i _. lra.
  - rewrite bigsum_swap. apply bigsum_ext. intros i _.
    now rewrite <- bigsum_scal_r.
Qed.

Lemma covariance_centred (u v : vector) :
  length u = length v -> mean u = 0 -> mean v = 0 ->
  covariance u v
  = bigsum (length u) (fun i => nth i u 0 * nth i v 0) / (INR (length u) - 1).
Proof.
  intros L Mu Mv. unfold covariance.
  rewrite (center_mean_0 u Mu), (center_mean_0 v Mv).
  now rewrite dot_nth.
Qed.

(** Two linear combinations of centred features: both have mean zero, and
    their covariance is the bilinear form of the features' covariances. *)
Lemma covariance_of_projections
    (n m : nat) (C : nat -> nat -> R) (a b : nat -> R) (u v : vector) :
  (0 < n)%nat -> length u = n -> length v = n ->
  (forall i, (i < n)%nat -> nth i u 0 = bigsum m (fun j => C i j * a j)) ->
  (forall i, (i < n)%nat -> nth i v 0 = bigsum m (fun j => C i j * b j)) ->
  (forall j, (j < m)%nat -> bigsum n (fun i => C i j) = 0) ->
  mean u = 0 /\
  covariance u v
  = bigsum m (fun j => a j * bigsum m (fun l =>
      bigsum n (fun i => C i j * C i l) / (INR n - 1) * b l)).
Proof.
  intros Hn Lu Lv Hu Hv Hc.
  assert (Hmean : forall (w : vector) (c : nat -> R), length w = n ->
            (forall i, (i < n)%nat -> nth i w 0 = bigsum m (fun j => C i j * c j)) ->
            mean w = 0).
  { intros w c Lw Hw. unfold mean. rewrite sum_nth, Lw.
    rewrite (bigsum_ext n _ (fun i => bigsum m (fun j => C i j * c j))) by exact Hw.
    rewrite bigsum_swap.
    rewrite (bigsum_ext m _ (fun _ => 0)).
    - rewrite bigsum_0. unfold Rdiv. ring.
    - intros j Hj. rewrite bigsum_scal_r, (Hc j Hj). ring. }
  pose proof (Hmean u a Lu Hu) as Mu. pose proof (Hmean v b Lv Hv) as Mv.
  split; [exact Mu|].
  rewrite (covariance_centred u v) by (assumption || congruence).
  rewrite Lu.
  rewrite (bigsum_ext n _ (fun i => bigsum m (fun j => C i j * a j)
                                    * bigsum m (fun l => C i l * b l)))
    by (intros i Hi; now rewrite (Hu i Hi), (Hv i Hi)).
  rewrite <- gram_bilinear_form.
  unfold Rdiv. rewrite <- bigsum_scal_r. apply bigsum_ext. intros j _.
  rewrite Rmult_assoc. f_equal. rewrite <- bigsum_scal_r.
  apply bigsum_ext. intros l _. ring.
Qed.

Lemma sum_standardize (v : vector) : sum (standardize v) = 0.
Proof.
  destruct (Nat.eq_dec (length v) 0) as [E|E].
  - apply length_zero_iff_nil in E. now subst.
  - pose proof (mean_standardize v) as M. unfold mean in M.
    rewrite length_standardize in M.
    assert (Hn : 0 < INR (length v)) by (apply lt_0_INR; lia).
    apply (Rmult_eq_reg_r (/ INR (length v))).
    + unfold Rdiv in M. rewrite M. ring.
    + apply Rinv_neq_0_compat. lra.
Qed.

Lemma sum_column_X_std (n m : nat) (data : matrix) (j : nat) :
  shape n m data -> (j < m)%nat ->
  bigsum n (fun i => ent (X_std data) i j) = 0.
Proof.
  intros H Hj.
  rewrite <- (sum_standardize (column j data)).
  rewrite sum_nth, length_standardize, length_column.
  destruct H as [Ln Hm]. rewrite Ln. apply bigsum_ext. intros i _.
  symmetry. apply (nth_standardize_column n m data i j (conj Ln Hm) Hj).
Qed.

(** X8. Each of the two columns of [Y = X_std @ W] has mean zero and, as
    [np.cov] computes it, the variance [evals[k]], the eigenvalue of the
    eigenvector it is projected on; if the two eigenvalues differ, the two
    columns are uncorrelated. *)
Theorem projected_coordinates_have_eigenvalue_variance
    (eig : matrix -> vector * matrix) (n m : nat) (data : matrix) :
  shape n m data -> (2 <= n)%nat -> (2 <= m)%nat ->
  eig_contract (Sigma data) (evals eig data) (evecs eig data) ->
  (forall k, (k < 2)%nat ->
     mean (column k (Y eig data)) = 0 /\
     covariance (column k (Y eig data)) (column k (Y eig data))
       = nth k (evals eig data) 0) /\
  (nth 0 (evals eig data) 0 <> nth 1 (evals eig data) 0 ->
   covariance (column 0 (Y eig data)) (column 1 (Y eig data)) = 0).
Proof.
  intros H Hn Hm HE. assert (Hn0 : (0 < n)%nat) by lia.
  pose proof (shape_Sigma n m data H Hn0) as HS.
  assert (HV : shape m m (evecs eig data)).
  { destruct HE as [_ Hsh _ _ _].
    now rewrite (nrows_Sigma n m data H Hn0) in Hsh. }
  assert (LY : forall k, length (column k (Y eig data)) = n).
  { intros k. rewrite length_column. unfold Y, matmul. rewrite length_map.
    destruct (shape_X_std n m data H) as [L _]. exact L. }
  assert (Hcov : forall k l, (k < 2)%nat -> (l < 2)%nat ->
            mean (column k (Y eig data)) = 0 /\
            covariance (column k (Y eig data)) (column l (Y eig data))
            = nth l (evals eig data) 0
              * bigsum m (fun j => ent (evecs eig data) j k
                                   * ent (evecs eig data) j l)).
  { intros k l Hk Hl.
    destruct (covariance_of_projections n m (fun i j => ent (X_std data) i j)
                (fun j => ent (evecs eig data) j k)
                (fun j => ent (evecs eig data) j l)
                (column k (Y eig data)) (column l (Y eig data))
                Hn0 (LY k) (LY l)) as [M C].
    - intros i Hi. rewrite nth_column. now apply (ent_Y eig n m).
    - intros i Hi. rewrite nth_column. now apply (ent_Y eig n m).
    - intros j Hj. now apply (sum_column_X_std n m).
    - split; [exact M|]. rewrite C. rewrite <- bigsum_scal.
      apply bigsum_ext. intros j Hj.
      rewrite (bigsum_ext m _ (fun l' => ent (Sigma data) j l'
                                         * ent (evecs eig data) l' l))
        by (intros l' Hl'; now rewrite (ent_Sigma_gram n m data j l' H Hn0 Hj Hl')).
      rewrite (eig_pair_ent m (Sigma data) _ _ HS HE j l Hj) by lia. ring. }
  split.
  - intros k Hk. destruct (Hcov k k Hk Hk) as [M C]. split; [exact M|].
    rewrite C, (eig_unit_ent m (Sigma data) _ _ HS HE k) by lia. ring.
  - intros Hne. destruct (Hcov 0%nat 1%nat) as [_ C]; try lia.
    rewrite C.
    pose proof (eigvecs_orthogonal n m data _ _ 0 1 H Hn0 HE) as O.
    rewrite dot_nth in O by (now rewrite !length_column).
    rewrite length_column in O. destruct HV as [LV _]. rewrite LV in O.
    rewrite (bigsum_ext m _ (fun j => nth j (column 0 (evecs eig data)) 0
                                      * nth j (column 1 (evecs eig data)) 0))
      by (intros j _; now rewrite !nth_column).
    rewrite O by (assumption || lia). ring.
Qed.

(** Witness of X8: the table of equal variances. *)
Lemma projected_coordinates_witness :
  (forall k, (k < 2)%nat ->
     mean (column k (Y eig_hadamard4 data_equalvar)) = 0 /\
     covariance (column k (Y eig_hadamard4 data_equalvar))
                (column k (Y eig_hadamard4 data_equalvar))
       = nth k (evals eig_hadamard4 data_equalvar) 0) /\
  (nth 0 (evals eig_hadamard4 data_equalvar) 0
     <> nth 1 (evals eig_hadamard4 data_equalvar) 0 ->
   covariance (column 0 (Y eig_hadamard4 data_equalvar))
              (column 1 (Y eig_hadamard4 data_equalvar)) = 0).
Proof.
  apply (projected_coordinates_have_eigenvalue_variance eig_hadamard4 4 4
           data_equalvar).
  - exact shape_data_equalvar.
  - lia.
  - lia.
  - exact eig_contract_data_equalvar.
Defined.

Lemma covariance_columns (n m : nat) (data : matrix) (j l : nat) :
  shape n m data ->
  covariance (column j data) (column l data)
  = bigsum n (fun i => (ent data i j - mean (column j data))
                       * (ent data i l - mean (column l data)))
    / (INR n - 1).
Proof.
  intros [Ln _]. unfold covariance.
  rewrite dot_nth by (now rewrite !length_center, !length_column).
  rewrite length_center, length_column, Ln. f_equal.
  apply bigsum_ext. intros i Hi. unfold center.
  rewrite (nth_map_in _ _ (fun x => x - mean (column j data)) _ i 0 0)
    by (now rewrite length_column, Ln).
  rewrite (nth_map_in _ _ (fun x => x - mean (column l data)) _ i 0 0)
    by (now rewrite length_column, Ln).
  now rewrite !nth_column.
Qed.

(** X9. With three positive explained variances, [X_pca] has N rows and
    three columns; each column has mean zero and, as [np.cov] computes it,
    variance one, and two different columns have covariance zero: whitening
    makes [np.cov(X_pca.T)] the identity. *)
Theorem whitened_components_are_standardized_and_uncorrelated
    (pca_fit : matrix -> PCA.t) (n m : nat) (data : matrix) :
  shape n m data -> (2 <= n)%nat ->
  PCA.fitted 3 true data (pca pca_fit data) ->
  (forall k, (k < 3)%nat ->
     0 < nth k (PCA.explained_variance_ (pca pca_fit data)) 0) ->
  shape n 3 (X_pca pca_fit data) /\
  forall k l, (k < 3)%nat -> (l < 3)%nat ->
    mean (column k (X_pca pca_fit data)) = 0 /\
    covariance (column k (X_pca pca_fit data)) (column l (X_pca pca_fit data))
      = delta k l.
Proof.
  intros H Hn HP Hpos. assert (Hn0 : (0 < n)%nat) by lia.
  set (p := pca pca_fit data) in *.
  assert (Ln : length data = n) by (now destruct H).
  assert (HX : shape n 3 (X_pca pca_fit data)).
  { unfold X_pca, PCA.transform. fold p. split.
    - now rewrite length_map.
    - apply Forall_forall. intros r Hr. apply in_map_iff in Hr.
      destruct Hr as [row [<- _]]. rewrite length_map, length_seq.
      now destruct HP. }
  split; [exact HX|]. intros k l Hk Hl.
  set (c := fun k j => nth j (nth k (PCA.components_ p) []) 0).
  set (ev := fun k => nth k (PCA.explained_variance_ p) 0).
  destruct (covariance_of_projections n m
              (fun i j => ent data i j - mean (column j data))
              (fun j => c k j / sqrt (ev k)) (fun j => c l j / sqrt (ev l))
              (column k (X_pca pca_fit data)) (column l (X_pca pca_fit data)) Hn0)
    as [M C].
  - rewrite length_column. now destruct HX.
  - rewrite length_column. now destruct HX.
  - intros i Hi. rewrite nth_column, (ent_X_pca pca_fit n m data i k H HP Hi Hk).
    fold p. unfold Rdiv. rewrite <- bigsum_scal_r.
    apply bigsum_ext. intros j _. unfold c, ev. ring.
  - intros i Hi. rewrite nth_column, (ent_X_pca pca_fit n m data i l H HP Hi Hl).
    fold p. unfold Rdiv. rewrite <- bigsum_scal_r.
    apply bigsum_ext. intros j _. unfold c, ev. ring.
  - intros j Hj.
    rewrite <- (sum_center (column j data)) by (rewrite length_column; lia).
    rewrite (sum_map_nth _ (fun x => x - mean (column j data)) _ 0).
    rewrite length_column, Ln. apply bigsum_ext. intros i _.
    now rewrite nth_column.
  - split; [exact M|]. rewrite C.
    assert (Hsk : 0 < sqrt (ev k)) by (apply sqrt_lt_R0, Hpos, Hk).
    assert (Hsl : 0 < sqrt (ev l)) by (apply sqrt_lt_R0, Hpos, Hl).
    transitivity (ev l / (sqrt (ev k) * sqrt (ev l))
                  * bigsum m (fun j => c k j * c l j)).
    + rewrite <- bigsum_scal. apply bigsum_ext. intros j Hj.
      rewrite (bigsum_ext m _ (fun l' => / sqrt (ev l)
                 * (ent (cov (transpose data)) j l' * c l l'))).
      * rewrite bigsum_scal. unfold c at 2.
        rewrite (pca_pair_ent p n m data l j H Hn0 HP Hl Hj).
        unfold c, ev in *. field. split; lra.
      * intros l' Hl'. rewrite (ent_cov_raw n m data j l' H Hn0 Hj Hl').
        rewrite (covariance_columns n m data j l' H).
        unfold Rdiv. ring.
    + unfold delta. destruct (Nat.eq_dec k l) as [->|Hne].
      * unfold c. rewrite (pca_unit_ent p n m data l H Hn0 HP Hl).
        rewrite sqrt_sqrt by (left; apply Hpos, Hl).
        field. pose proof (Hpos l Hl). unfold ev. lra.
      * destruct HP as [_ _ _ Hsh _ _ _ Ho _].
        rewrite (shape_ncols n m data H Hn0) in Hsh.
        specialize (Ho k l Hk Hl Hne).
        rewrite dot_nth in Ho
          by (now rewrite (shape_row 3 m _ k Hsh Hk), (shape_row 3 m _ l Hsh Hl)).
        rewrite (shape_row 3 m _ k Hsh Hk) in Ho.
        unfold c. rewrite Ho. ring.
Qed.

(** Witness of X9: the table of equal variances. *)
Lemma whitened_components_witness :
  shape 4 3 (X_pca pca_fit_equalvar data_equalvar) /\
  forall k l, (k < 3)%nat -> (l < 3)%nat ->
    mean (column k (X_pca pca_fit_equalvar data_equalvar)) = 0 /\
    covariance (column k (X_pca pca_fit_equalvar data_equalvar))
               (column l (X_pca pca_fit_equalvar data_equalvar))
      = delta k l.
Proof.
  apply (whitened_components_are_standardized_and_uncorrelated
           pca_fit_equalvar 4 4 data_equalvar).
  - exact shape_data_equalvar.
  - lia.
  - exact pca_fitted_data_equalvar.
  - intros k Hk. unfold pca, pca_fit_equalvar. cbn [PCA.explained_variance_].
    destruct k as [|[|[|k]]]; cbn [nth]; lra || lia.
Defined.

(** ** The plots of explained variance; the projection table *)

Lemma length_sort (v : vector) : length (sort v) = length v.
Proof. apply Permutation_length, sort_perm. Qed.

Lemma length_cumsum_from (acc : R) (v : vector) :
  length (cumsum_from acc v) = length v.
Proof.
  revert acc. induction v as [|x v IH]; intros acc; simpl; [reflexivity|].
  now rewrite IH.
Qed.

Lemma length_variance_explained (eig : matrix -> vector * matrix) (data : matrix) :
  length (variance_explained eig data) = length (evals eig data).
Proof.
  unfold variance_explained. now rewrite length_map, length_rev, length_sort.
Qed.

(** X10. [variance_explained] has one entry per feature and the cumulative
    curve one more.  The line plot over [range(5)] therefore succeeds exactly
    when the table has four features, and raises otherwise. *)
Theorem explained_variance_plots_need_four_features
    (eig : matrix -> vector * matrix) (n m : nat) (data : matrix) :
  shape n m data -> (0 < n)%nat ->
  eig_contract (Sigma data) (evals eig data) (evecs eig data) ->
  length (variance_explained eig data) = m /\
  length (cumulative_explained eig data) = S m /\
  (m = 4%nat ->
   cumulative_plot eig data
   = Some (combine (range 5) (cumulative_explained eig data))) /\
  (m <> 4%nat -> cumulative_plot eig data = None).
Proof.
  intros H Hn HE.
  assert (Lv : length (variance_explained eig data) = m).
  { rewrite length_variance_explained. destruct HE as [Hw _ _ _ _].
    now rewrite Hw, (nrows_Sigma n m data H Hn). }
  assert (Lc : length (cumulative_explained eig data) = S m).
  { unfold cumulative_explained, cumsum. cbn [length].
    now rewrite length_cumsum_from, Lv. }
  split; [exact Lv|]. split; [exact Lc|].
  unfold cumulative_plot, plot, range.
  rewrite length_map, length_seq, Lc. split.
  - intros ->. reflexivity.
  - intros Hm. destruct (Nat.eqb_spec 5 (S m)); [lia|reflexivity].
Qed.

(** Witness of X10: the table with a constant feature, which has four
    features. *)
Lemma explained_variance_plots_witness :
  length (variance_explained eig_diag4 data_const) = 4%nat /\
  length (cumulative_explained eig_diag4 data_const) = 5%nat /\
  cumulative_plot eig_diag4 data_const
  = Some (combine (range 5) (cumulative_explained eig_diag4 data_const)).
Proof.
  destruct (explained_variance_plots_need_four_features eig_diag4 4 4
              data_const shape_data_const (Nat.lt_0_succ 3)
              eig_contract_data_const) as [L1 [L2 [P _]]].
  split; [exact L1|]. split; [exact L2|exact (P eq_refl)].
Defined.

Lemma shape_Y (eig : matrix -> vector * matrix) (n m : nat) (data : matrix) :
  shape n m data -> (2 <= m)%nat -> shape m m (evecs eig data) ->
  shape n 2 (Y eig data).
Proof.
  intros H Hm HV. unfold Y.
  apply (shape_matmul n m 2); [now apply shape_X_std| now apply shape_W | lia].
Qed.

Lemma column_hstack_l (n p q : nat) (A B : matrix) (k : nat) :
  shape n p A -> shape n q B -> (k < p)%nat ->
  column k (map (fun r => fst r ++ snd r) (combine A B)) = column k A.
Proof.
  intros [LA HA] [LB HB] Hk. subst n. revert B LB HB.
  induction A as [|a A IH]; intros [|b B] LB HB; simpl in LB; try lia.
  - reflexivity.
  - inversion HA; subst. inversion HB; subst.
    cbn [combine map column fst snd]. f_equal.
    + apply app_nth1. lia.
    + apply IH; [assumption|lia|assumption].
Qed.

Lemma column_hstack_r (n p q : nat) (A B : matrix) (k : nat) :
  shape n p A -> shape n q B ->
  column (p + k) (map (fun r => fst r ++ snd r) (combine A B)) = column k B.
Proof.
  intros [LA HA] [LB HB]. subst n. revert B LB HB.
  induction A as [|a A IH]; intros [|b B] LB HB; simpl in LB; try lia.
  - reflexivity.
  - inversion HA; subst. inversion HB; subst.
    cbn [combine map column fst snd]. f_equal.
    + rewrite app_nth2 by lia. f_equal. lia.
    + apply IH; [assumption|lia|assumption].
Qed.

Lemma shape_hstack (n p q : nat) (A B : matrix) :
  shape n p A -> shape n q B ->
  shape n (p + q) (map (fun r => fst r ++ snd r) (combine A B)).
Proof.
  intros [LA HA] [LB HB]. split.
  - rewrite length_map, length_combine. lia.
  - apply Forall_forall. intros r Hr. apply in_map_iff in Hr.
    destruct Hr as [[a b] [<- Hab]]. cbn [fst snd]. rewrite length_app.
    rewrite Forall_forall in HA, HB.
    rewrite (HA a (in_combine_l _ _ _ _ Hab)), (HB b (in_combine_r _ _ _ _ Hab)).
    reflexivity.
Qed.

Lemma shape_reshape_column (v : vector) : shape (length v) 1 (reshape_column v).
Proof.
  unfold reshape_column. split; [now rewrite length_map|].
  apply Forall_forall. intros r Hr. apply in_map_iff in Hr.
  now destruct Hr as [x [<- _]].
Qed.

Lemma column_reshape_column (v : vector) : column 0 (reshape_column v) = v.
Proof.
  unfold reshape_column, column. rewrite map_map. cbn [nth]. apply map_id.
Qed.

(** X12. The table behind [df_proj]: stacking succeeds exactly when there
    is one target per observation; the result then has N rows and three
    columns, the two columns of Y followed by the targets as floating-point
    numbers. *)
Theorem projection_table_columns
    (eig : matrix -> vector * matrix) (n m : nat) (data : matrix)
    (target : list Z) :
  shape n m data -> (2 <= m)%nat -> shape m m (evecs eig data) ->
  (length target = n ->
   exists T, df_proj eig data target = Some T /\ shape n 3 T /\
     column 0 T = column 0 (Y eig data) /\
     column 1 T = column 1 (Y eig data) /\
     column 2 T = map IZR target) /\
  (length target <> n -> df_proj eig data target = None).
Proof.
  intros H Hm HV. pose proof (shape_Y eig n m data H Hm HV) as HY.
  assert (LY : length (Y eig data) = n) by (now destruct HY).
  assert (LR : length (reshape_column (map IZR target)) = length target)
    by (unfold reshape_column; now rewrite !length_map).
  unfold df_proj, hstack. rewrite LY, LR. split.
  - intros Ht. rewrite Ht, Nat.eqb_refl.
    pose proof (shape_reshape_column (map IZR target)) as HR.
    rewrite length_map, Ht in HR.
    eexists. split; [reflexivity|]. split; [|split; [|split]].
    + apply (shape_hstack n 2 1); assumption.
    + apply (column_hstack_l n 2 1); [assumption|assumption|lia].
    + apply (column_hstack_l n 2 1); [assumption|assumption|lia].
    + change 2%nat with (2 + 0)%nat.
      rewrite (column_hstack_r n 2 1 _ _ 0 HY HR).
      apply column_reshape_column.
  - intros Ht. destruct (Nat.eqb_spec n (length target)); [congruence|reflexivity].
Qed.

Lemma sorted_perm_unique (l1 l2 : vector) :
  StronglySorted Rle l1 -> StronglySorted Rle l2 -> Permutation l1 l2 ->
  l1 = l2.
Proof.
  revert l2. induction l1 as [|x l1 IH]; intros l2 S1 S2 P.
  - apply Permutation_nil in P. now subst.
  - destruct l2 as [|y l2].
    { apply Permutation_sym, Permutation_nil in P. discriminate. }
    inversion S1 as [|? ? S1' F1]; subst. inversion S2 as [|? ? S2' F2]; subst.
    rewrite Forall_forall in F1, F2.
    assert (E : x = y).
    { assert (Hx : In x (y :: l2))
        by (apply (Permutation_in _ P); now left).
      assert (Hy : In y (x :: l1))
        by (apply (Permutation_in _ (Permutation_sym P)); now left).
      destruct Hx as [Hx|Hx]; [now subst|].
      destruct Hy as [Hy|Hy]; [now subst|].
      apply Rle_antisym; [now apply F1|now apply F2]. }
    subst y. f_equal. apply IH; try assumption.
    now apply Permutation_cons_inv in P.
Qed.

(** X11. The fractions of variance explained and their cumulative curve do
    not depend on the order in which the solver returns the eigenvalues: two
    answers whose eigenvalues are permutations of each other give the same
    two arrays. *)
Theorem explained_variance_independent_of_eigenvalue_order
    (eig eig' : matrix -> vector * matrix) (data : matrix) :
  Permutation (evals eig data) (evals eig' data) ->
  variance_explained eig data = variance_explained eig' data /\
  cumulative_explained eig data = cumulative_explained eig' data.
Proof.
  intros P.
  assert (E : variance_explained eig data = variance_explained eig' data).
  { unfold variance_explained, total. rewrite (sum_perm _ _ P).
    f_equal. f_equal. apply sorted_perm_unique; try apply sort_sorted.
    apply (Permutation_trans (sort_perm _)).
    apply (Permutation_trans P). apply Permutation_sym, sort_perm. }
  split; [exact E|]. unfold cumulative_explained. now rewrite E.
Qed.

(** Witness of X11: the eigenvalues of the table with a constant feature,
    returned with the zero first or last. *)
Lemma explained_variance_order_witness :
  variance_explained eig_diag4 data_const
  = variance_explained (fun A => ([4/3; 4/3; 4/3; 0], eye 4)) data_const /\
  cumulative_explained eig_diag4 data_const
  = cumulative_explained (fun A => ([4/3; 4/3; 4/3; 0], eye 4)) data_const.
Proof.
  apply (explained_variance_independent_of_eigenvalue_order eig_diag4
           (fun A => ([4/3; 4/3; 4/3; 0], eye 4)) data_const).
  rewrite evals_data_const. unfold evals. cbn [fst].
  apply (Permutation_cons_append [4/3; 4/3; 4/3] 0).
Defined.

(** Witness of X12: the table with a constant feature and four
    targets. *)
Lemma projection_table_witness :
  exists T, df_proj eig_diag4 data_const [0; 1; 2; 1]%Z = Some T /\
    shape 4 3 T /\
    column 0 T = column 0 (Y eig_diag4 data_const) /\
    column 1 T = column 1 (Y eig_diag4 data_const) /\
    column 2 T = map IZR [0; 1; 2; 1]%Z.
Proof.
  assert (HV : shape 4 4 (evecs eig_diag4 data_const)).
  { rewrite evecs_data_const. split; [reflexivity|repeat constructor]. }
  destruct (projection_table_columns eig_diag4 4 4 data_const [0; 1; 2; 1]%Z
              shape_data_const ltac:(lia) HV)
    as [P _].
  exact (P eq_refl).
Defined.

(** ** Names of the variables *)

Lemma substring_append_l (s t : String.string) :
  String.substring 0 (String.length s) (String.append s t) = s.
Proof.
  induction s as [|c s IH]; simpl.
  - now destruct t.
  - now rewrite IH.
Qed.

Lemma length_append (s t : String.string) :
  String.length (String.append s t) = (String.length s + String.length t)%nat.
Proof. induction s as [|c s IH]; simpl; [reflexivity|now rewrite IH]. Qed.

Lemma find_from_range (sub s : String.string) (i : Z) :
  (0 <= i)%Z ->
  find_from sub s i = (-1)%Z \/ (i <= find_from sub s i)%Z.
Proof.
  revert i. induction s as [|c s IH]; intros i Hi; cbn [find_from].
  - destruct (String.prefix sub String.EmptyString); [right; lia|now left].
  - destruct (String.prefix sub (String.String c s)); [right; lia|].
    destruct (IH (i + 1)%Z) as [E|E]; [lia|now left|right; lia].
Qed.

(** Not found: the pattern is a prefix of no suffix. *)
Lemma find_from_not_found (sub : String.string) (c : Ascii.ascii)
    (s : String.string) (i : Z) :
  (0 <= i)%Z -> find_from sub (String.String c s) i = (-1)%Z ->
  String.prefix sub (String.String c s) = false /\
  find_from sub s (i + 1) = (-1)%Z.
Proof.
  intros Hi. cbn [find_from].
  destruct (String.prefix sub (String.String c s)); intros E; [lia|now split].
Qed.

Lemma find_from_String (sub : String.string) (c : Ascii.ascii)
    (s : String.string) (i : Z) :
  find_from sub (String.String c s) i
  = if String.prefix sub (String.String c s) then i
    else find_from sub s (i + 1)%Z.
Proof. reflexivity. Qed.

(** [" ("] cannot start inside [pre] and end in the appended [" ("]: its
    second character is not a blank. *)
Lemma prefix_unit_append (c : Ascii.ascii) (pre post : String.string) :
  String.prefix " ("%string (String.String c pre) = false ->
  String.prefix " ("%string
    (String.String c (String.append pre (String.append " ("%string post)))
  = false.
Proof.
  intros Hp. cbn [String.prefix] in Hp |- *.
  destruct (Ascii.ascii_dec " "%char c) as [_|_]; [|reflexivity].
  destruct pre as [|d pre]; cbn [String.append String.prefix] in Hp |- *.
  - reflexivity.
  - destruct (Ascii.ascii_dec "("%char d); [|reflexivity].
    destruct pre; discriminate.
Qed.

Lemma find_from_first_unit (pre post : String.string) (i : Z) :
  (0 <= i)%Z -> find_from " ("%string pre i = (-1)%Z ->
  find_from " ("%string
    (String.append pre (String.append " ("%string post)) i
  = (i + Z.of_nat (String.length pre))%Z.
Proof.
  revert i. induction pre as [|c pre IH]; intros i Hi Hnf.
  - destruct post; cbn; lia.
  - destruct (find_from_not_found _ c pre i Hi Hnf) as [Hp Hrest].
    change (String.append (String.String c pre) (String.append " ("%string post))
      with (String.String c (String.append pre (String.append " ("%string post))).
    rewrite find_from_String, (prefix_unit_append c pre post Hp).
    rewrite (IH (i + 1)%Z) by (lia || assumption).
    cbn [String.length]. lia.
Qed.

(** X13. For a name [pre + ' (' + post] in which [' ('] does not occur
    inside [pre], [find] returns the length of [pre] and
    [name[:name.find(' (')]] is [pre]: the unit is cut off. *)
Theorem variable_name_cuts_before_the_unit (pre post : String.string) :
  find pre " ("%string = (-1)%Z ->
  find (String.append pre (String.append " ("%string post)) " ("%string
    = Z.of_nat (String.length pre) /\
  variable_name (String.append pre (String.append " ("%string post)) = pre.
Proof.
  intros Hnf. unfold find in *.
  pose proof (find_from_first_unit pre post 0%Z ltac:(lia) Hnf) as E.
  rewrite Z.add_0_l in E. split; [exact E|].
  unfold variable_name, find, slice_to. rewrite E.
  rewrite length_append.
  destruct (Z.ltb_spec (Z.of_nat (String.length pre)) 0); [lia|].
  rewrite Z.min_l by lia. rewrite Nat2Z.id. apply substring_append_l.
Qed.

(** Witness of X13: the first feature name of the Iris data set. *)
Lemma variable_name_unit_witness :
  find "sepal length (cm)"%string " ("%string = 12%Z /\
  variable_name "sepal length (cm)"%string = "sepal length"%string.
Proof.
  apply (variable_name_cuts_before_the_unit "sepal length"%string "cm)"%string).
  reflexivity.
Defined.

(** X14. For a non-empty name in which [' ('] does not occur, [find]
    returns -1 and [name[:-1]] drops the last character of the name. *)
Theorem variable_name_without_unit_loses_last_character
    (body : String.string) (c : Ascii.ascii) :
  find (String.append body (String.String c String.EmptyString)) " ("%string
    = (-1)%Z ->
  variable_name (String.append body (String.String c String.EmptyString)) = body.
Proof.
  intros Hnf. unfold variable_name, slice_to. rewrite Hnf.
  rewrite length_append. cbn [String.length].
  change (-1 <? 0)%Z with true. cbv iota.
  replace (Z.to_nat (Z.max 0 (Z.of_nat (String.length body + 1) + -1)))
    with (String.length body) by lia.
  apply substring_append_l.
Qed.

(** Witness of X14: a name without a unit. *)
Lemma variable_name_no_unit_witness :
  variable_name "species"%string = "specie"%string.
Proof.
  apply (variable_name_without_unit_loses_last_character "specie"%string "s"%char).
  reflexivity.
Defined.

(** ** Pairs of features *)

Lemma combinations_1 (A : Type) (l : list A) :
  combinations l 1 = map (fun x => [x]) l.
Proof.
  induction l as [|x l IH]; [reflexivity|].
  cbn [combinations]. rewrite IH.
  destruct l; reflexivity.
Qed.

Lemma combinations_2_cons (A : Type) (x : A) (t : list A) :
  combinations (x :: t) 2 = map (fun y => [x; y]) t ++ combinations t 2.
Proof.
  cbn [combinations]. fold (combinations t 1). rewrite combinations_1, map_map.
  reflexivity.
Qed.

Lemma length_combinations_2 (A : Type) (l : list A) :
  (2 * length (combinations l 2) = length l * (length l - 1))%nat.
Proof.
  induction l as [|x t IH]; [reflexivity|].
  rewrite combinations_2_cons, length_app, length_map. cbn [length].
  nia.
Qed.

Lemma In_combinations_2 (A : Type) (l : list A) (d : A) (xy : list A) :
  In xy (combinations l 2) <->
  exists i j, (i < j)%nat /\ (j < length l)%nat /\ xy = [nth i l d; nth j l d].
Proof.
  revert xy. induction l as [|x t IH]; intros xy.
  - split; [intros []|]. intros [i [j [_ [Hj _]]]]. simpl in Hj. lia.
  - rewrite combinations_2_cons, in_app_iff, in_map_iff, IH. split.
    + intros [[y [<- Hy]]|[i [j [Hij [Hj ->]]]]].
      * destruct (In_nth t y d Hy) as [k [Hk <-]].
        exists 0%nat, (S k). cbn [length nth]. repeat split; lia.
      * exists (S i), (S j). cbn [length nth]. repeat split; lia.
    + intros [i [j [Hij [Hj ->]]]]. cbn [length] in Hj.
      destruct j as [|j]; [lia|]. destruct i as [|i]; cbn [nth].
      * left. exists (nth j t d). split; [reflexivity|]. apply nth_In. lia.
      * right. exists i, j. repeat split; lia.
Qed.

Lemma In_combinations_2_In (A : Type) (l : list A) (x y : A) :
  In [x; y] (combinations l 2) -> In x l /\ In y l.
Proof.
  intros H. apply (In_combinations_2 A l x) in H.
  destruct H as [i [j [Hij [Hj E]]]]. injection E as -> ->.
  split; apply nth_In; lia.
Qed.

Lemma NoDup_combinations_2 (A : Type) (l : list A) :
  NoDup l -> NoDup (combinations l 2).
Proof.
  induction l as [|x t IH]; intros ND.
  - constructor.
  - inversion ND as [|? ? Hx NDt]; subst.
    rewrite combinations_2_cons. apply NoDup_app.
    + apply Finite.Injective_map_NoDup; [|exact NDt].
      intros a b E. now injection E.
    + now apply IH.
    + intros xy H1 H2. apply in_map_iff in H1. destruct H1 as [y [<- _]].
      apply In_combinations_2_In in H2. now destruct H2.
Qed.

(** X15. The loop over [combinations(iris.feature_names, 2)] visits
    m (m - 1) / 2 pairs for m names; unpacking never fails; the pairs are
    exactly the (names[i], names[j]) with i < j; and with distinct names no
    pair is visited twice. *)
Theorem pairwise_plots_cover_each_pair_once (A : Type) (names : list A) (d : A) :
  (2 * length (pairwise_plots names) = length names * (length names - 1))%nat /\
  (forall p, In p (pairwise_plots names) <->
     exists i j, (i < j)%nat /\ (j < length names)%nat /\
       p = Some (nth i names d, nth j names d)) /\
  (NoDup names -> NoDup (pairwise_plots names)).
Proof.
  unfold pairwise_plots. split; [|split].
  - rewrite length_map. apply length_combinations_2.
  - intros p. rewrite in_map_iff. split.
    + intros [xy [<- H]]. apply (In_combinations_2 A names d) in H.
      destruct H as [i [j [Hij [Hj ->]]]]. exists i, j. now repeat split.
    + intros [i [j [Hij [Hj ->]]]]. exists [nth i names d; nth j names d].
      split; [reflexivity|]. apply (In_combinations_2 A names d).
      exists i, j. now repeat split.
  - intros ND. apply Finite.Injective_map_NoDup_in.
    + intros a b Ha Hb E.
      apply (In_combinations_2 A names d) in Ha, Hb.
      destruct Ha as [i [j [_ [_ ->]]]]. destruct Hb as [i' [j' [_ [_ ->]]]].
      cbn [unpack2] in E. now injection E as -> ->.
    + now apply NoDup_combinations_2.
Qed.

(** ** Species labels *)

Lemma getitem_in_range (A : Type) (names : list A) (k : Z) :
  (- Z.of_nat (length names) <= k < Z.of_nat (length names))%Z ->
  getitem names k
  = nth_error names (Z.to_nat (k mod Z.of_nat (length names))) /\
  getitem names k <> None.
Proof.
  intros Hk. set (len := Z.of_nat (length names)) in *.
  assert (E : getitem names k
              = nth_error names (Z.to_nat (k mod len))).
  { unfold getitem. cbv zeta. fold len.
    destruct (Z.leb_spec 0 k) as [H0|H0]; destruct (Z.ltb_spec k len) as [H1|H1];
      cbn [andb]; try lia.
    - now rewrite Z.mod_small by lia.
    - destruct (Z.leb_spec (- len) k); destruct (Z.ltb_spec k 0);
        cbn [andb]; try lia.
      replace (k mod len)%Z with (len + k)%Z; [reflexivity|].
      rewrite <- (Z.mod_small (len + k) len) by lia.
      replace (len + k)%Z with (k + 1 * len)%Z by lia.
      now rewrite Z.mod_add by lia. }
  rewrite E.
  split; [reflexivity|]. apply nth_error_Some.
  pose proof (Z.mod_pos_bound k len ltac:(lia)). unfold len in *. lia.
Qed.

Lemma getitem_out_of_range (A : Type) (names : list A) (k : Z) :
  (k < - Z.of_nat (length names) \/ Z.of_nat (length names) <= k)%Z ->
  getitem names k = None.
Proof.
  intros Hk. unfold getitem. cbv zeta.
  destruct (Z.leb_spec 0 k); destruct (Z.ltb_spec k (Z.of_nat (length names)));
    cbn [andb]; try lia;
  destruct (Z.leb_spec (- Z.of_nat (length names)) k); destruct (Z.ltb_spec k 0);
    cbn [andb]; try lia; reflexivity.
Qed.

Lemma take_in_range (A : Type) (names : list A) (idx : list Z) :
  (forall k, In k idx ->
     (- Z.of_nat (length names) <= k < Z.of_nat (length names))%Z) ->
  exists out, take names idx = Some out /\
    length out = length idx /\
    forall i, (i < length idx)%nat ->
      nth_error out i
      = nth_error names (Z.to_nat (nth i idx 0%Z mod Z.of_nat (length names))).
Proof.
  induction idx as [|k idx IH]; intros Hr.
  - exists []. repeat split. intros i Hi. simpl in Hi. lia.
  - destruct IH as [out [E [L Hn]]]; [intros k' Hk'; apply Hr; now right|].
    destruct (getitem_in_range _ names k (Hr k (or_introl eq_refl))) as [G NN].
    destruct (getitem names k) as [x|] eqn:Gk; [|congruence].
    exists (x :: out). cbn [take]. rewrite Gk, E. repeat split.
    + cbn [length]. now rewrite L.
    + intros [|i] Hi; cbn [nth_error nth]; [exact G|].
      apply Hn. cbn [length] in Hi. lia.
Qed.

Lemma take_out_of_range (A : Type) (names : list A) (idx : list Z) (k : Z) :
  In k idx ->
  (k < - Z.of_nat (length names) \/ Z.of_nat (length names) <= k)%Z ->
  take names idx = None.
Proof.
  intros Hin Hk. induction idx as [|k' idx IH]; [destruct Hin|].
  cbn [take]. destruct Hin as [->|Hin].
  - now rewrite (getitem_out_of_range _ names k Hk).
  - rewrite (IH Hin). now destruct (getitem names k').
Qed.

(** X16. [iris.target_names[iris.target]]: when every target lies in
    [-len, len) there is one label per target, label i being
    [target_names[target[i] mod len]] (a negative target counts from the
    end); when some target lies outside, the indexing raises. *)
Theorem species_labels_follow_the_targets
    (target_names : list String.string) (target : list Z) :
  ((forall k, In k target ->
      (- Z.of_nat (length target_names) <= k < Z.of_nat (length target_names))%Z) ->
   exists labels, species target_names target = Some labels /\
     length labels = length target /\
     forall i, (i < length target)%nat ->
       nth_error labels i
       = nth_error target_names
           (Z.to_nat (nth i target 0%Z mod Z.of_nat (length target_names)))) /\
  ((exists k, In k target /\
      (k < - Z.of_nat (length target_names)
       \/ Z.of_nat (length target_names) <= k)%Z) ->
   species target_names target = None).
Proof.
  unfold species. split.
  - apply take_in_range.
  - intros [k [Hin Hk]]. now apply (take_out_of_range _ _ _ k).
Qed.

(** ** The data frame *)

Lemma lookup_app_l (label : String.string) (cols more : list (String.string * list value)) :
  In label (map fst cols) -> lookup label (cols ++ more) = lookup label cols.
Proof.
  unfold lookup. induction cols as [|[l v] cols IH]; intros H; [destruct H|].
  cbn [app List.find]. unfold has_label at 1 3. cbn [fst].
  destruct (String.eqb_spec l label) as [E|E]; [reflexivity|].
  apply IH. destruct H as [H|H]; [contradiction|exact H].
Qed.

Lemma lookup_app_fresh (label : String.string) (vals : list value)
    (cols : list (String.string * list value)) :
  ~ In label (map fst cols) -> lookup label (cols ++ [(label, vals)]) = Some vals.
Proof.
  unfold lookup. induction cols as [|[l v] cols IH]; intros H.
  - cbn [app List.find]. unfold has_label. cbn [fst].
    now rewrite String.eqb_refl.
  - cbn [app List.find]. unfold has_label at 1. cbn [fst].
    destruct (String.eqb_spec l label) as [E|E].
    + exfalso. apply H. now left.
    + apply IH. intros Hin. apply H. now right.
Qed.

Lemma existsb_has_label_false (label : String.string)
    (cols : list (String.string * list value)) :
  ~ In label (map fst cols) -> existsb (has_label label) cols = false.
Proof.
  induction cols as [|[l v] cols IH]; intros H; [reflexivity|].
  cbn [existsb]. unfold has_label at 1. cbn [fst].
  destruct (String.eqb_spec l label) as [E|E].
  - exfalso. apply H. now left.
  - apply IH. intros Hin. apply H. now right.
Qed.

(** Adding a column under a new label. *)
Lemma set_column_fresh (df : frame) (label : String.string) (vals : list value) :
  ~ In label (map fst (columns df)) -> length vals = index_len df ->
  set_column df label vals
  = Some {| index_len := index_len df;
            columns := columns df ++ [(label, vals)] |}.
Proof.
  intros Hf Hl. unfold set_column.
  now rewrite Hl, Nat.eqb_refl, (existsb_has_label_false label _ Hf).
Qed.

Lemma lookup_combine (labels : list String.string) (cols : list (list value))
    (j : nat) :
  NoDup labels -> length labels = length cols -> (j < length labels)%nat ->
  lookup (nth j labels ""%string) (combine labels cols) = Some (nth j cols []).
Proof.
  unfold lookup. revert cols j.
  induction labels as [|l labels IH]; intros [|c cols] j ND L Hj;
    simpl in L, Hj; try lia.
  inversion ND as [|? ? Hl ND']; subst.
  cbn [combine List.find]. unfold has_label at 1. cbn [fst].
  destruct j as [|j]; cbn [nth].
  - now rewrite String.eqb_refl.
  - destruct (String.eqb_spec l (nth j labels ""%string)) as [E|E].
    + exfalso. apply Hl. rewrite E. apply nth_In. lia.
    + apply IH; [assumption|lia|lia].
Qed.

Lemma map_fst_combine (A B : Type) (l : list A) (l' : list B) :
  length l = length l' -> map fst (combine l l') = l.
Proof.
  revert l'. induction l as [|a l IH]; intros [|b l'] H; simpl in H; try lia.
  - reflexivity.
  - cbn [combine map fst]. f_equal. apply IH. lia.
Qed.

Lemma lookup_feature (n m : nat) (data : matrix)
    (feature_names : list String.string)
    (more : list (String.string * list value)) (j : nat) :
  shape n m data -> (0 < n)%nat -> length feature_names = m ->
  NoDup feature_names -> (j < m)%nat ->
  lookup (nth j feature_names ""%string)
    (combine feature_names (map (map Num) (transpose data)) ++ more)
  = Some (map Num (column j data)).
Proof.
  intros H Hn Lf ND Hj.
  assert (Lc : length feature_names = length (map (map Num) (transpose data))).
  { now rewrite length_map, length_transpose, (shape_ncols n m data H Hn). }
  rewrite lookup_app_l
    by (rewrite (map_fst_combine _ _ _ _ Lc); apply nth_In; lia).
  rewrite lookup_combine by (assumption || lia).
  rewrite (nth_map_in _ _ (map Num) (transpose data) j [] [])
    by (rewrite length_transpose, (shape_ncols n m data H Hn); lia).
  now rewrite nth_transpose by (rewrite (shape_ncols n m data H Hn); lia).
Qed.

(** X17. With distinct feature names, none of them one of the four labels
    added later, one in-range target per observation and a three-component
    PCA, the frame [iris_df] after the three assignments has N rows and the
    columns, in this order: the features, [species], and the three
    components.  Each feature column still holds the raw data, [species]
    the labels, and each component column the matching column of
    [X_pca]. *)
Theorem iris_frame_keeps_every_column
    (pca_fit : matrix -> PCA.t) (n m : nat) (data : matrix)
    (feature_names target_names : list String.string) (target : list Z) :
  shape n m data -> (0 < n)%nat ->
  length feature_names = m -> NoDup feature_names ->
  (forall label,
     In label ["species"; "First Component"; "Second Component";
               "Third Component"]%string ->
     ~ In label feature_names) ->
  length target = n ->
  (forall k, In k target ->
     (- Z.of_nat (length target_names) <= k < Z.of_nat (length target_names))%Z) ->
  PCA.n_components (pca pca_fit data) = 3%nat ->
  exists labels df,
    species target_names target = Some labels /\
    iris_df_with_components pca_fit data feature_names target_names target
      = Some df /\
    index_len df = n /\
    map fst (columns df)
      = feature_names ++ ["species"; "First Component"; "Second Component";
                          "Third Component"]%string /\
    (forall j, (j < m)%nat ->
       get_column df (nth j feature_names ""%string)
       = Some (map Num (column j data))) /\
    get_column df "species"%string = Some (map Str labels) /\
    get_column df "First Component"%string
      = Some (map Num (column 0 (X_pca pca_fit data))) /\
    get_column df "Second Component"%string
      = Some (map Num (column 1 (X_pca pca_fit data))) /\
    get_column df "Third Component"%string
      = Some (map Num (column 2 (X_pca pca_fit data))).
Proof.
  intros H Hn Lf ND Hfresh Lt Hr _.
  destruct (take_in_range _ target_names target Hr) as [labels [Es [Ll _]]].
  fold (species target_names target) in Es.
  exists labels.
  assert (Ln : length data = n) by (now destruct H).
  assert (LX : forall k, length (map Num (column k (X_pca pca_fit data))) = n).
  { intros k. rewrite length_map, length_column. unfold X_pca, PCA.transform.
    now rewrite length_map. }
  set (c0 := combine feature_names (map (map Num) (transpose data))).
  assert (Lc : length feature_names = length (map (map Num) (transpose data))).
  { now rewrite length_map, length_transpose, (shape_ncols n m data H Hn). }
  assert (F0 : map fst c0 = feature_names) by (now apply map_fst_combine).
  assert (E0 : DataFrame data feature_names
               = Some {| index_len := n; columns := c0 |}).
  { unfold DataFrame. rewrite Lf, (shape_ncols n m data H Hn), Nat.eqb_refl.
    unfold nrows. now rewrite Ln. }
  set (sp := ("species"%string, map Str labels)).
  set (k0 := ("First Component"%string, map Num (column 0 (X_pca pca_fit data)))).
  set (k1 := ("Second Component"%string, map Num (column 1 (X_pca pca_fit data)))).
  set (k2 := ("Third Component"%string, map Num (column 2 (X_pca pca_fit data)))).
  assert (Hsp : ~ In "species"%string feature_names)
    by (apply Hfresh; cbn; tauto).
  assert (Hk0 : ~ In "First Component"%string feature_names)
    by (apply Hfresh; cbn; tauto).
  assert (Hk1 : ~ In "Second Component"%string feature_names)
    by (apply Hfresh; cbn; tauto).
  assert (Hk2 : ~ In "Third Component"%string feature_names)
    by (apply Hfresh; cbn; tauto).
  exists {| index_len := n; columns := (((c0 ++ [sp]) ++ [k0]) ++ [k1]) ++ [k2] |}.
  split; [exact Es|]. split; [|split; [reflexivity|split; [|split; [|repeat split]]]].
  - unfold iris_df_with_components, iris_df. rewrite E0, Es. cbn [bind].
    rewrite set_column_fresh; cbn [index_len columns];
      [|now rewrite F0|rewrite length_map; congruence].
    cbn [bind].
    rewrite set_column_fresh; cbn [index_len columns];
      [|rewrite map_app, F0, in_app_iff; cbn; intros [?|[?|[]]];
        [contradiction|discriminate]|apply LX].
    cbn [bind].
    rewrite set_column_fresh; cbn [index_len columns];
      [|rewrite !map_app, F0, !in_app_iff; cbn; intros [[?|[?|[]]]|[?|[]]];
        [contradiction|discriminate|discriminate]|apply LX].
    cbn [bind].
    rewrite set_column_fresh; cbn [index_len columns];
      [|rewrite !map_app, F0, !in_app_iff; cbn;
        intros [[[?|[?|[]]]|[?|[]]]|[?|[]]];
        [contradiction|discriminate|discriminate|discriminate]|apply LX].
    reflexivity.
  - cbn [columns]. rewrite !map_app, F0, <- !app_assoc. reflexivity.
  - intros j Hj. unfold get_column. cbn [columns].
    rewrite <- !app_assoc. unfold c0.
    now apply (lookup_feature n m).
  - unfold get_column. cbn [columns].
    rewrite !lookup_app_l
      by (rewrite ?map_app, ?in_app_iff; cbn; tauto).
    apply lookup_app_fresh. now rewrite F0.
  - unfold get_column. cbn [columns].
    rewrite !lookup_app_l
      by (rewrite ?map_app, ?in_app_iff; cbn; tauto).
    apply lookup_app_fresh.
    rewrite map_app, F0, in_app_iff; cbn; intros [?|[?|[]]];
      [contradiction|discriminate].
  - unfold get_column. cbn [columns].
    rewrite !lookup_app_l
      by (rewrite ?map_app, ?in_app_iff; cbn; tauto).
    apply lookup_app_fresh.
    rewrite !map_app, F0, !in_app_iff; cbn; intros [[?|[?|[]]]|[?|[]]];
      [contradiction|discriminate|discriminate].
  - unfold get_column. cbn [columns].
    apply lookup_app_fresh.
    rewrite !map_app, F0, !in_app_iff; cbn;
      intros [[[?|[?|[]]]|[?|[]]]|[?|[]]];
      [contradiction|discriminate|discriminate|discriminate].
Qed.

(** Witness of X17: the table of equal variances under the feature and
    target names of the Iris data set; the last target is given from the
    end. *)
Lemma iris_frame_witness :
  exists labels df,
    species ["setosa"; "versicolor"; "virginica"]%string [0; 1; 2; -1]%Z
      = Some labels /\
    iris_df_with_components pca_fit_equalvar data_equalvar
      ["sepal length (cm)"; "sepal width (cm)"; "petal length (cm)";
       "petal width (cm)"]%string
      ["setosa"; "versicolor"; "virginica"]%string [0; 1; 2; -1]%Z
      = Some df /\
    index_len df = 4%nat /\
    map fst (columns df)
      = ["sepal length (cm)"; "sepal width (cm)"; "petal length (cm)";
         "petal width (cm)"]%string
        ++ ["species"; "First Component"; "Second Component";
            "Third Component"]%string /\
    (forall j, (j < 4)%nat ->
       get_column df
         (nth j ["sepal length (cm)"; "sepal width (cm)"; "petal length (cm)";
                 "petal width (cm)"]%string ""%string)
       = Some (map Num (column j data_equalvar))) /\
    get_column df "species"%string = Some (map Str labels) /\
    get_column df "First Component"%string
      = Some (map Num (column 0 (X_pca pca_fit_equalvar data_equalvar))) /\
    get_column df "Second Component"%string
      = Some (map Num (column 1 (X_pca pca_fit_equalvar data_equalvar))) /\
    get_column df "Third Component"%string
      = Some (map Num (column 2 (X_pca pca_fit_equalvar data_equalvar))).
Proof.
  apply (iris_frame_keeps_every_column pca_fit_equalvar 4 4 data_equalvar).
  - exact shape_data_equalvar.
  - lia.
  - reflexivity.
  - repeat constructor; cbn; intuition discriminate.
  - intros label Hin Hf. cbn in Hin, Hf.
    repeat (destruct Hin as [<-|Hin]; [intuition discriminate|]).
    exact Hin.
  - reflexivity.
  - intros k Hk. cbn in Hk |- *.
    repeat (destruct Hk as [<-|Hk]; [lia|]). destruct Hk.
  - reflexivity.
Defined.

(** X18. Each pair (x, y) visited by the loop over
    [combinations(iris.feature_names, 2)] names two columns of [iris_df]:
    [iris_df[x]] is feature i and [iris_df[y]] feature j of the raw data, for
    some i < j. *)
Theorem pairwise_plots_find_their_columns
    (n m : nat) (data : matrix)
    (feature_names target_names : list String.string) (target : list Z) :
  shape n m data -> (0 < n)%nat ->
  length feature_names = m -> NoDup feature_names ->
  ~ In "species"%string feature_names ->
  length target = n ->
  (forall k, In k target ->
     (- Z.of_nat (length target_names) <= k < Z.of_nat (length target_names))%Z) ->
  exists df,
    iris_df data feature_names target_names target = Some df /\
    forall p, In p (pairwise_plots feature_names) ->
      exists x y i j, p = Some (x, y) /\ (i < j)%nat /\ (j < m)%nat /\
        get_column df x = Some (map Num (column i data)) /\
        get_column df y = Some (map Num (column j data)).
Proof.
  intros H Hn Lf ND Hsp Lt Hr.
  destruct (take_in_range _ target_names target Hr) as [labels [Es [Ll _]]].
  fold (species target_names target) in Es.
  assert (Ln : length data = n) by (now destruct H).
  set (c0 := combine feature_names (map (map Num) (transpose data))).
  assert (Lc : length feature_names = length (map (map Num) (transpose data))).
  { now rewrite length_map, length_transpose, (shape_ncols n m data H Hn). }
  assert (F0 : map fst c0 = feature_names) by (now apply map_fst_combine).
  exists {| index_len := n; columns := c0 ++ [("species"%string, map Str labels)] |}.
  split.
  - unfold iris_df, DataFrame.
    rewrite Lf, (shape_ncols n m data H Hn), Nat.eqb_refl, Es. cbn [bind].
    unfold nrows. rewrite Ln.
    rewrite set_column_fresh; cbn [index_len columns];
      [reflexivity|now fold c0; rewrite F0|rewrite length_map; congruence].
  - intros p Hp. unfold pairwise_plots in Hp. apply in_map_iff in Hp.
    destruct Hp as [xy [<- Hxy]].
    apply (In_combinations_2 _ feature_names ""%string) in Hxy.
    destruct Hxy as [i [j [Hij [Hj ->]]]]. rewrite Lf in Hj.
    exists (nth i feature_names ""%string), (nth j feature_names ""%string), i, j.
    unfold get_column. cbn [columns unpack2]. unfold c0.
    repeat split; try assumption; apply (lookup_feature n m); assumption || lia.
Qed.

(** Witness of X18: the table of equal variances under the feature names
    of the Iris data set. *)
Lemma pairwise_plots_columns_witness :
  exists df,
    iris_df data_equalvar
      ["sepal length (cm)"; "sepal width (cm)"; "petal length (cm)";
       "petal width (cm)"]%string
      ["setosa"; "versicolor"; "virginica"]%string [0; 1; 2; -1]%Z = Some df /\
    forall p,
      In p (pairwise_plots
              ["sepal length (cm)"; "sepal width (cm)"; "petal length (cm)";
               "petal width (cm)"]%string) ->
      exists x y i j, p = Some (x, y) /\ (i < j)%nat /\ (j < 4)%nat /\
        get_column df x = Some (map Num (column i data_equalvar)) /\
        get_column df y = Some (map Num (column j data_equalvar)).
Proof.
  apply (pairwise_plots_find_their_columns 4 4 data_equalvar).
  - exact shape_data_equalvar.
  - lia.
  - reflexivity.
  - repeat constructor; cbn; intuition discriminate.
  - cbn. intuition discriminate.
  - reflexivity.
  - intros k Hk. cbn in Hk |- *.
    repeat (destruct Hk as [<-|Hk]; [lia|]). destruct Hk.
Defined.

(** ** The arrows of the 3-D plot *)

(** Orthonormal columns of a square matrix with a two-sided inverse: the
    inverse is the transpose, and the rows are orthonormal too. *)
Lemma rows_orthonormal (n : nat) (v u : matrix) (i j : nat) :
  shape n n v -> shape n n u ->
  matmul u v = eye n -> matmul v u = eye n ->
  (forall k l, (k < n)%nat -> (l < n)%nat ->
     bigsum n (fun r => ent v r k * ent v r l) = delta k l) ->
  (i < n)%nat -> (j < n)%nat ->
  bigsum n (fun k => ent v i k * ent v j k) = delta i j.
Proof.
  intros Hv Hu Euv Evu Hcol Hi Hj.
  assert (Hinv : forall k r, (k < n)%nat -> (r < n)%nat -> ent u k r = ent v r k).
  { intros k r Hk Hr.
    transitivity (bigsum n (fun l => delta k l * ent u l r)).
    - now rewrite bigsum_delta_l.
    - rewrite (bigsum_ext n _ (fun l => bigsum n (fun s =>
                 ent v s k * (ent v s l * ent u l r)))).
      + rewrite bigsum_swap.
        rewrite (bigsum_ext n _ (fun s => delta r s * ent v s k)).
        * now rewrite bigsum_delta_l.
        * intros s Hs. rewrite bigsum_scal.
          rewrite (matmul_eye_ent n v u s r Hv Hu Evu Hs Hr), delta_sym. ring.
      + intros l Hl. rewrite <- (Hcol k l Hk Hl), <- bigsum_scal_r.
        apply bigsum_ext. intros s _. ring. }
  rewrite <- (matmul_eye_ent n v u i j Hv Hu Evu Hi Hj).
  apply bigsum_ext. intros k Hk. now rewrite (Hinv k j Hk Hj).
Qed.

(** X19. On a table of four features whose eigenvalues are pairwise
    different, the loop [for v in evecs] draws four arrows from the origin;
    arrow i ends at the first three entries of row i of [evecs] (the i-th
    coordinates of the eigenvectors 0, 1 and 2).  The rows of [evecs] are
    then unit vectors like its columns, so the squared length of arrow i is
    1 - evecs[i, 3]^2, at most one. *)
Theorem arrows_are_rows_of_evecs_within_unit_ball
    (eig : matrix -> vector * matrix) (n : nat) (data : matrix) :
  shape n 4 data -> (2 <= n)%nat ->
  eig_contract (Sigma data) (evals eig data) (evecs eig data) ->
  (forall i k, (i < 4)%nat -> (k < 4)%nat -> i <> k ->
     nth i (evals eig data) 0 <> nth k (evals eig data) 0) ->
  exists l, arrows eig data = Some l /\ length l = 4%nat /\
    forall i, (i < 4)%nat ->
      nth i l ((0, 0, 0), (0, 0, 0))
      = ((0, 0, 0),
         (ent (evecs eig data) i 0, ent (evecs eig data) i 1,
          ent (evecs eig data) i 2)) /\
      ent (evecs eig data) i 0 * ent (evecs eig data) i 0
      + ent (evecs eig data) i 1 * ent (evecs eig data) i 1
      + ent (evecs eig data) i 2 * ent (evecs eig data) i 2
      = 1 - ent (evecs eig data) i 3 * ent (evecs eig data) i 3.
Proof.
  intros H Hn HE Hd. assert (Hn0 : (0 < n)%nat) by lia.
  pose proof (shape_Sigma n 4 data H Hn0) as HS.
  pose proof HE as [_ HV _ _ [u [Hu [Euv Evu]]]].
  rewrite (nrows_Sigma n 4 data H Hn0) in HV, Hu, Euv, Evu.
  assert (LV : length (evecs eig data) = 4%nat) by (now destruct HV).
  unfold arrows, mean_xyz. rewrite (mean_axis0_X_std n 4 data H Hn0).
  cbn [repeat removelast unpack3].
  eexists. split; [reflexivity|]. split; [now rewrite length_map|].
  intros i Hi. split.
  - rewrite (nth_map_in _ _ _ (evecs eig data) i _ []) by lia. reflexivity.
  - assert (Hcol : forall k l, (k < 4)%nat -> (l < 4)%nat ->
              bigsum 4 (fun r => ent (evecs eig data) r k
                                 * ent (evecs eig data) r l) = delta k l).
    { intros k l Hk Hl. unfold delta. destruct (Nat.eq_dec k l) as [->|Hne].
      - apply (eig_unit_ent 4 (Sigma data) _ _ HS HE l Hl).
      - pose proof (eigvecs_orthogonal n 4 data _ _ k l H Hn0 HE Hk Hl
                      (Hd k l Hk Hl Hne)) as O.
        rewrite dot_nth in O by (now rewrite !length_column).
        rewrite length_column, LV in O. rewrite <- O.
        apply bigsum_ext. intros r _. now rewrite !nth_column. }
    pose proof (rows_orthonormal 4 _ u i i HV Hu Euv Evu Hcol Hi Hi) as R.
    unfold delta in R. destruct (Nat.eq_dec i i) as [_|N]; [|lia].
    unfold bigsum in R. cbn [seq map] in R. rewrite !sum_cons in R.
    change (sum []) with 0 in R. lra.
Qed.

(** Witness of X19: the table of equal variances, whose four eigenvalues
    are different. *)
Lemma arrows_witness :
  exists l, arrows eig_hadamard4 data_equalvar = Some l /\ length l = 4%nat /\
    forall i, (i < 4)%nat ->
      nth i l ((0, 0, 0), (0, 0, 0))
      = ((0, 0, 0),
         (ent (evecs eig_hadamard4 data_equalvar) i 0,
          ent (evecs eig_hadamard4 data_equalvar) i 1,
          ent (evecs eig_hadamard4 data_equalvar) i 2)) /\
      ent (evecs eig_hadamard4 data_equalvar) i 0
        * ent (evecs eig_hadamard4 data_equalvar) i 0
      + ent (evecs eig_hadamard4 data_equalvar) i 1
        * ent (evecs eig_hadamard4 data_equalvar) i 1
      + ent (evecs eig_hadamard4 data_equalvar) i 2
        * ent (evecs eig_hadamard4 data_equalvar) i 2
      = 1 - ent (evecs eig_hadamard4 data_equalvar) i 3
            * ent (evecs eig_hadamard4 data_equalvar) i 3.
Proof.
  apply (arrows_are_rows_of_evecs_within_unit_ball eig_hadamard4 4 data_equalvar).
  - exact shape_data_equalvar.
  - lia.
  - exact eig_contract_data_equalvar.
  - intros i k Hi Hk Hne. unfold evals, eig_hadamard4. cbn [fst].
    destruct i as [|[|[|[|i]]]]; try lia;
      destruct k as [|[|[|[|k]]]]; try lia; cbn [nth]; lra.
Defined.
